(** * Headless UI: the transition engine and the Dialog state machine

    A shallow embedding of [utils/transition.ts] (addClasses, removeClasses,
    waitForTransition, transition) and of [components/dialog/dialog.ts]
    (the Dialog component's setup: validation, derived state, stack
    messages, Escape and outside-click handling, scroll lock, close).

    JavaScript values are modelled as follows.
    - An exception is a [Throw] completion; a normal return is [Normal].
    - A DOM element reference that may be [null] is an [option].
    - A JavaScript number is an IEEE 754 double: a signed zero, a signed
      infinity, [NaN] or a finite value, with the arithmetic of the
      standard library's specification of binary64 (round to nearest,
      ties to even). [Num q] is the double nearest to the rational [q].
    - A [DOMTokenList] (element.classList) is the ordered list of its
      tokens, without repetition.
    - An inline style declaration block is a finite map from CSS property
      names (as written in CSS, with dashes) to their values. *)

From Stdlib Require Import ZArith QArith Qpower String Ascii List Bool Lia.
From Stdlib Require Import Floats.SpecFloat.
From stdpp Require Import base option list strings gmap pretty.

(** ** Completions: normal return or thrown exception *)

Inductive JsError : Type :=
| TypeError (message : string)
| SyntaxError (message : string)
| InvalidCharacterError (message : string)
| Error (message : string).

Inductive Completion (A : Type) : Type :=
| Normal (value : A)
| Throw (error : JsError).

Arguments Normal {A} value.
Arguments Throw {A} error.

Definition is_normal {A : Type} (c : Completion A) : bool :=
  match c with Normal _ => true | Throw _ => false end.

Definition is_throw {A : Type} (c : Completion A) : bool :=
  match c with Normal _ => false | Throw _ => true end.

(** ** JavaScript numbers *)

(** A JavaScript number is an IEEE 754 binary64 value: a signed zero, a
    signed infinity, NaN, or a finite [(-1)^s * m * 2^e]. The operations
    are those of the standard library's specification of floating-point
    arithmetic at 53 bits of precision, rounding to nearest, ties to
    even. *)
Definition Number : Type := spec_float.

Definition binary64_prec : Z := 53.
Definition binary64_emax : Z := 1024.

Definition NaN : Number := S754_nan.
Definition Infinity : Number := S754_infinity false.

(** The Number value for the rational [n / d], with the sign given apart:
    the quotient is taken with enough bits, then rounded. *)
Definition round_ratio (negative : bool) (n d : positive) : Number :=
  let '(m, e, l) :=
    SFdiv_core_binary binary64_prec binary64_emax (Zpos n) 0 (Zpos d) 0 in
  binary_round_aux binary64_prec binary64_emax negative m e l.

(** The Number value for a rational: the nearest double, [+0] for 0, an
    infinity past the largest double. *)
Definition Num (q : Q) : Number :=
  let q' := Qred q in
  match Qnum q' with
  | Z0 => S754_zero false
  | Zpos n => round_ratio false n (Qden q')
  | Zneg n => round_ratio true n (Qden q')
  end.

Definition number_add (a b : Number) : Number :=
  SFadd binary64_prec binary64_emax a b.

Definition number_sub (a b : Number) : Number :=
  SFsub binary64_prec binary64_emax a b.

Definition number_mul (a b : Number) : Number :=
  SFmul binary64_prec binary64_emax a b.

Definition number_neg (a : Number) : Number := SFopp a.

(** [a !== b] on numbers: [NaN] differs from everything, itself included;
    the two zeros are equal. *)
Definition number_strict_ne (a b : Number) : bool := negb (SFeqb a b).

(** The sign test [Array.prototype.sort] applies to a comparator's result:
    a [NaN] result counts as [+0]. *)
Definition number_is_positive (a : Number) : bool :=
  SFltb (S754_zero false) a.

(** ** JavaScript strings *)

Definition ascii_eqb (a b : ascii) : bool := Ascii.eqb a b.

(** [s.split(sep)] for a one-character separator. *)
Fixpoint split (sep : ascii) (s : string) : list string :=
  match s with
  | EmptyString => [EmptyString]
  | String c rest =>
      if ascii_eqb c sep then EmptyString :: split sep rest
      else
        match split sep rest with
        | [] => [String c EmptyString]
        | piece :: pieces => String c piece :: pieces
        end
  end.

(** [s.includes(sub)]. *)
Fixpoint includes (sub s : string) : bool :=
  String.prefix sub s
  || match s with
     | EmptyString => false
     | String _ rest => includes sub rest
     end.

(** [Boolean(s)] for a string: only the empty string is falsy. *)
Definition string_truthy (s : string) : bool :=
  match s with EmptyString => false | String _ _ => true end.

(** White space skipped by [parseFloat] (the ASCII part of StrWhiteSpaceChar:
    TAB, LF, VT, FF, CR, SPACE). *)
Definition is_js_whitespace (c : ascii) : bool :=
  let n := nat_of_ascii c in
  (n =? 9)%nat || (n =? 10)%nat || (n =? 11)%nat || (n =? 12)%nat
  || (n =? 13)%nat || (n =? 32)%nat.

Fixpoint skip_whitespace (s : string) : string :=
  match s with
  | String c rest => if is_js_whitespace c then skip_whitespace rest else s
  | EmptyString => s
  end.

Definition digit_of_ascii (c : ascii) : option Z :=
  let n := nat_of_ascii c in
  if ((48 <=? n) && (n <=? 57))%nat then Some (Z.of_nat (n - 48)) else None.

(** The longest run of decimal digits at the front of [s]: the digits read so
    far are accumulated in [acc] (their value) and [count] (how many). *)
Fixpoint take_digits (s : string) (acc : Z) (count : nat) : Z * nat * string :=
  match s with
  | String c rest =>
      match digit_of_ascii c with
      | Some d => take_digits rest (10 * acc + d)%Z (S count)
      | None => (acc, count, s)
      end
  | EmptyString => (acc, count, s)
  end.

(** An optional sign: [true] for a leading minus. *)
Definition take_sign (s : string) : bool * string :=
  match s with
  | String "-" rest => (true, rest)
  | String "+" rest => (false, rest)
  | _ => (false, s)
  end.

(** ExponentPart: [e] or [E], an optional sign, at least one digit.
    Absent or malformed, the exponent is 0. *)
Definition take_exponent (s : string) : Z :=
  match s with
  | String c rest =>
      if ascii_eqb c "e" || ascii_eqb c "E" then
        let '(neg, rest') := take_sign rest in
        let '(e, count, _) := take_digits rest' 0%Z 0%nat in
        match count with
        | O => 0%Z
        | S _ => if neg then (- e)%Z else e
        end
      else 0%Z
  | EmptyString => 0%Z
  end.

(** [mantissa * 10 ^ exponent] as an exact rational. *)
Definition scale10 (mantissa exponent : Z) : Q :=
  if (0 <=? exponent)%Z then inject_Z (mantissa * 10 ^ exponent)
  else Qmake mantissa (Z.to_pos (10 ^ (- exponent))).

(** [parseFloat(s)]: skip leading white space, read the longest prefix that
    is a decimal literal (a sign, then [Infinity] or digits, fraction and
    exponent), ignore the rest; [NaN] when there is none. The literal's
    exact value is rounded to the nearest double; a minus sign negates the
    result, so that [-0] reads as the negative zero. *)
Definition parseFloat (s : string) : Number :=
  let '(neg, s1) := take_sign (skip_whitespace s) in
  let '(int_part, int_count, s2) := take_digits s1 0%Z 0%nat in
  let '(mantissa, frac_count, s3) :=
    match s2 with
    | String "." rest =>
        let '(m, total, s3) := take_digits rest int_part int_count in
        (m, (total - int_count)%nat, s3)
    | _ => (int_part, 0%nat, s2)
    end in
  let magnitude :=
    match (int_count + frac_count)%nat with
    | O => if String.prefix "Infinity" s1 then Infinity else NaN
    | S _ => Num (scale10 mantissa (take_exponent s3 - Z.of_nat frac_count))
    end in
  if neg then number_neg magnitude else magnitude.

(** [array.sort(compare)], for a comparator that orders its arguments
    consistently: a stable insertion sort, [x] staying in front of [y] unless
    [compare x y] is positive. *)
Fixpoint sort_insert (compare : Number -> Number -> Number)
    (x : Number) (sorted : list Number) : list Number :=
  match sorted with
  | [] => [x]
  | y :: rest =>
      if number_is_positive (compare x y) then y :: sort_insert compare x rest
      else x :: sorted
  end.

Definition array_sort (compare : Number -> Number -> Number)
    (l : list Number) : list Number :=
  foldr (sort_insert compare) [] l.

(** ** DOM: token lists, style declarations, elements *)

(** ASCII white space of the DOM standard: TAB, LF, FF, CR, SPACE. *)
Definition is_ascii_whitespace (c : ascii) : bool :=
  let n := nat_of_ascii c in
  (n =? 9)%nat || (n =? 10)%nat || (n =? 12)%nat || (n =? 13)%nat
  || (n =? 32)%nat.

Fixpoint has_ascii_whitespace (s : string) : bool :=
  match s with
  | EmptyString => false
  | String c rest => is_ascii_whitespace c || has_ascii_whitespace rest
  end.

(** The argument check of [DOMTokenList.add] and [DOMTokenList.remove]: the
    first token that is empty raises SyntaxError, the first one that holds
    white space InvalidCharacterError; nothing is changed in that case. *)
Fixpoint validate_tokens (tokens : list string) : option JsError :=
  match tokens with
  | [] => None
  | t :: rest =>
      if negb (string_truthy t) then
        Some (SyntaxError "The token provided must not be empty.")
      else if has_ascii_whitespace t then
        Some (InvalidCharacterError "The token provided contains white space.")
      else validate_tokens rest
  end.

Definition token_append (l : list string) (t : string) : list string :=
  if decide (t ∈ l) then l else l ++ [t].

Definition DOMTokenList_add (l tokens : list string)
    : Completion (list string) :=
  match validate_tokens tokens with
  | Some e => Throw e
  | None => Normal (foldl token_append l tokens)
  end.

Definition DOMTokenList_remove (l tokens : list string)
    : Completion (list string) :=
  match validate_tokens tokens with
  | Some e => Throw e
  | None => Normal (filter (λ t, t ∉ tokens) l)
  end.

(** The CSS property an IDL attribute of [element.style] stands for
    (CSSOM, "IDL attribute to CSS property"): an upper-case letter becomes a
    dash and its lower-case form, so [paddingRight] is [padding-right]. *)
Definition is_upper (c : ascii) : bool :=
  let n := nat_of_ascii c in ((65 <=? n) && (n <=? 90))%nat.

Definition to_lower (c : ascii) : ascii :=
  if is_upper c then ascii_of_nat (nat_of_ascii c + 32) else c.

Fixpoint idl_attribute_to_css_property (attribute : string) : string :=
  match attribute with
  | EmptyString => EmptyString
  | String c rest =>
      if is_upper c then
        String "-" (String (to_lower c) (idl_attribute_to_css_property rest))
      else String c (idl_attribute_to_css_property rest)
  end.

Fixpoint ascii_lowercase (s : string) : string :=
  match s with
  | EmptyString => EmptyString
  | String c rest => String (to_lower c) (ascii_lowercase rest)
  end.

(** [style.getPropertyValue(property)] (CSSOM): the argument is a CSS
    property name, compared after lower-casing with the names of the
    declarations; the empty string when no declaration has that name. *)
Definition getPropertyValue (style : gmap string string) (property : string)
    : string :=
  default EmptyString (style !! ascii_lowercase property).

(** [Object.assign(style, { [attribute]: value })], that is
    [style[attribute] = value]: the declaration of the attribute's CSS
    property is set, or removed when the value is the empty string. Values
    are taken to be valid for their property. *)
Definition style_assign (style : gmap string string)
    (attribute value : string) : gmap string string :=
  let property := idl_attribute_to_css_property attribute in
  if string_truthy value then <[property := value]> style
  else delete property style.

Record HTMLElement : Type := {
  classList : list string;
  attributes : gmap string string;
  inline_style : gmap string string;
}.

Definition set_classList (el : HTMLElement) (l : list string) : HTMLElement :=
  {| classList := l; attributes := attributes el; inline_style := inline_style el |}.

Definition set_style (el : HTMLElement) (s : gmap string string)
    : HTMLElement :=
  {| classList := classList el; attributes := attributes el;
     inline_style := s |}.

Definition removeAttribute (el : HTMLElement) (name : string) : HTMLElement :=
  {| classList := classList el;
     attributes := delete name (attributes el);
     inline_style := inline_style el |}.

(** What [getComputedStyle(node)] is read for. *)
Record ComputedStyle : Type := {
  transitionDuration : string;
  transitionDelay : string;
}.

(** The environment a transition runs in: [process.env.NODE_ENV] and the
    style sheet, as the function from an element to its computed style. *)
Record Browser : Type := {
  NODE_ENV : string;
  getComputedStyle : HTMLElement -> ComputedStyle;
}.

(** ** utils/transition.ts *)

(** [addClasses(node, ...classes)]:
    [node && classes.length > 0 && node.classList.add(...classes)].
    The element is passed in and handed back as the call leaves it. *)
Definition addClasses (node : option HTMLElement) (classes : list string)
    : Completion (option HTMLElement) :=
  match node with
  | None => Normal None
  | Some el =>
      if (0 <? length classes)%nat then
        match DOMTokenList_add (classList el) classes with
        | Normal l => Normal (Some (set_classList el l))
        | Throw e => Throw e
        end
      else Normal (Some el)
  end.

(** [removeClasses(node, ...classes)]. *)
Definition removeClasses (node : option HTMLElement) (classes : list string)
    : Completion (option HTMLElement) :=
  match node with
  | None => Normal None
  | Some el =>
      if (0 <? length classes)%nat then
        match DOMTokenList_remove (classList el) classes with
        | Normal l => Normal (Some (set_classList el l))
        | Throw e => Throw e
        end
      else Normal (Some el)
  end.

(** The value one of [transitionDuration], [transitionDelay] resolves to:
    split at commas, drop the empty pieces, read each piece as milliseconds
    or as seconds times 1000, sort in descending order, take the first;
    the destructuring default 0 stands in when there is none. *)
Definition to_milliseconds (v : string) : Number :=
  if includes "ms" v then parseFloat v
  else number_mul (parseFloat v) (Num 1000).

Definition descending (a z : Number) : Number := number_sub z a.

Definition resolvedValue (value : string) : Number :=
  match
    array_sort descending
      (map to_milliseconds (List.filter string_truthy (split "," value)))
  with
  | [] => Num 0
  | first :: _ => first
  end.

Definition totalDuration (cs : ComputedStyle) : Number :=
  number_add (resolvedValue (transitionDuration cs))
             (resolvedValue (transitionDelay cs)).

(** The seven class lists of a transition. *)
Record TransitionClasses : Type := {
  enter : list string;
  enterFrom : list string;
  enterTo : list string;
  leave : list string;
  leaveFrom : list string;
  leaveTo : list string;
  entered : list string;
}.

Inductive Direction : Type := dir_enter | dir_leave.

(** The arguments of one [transition(node, classes, show, done)] call, the
    node apart: [done] tells whether a completion callback was supplied. *)
Record Call : Type := {
  classes : TransitionClasses;
  show : bool;
  done : bool;
}.

(** [direction = show ? 'enter' : 'leave'], and the three lists that
    [match(direction, { enter: ..., leave: ... })] selects. Modelled from
    the spec: [match] (utils/match is not among the sources) returns the
    entry of its second argument that its first argument names. *)
Definition direction (c : Call) : Direction :=
  if show c then dir_enter else dir_leave.

Definition base (c : Call) : list string :=
  match direction c with
  | dir_enter => enter (classes c)
  | dir_leave => leave (classes c)
  end.

Definition to (c : Call) : list string :=
  match direction c with
  | dir_enter => enterTo (classes c)
  | dir_leave => leaveTo (classes c)
  end.

Definition from (c : Call) : list string :=
  match direction c with
  | dir_enter => enterFrom (classes c)
  | dir_leave => leaveFrom (classes c)
  end.

Definition all_classes (cs : TransitionClasses) : list string :=
  enter cs ++ enterTo cs ++ enterFrom cs ++ leave cs ++ leaveFrom cs
  ++ leaveTo cs ++ entered cs.

(** The functions the call creates and hands to the browser or to a
    registry. *)
Inductive Closure : Type :=
| NextFrameCallback      (* the function given to d.nextFrame *)
| TimeoutCallback        (* () => { done(); dispose() } *)
| TransitionEndListener. (* (event) => { ... done(); dispose() } *)

Inductive Cleanup : Type :=
| CancelFrame            (* registered by d.nextFrame *)
| ClearTimeout           (* registered by d.setTimeout *)
| RemoveListener         (* registered by d.addEventListener *)
| CallDone.              (* d.add(() => done()) *)

#[global] Instance Cleanup_eq_dec : EqDecision Cleanup.
Proof. solve_decision. Defined.

(** The two registries: [d] of [transition], whose [dispose] is returned to
    the caller, and [d] of [waitForTransition]. *)
Inductive Disposer : Type := dispose_transition | dispose_wait.

(** The state one call lives in: the element, what the browser holds for it
    (animation-frame callbacks, timers, transitionend listeners), the two
    registries, the flag of [once], how often the caller's callback ran,
    and the exceptions that reached the browser or the caller. *)
Record World : Type := {
  node : option HTMLElement;
  frames : list Closure;
  timers : list (Closure * Number);
  listeners : list Closure;
  d_transition : list Cleanup;
  d_wait : list Cleanup;
  called : bool;
  done_calls : nat;
  uncaught : list JsError;
}.

Definition initial_world (n : option HTMLElement) : World :=
  {| node := n; frames := []; timers := []; listeners := [];
     d_transition := []; d_wait := []; called := false; done_calls := 0;
     uncaught := [] |}.

Definition with_node (n : option HTMLElement) (w : World) : World :=
  {| node := n; frames := frames w; timers := timers w;
     listeners := listeners w; d_transition := d_transition w;
     d_wait := d_wait w; called := called w; done_calls := done_calls w;
     uncaught := uncaught w |}.

Definition with_frames (f : list Closure) (w : World) : World :=
  {| node := node w; frames := f; timers := timers w;
     listeners := listeners w; d_transition := d_transition w;
     d_wait := d_wait w; called := called w; done_calls := done_calls w;
     uncaught := uncaught w |}.

Definition with_timers (t : list (Closure * Number)) (w : World) : World :=
  {| node := node w; frames := frames w; timers := t;
     listeners := listeners w; d_transition := d_transition w;
     d_wait := d_wait w; called := called w; done_calls := done_calls w;
     uncaught := uncaught w |}.

Definition with_listeners (l : list Closure) (w : World) : World :=
  {| node := node w; frames := frames w; timers := timers w;
     listeners := l; d_transition := d_transition w;
     d_wait := d_wait w; called := called w; done_calls := done_calls w;
     uncaught := uncaught w |}.

Definition with_d_transition (d : list Cleanup) (w : World) : World :=
  {| node := node w; frames := frames w; timers := timers w;
     listeners := listeners w; d_transition := d;
     d_wait := d_wait w; called := called w; done_calls := done_calls w;
     uncaught := uncaught w |}.

Definition with_d_wait (d : list Cleanup) (w : World) : World :=
  {| node := node w; frames := frames w; timers := timers w;
     listeners := listeners w; d_transition := d_transition w;
     d_wait := d; called := called w; done_calls := done_calls w;
     uncaught := uncaught w |}.

Definition with_done_called (w : World) : World :=
  {| node := node w; frames := frames w; timers := timers w;
     listeners := listeners w; d_transition := d_transition w;
     d_wait := d_wait w; called := true; done_calls := S (done_calls w);
     uncaught := uncaught w |}.

Definition with_uncaught (e : JsError) (w : World) : World :=
  {| node := node w; frames := frames w; timers := timers w;
     listeners := listeners w; d_transition := d_transition w;
     d_wait := d_wait w; called := called w; done_calls := done_calls w;
     uncaught := uncaught w ++ [e] |}.

(** Code that reads and writes the world and may throw. *)
Definition M (A : Type) : Type := World -> Completion A * World.

#[global] Instance M_ret : MRet M := λ A a w, (Normal a, w).

#[global] Instance M_bind : MBind M := λ A B k m w,
  match m w with
  | (Normal a, w') => k a w'
  | (Throw e, w') => (Throw e, w')
  end.

Definition modify (f : World -> World) : M unit := λ w, (Normal tt, f w).

(** A call of one of the helpers on the call's node. *)
Definition on_node
    (f : option HTMLElement -> Completion (option HTMLElement)) : M unit :=
  λ w, match f (node w) with
       | Normal n => (Normal tt, with_node n w)
       | Throw e => (Throw e, w)
       end.

(** Modelled from the spec: [once] (utils/once is not among the sources).
    The wrapped completion callback runs at most once: the first call sets
    the flag and runs the caller's [done], later calls return at once. The
    caller's [done] is taken to return normally. *)
Definition once_done : M unit :=
  λ w, if called w then (Normal tt, w) else (Normal tt, with_done_called w).

(** [_done = done !== undefined ? once(done) : () => {}]. *)
Definition _done (c : Call) : M unit :=
  if done c then once_done else mret tt.

(** The callback [transition] gives to [waitForTransition]:
    [removeClasses(node, ...base); addClasses(node, ...classes.entered);
    return _done()]. *)
Definition finish (c : Call) : M unit :=
  on_node (λ n, removeClasses n (base c)) ;;
  on_node (λ n, addClasses n (entered (classes c))) ;;
  _done c.

(** Modelled from the spec: the disposables registry (utils/disposables is
    not among the sources). A registry is the list of its cleanups in the
    order they were registered. [add] registers a cleanup; [nextFrame],
    [setTimeout] and [addEventListener] hand their callback to the browser
    (to run in the next animation frame, when the time has elapsed, on the
    event) and register the cleanup that takes it back; [dispose] empties the
    registry and runs what it held in reverse order, so a second [dispose]
    finds nothing to run. The function [setTimeout] and [addEventListener]
    return, which the source calls [dispose] too, releases that one
    resource and drops its cleanup from the registry. *)
Definition run_cleanup (c : Call) (cleanup : Cleanup) : M unit :=
  match cleanup with
  | CancelFrame => modify (with_frames [])
  | ClearTimeout => modify (with_timers [])
  | RemoveListener => modify (with_listeners [])
  | CallDone => finish c
  end.

Fixpoint run_cleanups (c : Call) (cleanups : list Cleanup) : M unit :=
  match cleanups with
  | [] => mret tt
  | cleanup :: rest => run_cleanup c cleanup ;; run_cleanups c rest
  end.

Definition registry (d : Disposer) (w : World) : list Cleanup :=
  match d with
  | dispose_transition => d_transition w
  | dispose_wait => d_wait w
  end.

Definition with_registry (d : Disposer) (l : list Cleanup) (w : World)
    : World :=
  match d with
  | dispose_transition => with_d_transition l w
  | dispose_wait => with_d_wait l w
  end.

Definition d_add (d : Disposer) (cleanup : Cleanup) : M unit :=
  λ w, (Normal tt, with_registry d (registry d w ++ [cleanup]) w).

Definition d_dispose (c : Call) (d : Disposer) : M unit :=
  λ w, run_cleanups c (rev (registry d w)) (with_registry d [] w).

Definition dispose_one (c : Call) (d : Disposer) (cleanup : Cleanup)
    : M unit :=
  λ w, run_cleanup c cleanup
         (with_registry d (List.filter (λ x, negb (bool_decide (x = cleanup)))
                                  (registry d w)) w).

Definition d_nextFrame (d : Disposer) (cb : Closure) : M unit :=
  modify (λ w, with_frames (frames w ++ [cb]) w) ;; d_add d CancelFrame.

Definition d_setTimeout (d : Disposer) (cb : Closure) (ms : Number) : M unit :=
  modify (λ w, with_timers (timers w ++ [(cb, ms)]) w) ;; d_add d ClearTimeout.

Definition d_addEventListener (d : Disposer) (listener : Closure) : M unit :=
  modify (λ w, with_listeners (listeners w ++ [listener]) w) ;;
  d_add d RemoveListener.

(** [waitForTransition(node, done)], where [done] is [finish c]. The
    registry it creates is [dispose_wait]; it returns that registry's
    [dispose]. *)
Definition waitForTransition (env : Browser) (c : Call) : M Disposer :=
  λ w,
    match node w with
    | None => (Normal dispose_wait, w)
    | Some el =>
        let total := totalDuration (getComputedStyle env el) in
        ((if number_strict_ne total (Num 0) then
            if String.eqb (NODE_ENV env) "test" then
              d_setTimeout dispose_wait TimeoutCallback total
            else d_addEventListener dispose_wait TransitionEndListener
          else finish c) ;;
         d_add dispose_wait CallDone ;;
         mret dispose_wait) w
    end.

(** What the animation-frame callback does before it calls
    [waitForTransition]: [removeClasses(node, ...from);
    addClasses(node, ...to)]. *)
Definition apply_to (c : Call) : M unit :=
  on_node (λ n, removeClasses n (from c)) ;;
  on_node (λ n, addClasses n (to c)).

(** The function given to [d.nextFrame]; what [waitForTransition] returns is
    not kept. *)
Definition next_frame_callback (env : Browser) (c : Call) : M unit :=
  apply_to c ;;
  _ ← waitForTransition env c;
  mret tt.

(** [node.removeAttribute('hidden'); node.style.display = ''], which reads a
    property of [node]: a TypeError when [node] is [null]. *)
Definition unhide : M unit :=
  λ w,
    match node w with
    | None =>
        (Throw (TypeError
                  "Cannot read properties of null (reading 'removeAttribute')"),
         w)
    | Some el =>
        let el' := removeAttribute el "hidden" in
        (Normal tt,
         with_node (Some (set_style el'
                           (style_assign (inline_style el') "display" "")))
                   w)
    end.

Definition transition_body (c : Call) : M Disposer :=
  match direction c with
  | dir_enter => unhide
  | dir_leave => mret tt
  end ;;
  on_node (λ n, removeClasses n (all_classes (classes c))) ;;
  on_node (λ n, addClasses n (base c ++ from c)) ;;
  d_nextFrame dispose_transition NextFrameCallback ;;
  mret dispose_transition.

(** [transition(node, classes, show, done)]: its completion (the disposer it
    returns, or what it throws) and the world it leaves. *)
Definition transition (node : option HTMLElement) (classes : TransitionClasses)
    (show : bool) (done : bool) : Completion Disposer * World :=
  transition_body {| classes := classes; show := show; done := done |}
    (initial_world node).

(** A transitionend event as the listener reads it. *)
Record TransitionEvent : Type := {
  target : nat;
  currentTarget : nat;
}.

Definition timeout_callback (c : Call) : M unit :=
  finish c ;; dispose_one c dispose_wait ClearTimeout.

Definition transitionend_listener (c : Call) (event : TransitionEvent)
    : M unit :=
  if negb (target event =? currentTarget event)%nat then mret tt
  else finish c ;; dispose_one c dispose_wait RemoveListener.

(** What can happen after [transition] has returned: the browser runs the
    animation-frame callbacks, dispatches a transitionend event at the
    node, lets the timers elapse, or the caller invokes the disposer that
    [transition] returned. *)
Inductive BrowserEvent : Type :=
| AnimationFrame
| TransitionEnd (event : TransitionEvent)
| TimersElapse
| CallDisposer.

Definition run_closure (env : Browser) (c : Call)
    (event : option TransitionEvent) (f : Closure) : M unit :=
  match f with
  | NextFrameCallback => next_frame_callback env c
  | TimeoutCallback => timeout_callback c
  | TransitionEndListener =>
      match event with
      | Some ev => transitionend_listener c ev
      | None => mret tt
      end
  end.

(** A callback run by the browser or a call made by the caller's code: an
    exception ends it, is recorded, and the world goes on. *)
Definition reported (m : M unit) (w : World) : World :=
  match m w with
  | (Normal _, w') => w'
  | (Throw e, w') => with_uncaught e w'
  end.

Definition run_closures (env : Browser) (c : Call)
    (event : option TransitionEvent) (fs : list Closure) (w : World) : World :=
  foldl (λ w f, reported (run_closure env c event f) w) w fs.

Definition step (env : Browser) (c : Call) (e : BrowserEvent) (w : World)
    : World :=
  match e with
  | AnimationFrame =>
      run_closures env c None (frames w) (with_frames [] w)
  | TransitionEnd event =>
      run_closures env c (Some event) (listeners w) w
  | TimersElapse =>
      run_closures env c None (map fst (timers w)) (with_timers [] w)
  | CallDisposer =>
      reported (d_dispose c dispose_transition) w
  end.

Definition run (env : Browser) (c : Call) (es : list BrowserEvent)
    (w : World) : World :=
  foldl (λ w e, step env c e w) w es.

(** The events of a transition that runs to its end undisturbed: the
    animation frame and then, when [waitForTransition] has armed a timer or
    a listener, the timer's elapse or a transitionend event of the node
    itself. *)
Definition own_transitionend : TransitionEvent :=
  {| target := 0; currentTarget := 0 |}.

Definition natural_finish (env : Browser) (c : Call) (w : World)
    : list BrowserEvent :=
  let w1 := step env c AnimationFrame w in
  AnimationFrame ::
    match timers w1, listeners w1 with
    | _ :: _, _ => [TimersElapse]
    | [], _ :: _ => [TransitionEnd own_transitionend]
    | [], [] => []
    end.

(** ** components/dialog/dialog.ts *)

(** The JavaScript values a prop can hold. A number is one of the integers
    that print as their decimal digits (below [10^21] in magnitude); a
    fraction goes through Number::toString, which is not modelled. A symbol
    and an object are named by a number. An object (a plain object, an
    array, a function) carries what converting it to a string gives: the
    text that its [Symbol.toPrimitive], [toString] or [valueOf] method
    yields ([[object Object]] for a plain object, the joined elements for an
    array), or what the conversion throws (a TypeError for an object that
    has none of these methods, such as one made by [Object.create(null)]). *)
Inductive JsValue : Type :=
| VUndefined
| VNull
| VBoolean (b : bool)
| VString (s : string)
| VNumber (n : Z)
| VBigInt (n : Z)
| VSymbol (identity : nat)
| VObject (address : nat) (to_string : Completion string).

(** [a === b]. *)
Definition strict_eq (a b : JsValue) : bool :=
  match a, b with
  | VUndefined, VUndefined => true
  | VNull, VNull => true
  | VBoolean x, VBoolean y => Bool.eqb x y
  | VString x, VString y => String.eqb x y
  | VNumber x, VNumber y => (x =? y)%Z
  | VBigInt x, VBigInt y => (x =? y)%Z
  | VSymbol x, VSymbol y => (x =? y)%nat
  | VObject x _, VObject y _ => (x =? y)%nat
  | _, _ => false
  end.

(** [typeof v === 'boolean']. *)
Definition is_boolean (v : JsValue) : bool :=
  match v with VBoolean _ => true | _ => false end.

(** The truth value a condition reads from [v]. *)
Definition truthy (v : JsValue) : bool :=
  match v with
  | VUndefined | VNull => false
  | VBoolean b => b
  | VString s => string_truthy s
  | VNumber n | VBigInt n => negb (n =? 0)%Z
  | VSymbol _ => true
  | VObject _ _ => true
  end.

(** [`${v}`]: the value converted to a string, or what the conversion
    throws. A symbol does not convert. *)
Definition template (v : JsValue) : Completion string :=
  match v with
  | VUndefined => Normal "undefined"
  | VNull => Normal "null"
  | VBoolean b => Normal (if b then "true" else "false")
  | VString s => Normal s
  | VNumber n | VBigInt n => Normal (pretty n)
  | VSymbol _ => Throw (TypeError "Cannot convert a Symbol value to a string")
  | VObject _ to_string => to_string
  end.

Module DialogStates.
Inductive t : Type := Open | Closed.
End DialogStates.

(** Modelled from the spec: the ambient open/closed signal
    (internal/open-closed is not among the sources), an optional signal of
    Open or Closed. *)
Module State.
Inductive t : Type := Open | Closed.
End State.

#[global] Instance DialogStates_eq_dec : EqDecision DialogStates.t.
Proof. solve_decision. Defined.

Inductive Position : Type := leaf | parent.

#[global] Instance Position_eq_dec : EqDecision Position.
Proof. solve_decision. Defined.

(** Modelled from the spec: the messages of the stack provider
    (internal/stack-context is not among the sources). *)
Inductive StackMessage : Type := Add | Remove.

(** The default of the [open] prop, which marks it as not given. *)
Definition Missing : string := "DC8F892D-2EBD-447C-A4C8-A03058436FF4".

(** The props the setup function reads, as it receives them: [open] is
    declared with the types Boolean and String, in this order, and the
    default [Missing]. What setup sees is [Missing] when no [open] was
    given, [true] for an attribute given as the empty string or as
    ['open'], which Vue casts to a boolean, and otherwise the given value
    (Vue's prop resolution is not among the sources). *)
Record Props : Type := {
  props_open : JsValue;
}.

(** A Dialog instance: its props, what it injected ([useOpenClosed()] as
    [null] or the current value of the ambient ref; whether a DialogContext
    was found above it), its refs, and the events it has emitted. DOM
    elements are named by numbers. *)
Record Dialog : Type := {
  props : Props;
  usesOpenClosedState : option State.t;
  hasParentDialog : bool;
  ready : bool;
  nestedDialogCount : Z;
  containers : list nat;
  internalDialogRef : option nat;
  mainTreeNode : option nat;
  titleId : option string;
  panelRef : option nat;
  emitted : list (string * JsValue);
  focus_on_nextTick : list nat;
}.

(** The computed [open]. *)
Definition resolve_open (p : Props) (ambient : option State.t) : JsValue :=
  match ambient with
  | Some s =>
      if strict_eq (props_open p) (VString Missing) then
        match s with
        | State.Open => VBoolean true
        | State.Closed => VBoolean false
        end
      else props_open p
  | None => props_open p
  end.

Definition open (d : Dialog) : JsValue :=
  resolve_open (props d) (usesOpenClosedState d).

Definition forgot_open : string :=
  "You forgot to provide an `open` prop to the `Dialog`.".

(** The message of the second Error: evaluating its template literal
    converts the value to a string, which may throw. *)
Definition not_a_boolean (p : Props) (ambient : option State.t)
    : Completion string :=
  match
    template (if strict_eq (resolve_open p ambient) (VString Missing)
              then VUndefined else props_open p)
  with
  | Normal text =>
      Normal ("You provided an `open` prop to the `Dialog`, but the value is not a boolean. Received: "
              +:+ text)
  | Throw err => Throw err
  end.

(** The setup function up to its validations: the instance it creates, or
    what it throws. *)
Definition setup (p : Props) (ambient : option State.t) (hasParent : bool)
    : Completion Dialog :=
  let hasOpen :=
    negb (strict_eq (props_open p) (VString Missing))
    || match ambient with Some _ => true | None => false end in
  if negb hasOpen then Throw (Error forgot_open)
  else if negb (is_boolean (resolve_open p ambient)) then
    match not_a_boolean p ambient with
    | Normal message => Throw (Error message)
    | Throw err => Throw err
    end
  else
    Normal {| props := p; usesOpenClosedState := ambient;
              hasParentDialog := hasParent; ready := false;
              nestedDialogCount := 0; containers := [];
              internalDialogRef := None; mainTreeNode := None;
              titleId := None; panelRef := None; emitted := [];
              focus_on_nextTick := [] |}.

Definition dialogState (d : Dialog) : DialogStates.t :=
  if negb (ready d) then DialogStates.Closed
  else if truthy (open d) then DialogStates.Open
  else DialogStates.Closed.

Definition enabled (d : Dialog) : bool :=
  bool_decide (dialogState d = DialogStates.Open).

Definition hasNestedDialogs (d : Dialog) : bool :=
  (1 <? nestedDialogCount d)%Z.

Definition position (d : Dialog) : Position :=
  if negb (hasNestedDialogs d) then leaf else parent.

Definition with_ready (d : Dialog) : Dialog :=
  {| props := props d; usesOpenClosedState := usesOpenClosedState d;
     hasParentDialog := hasParentDialog d; ready := true;
     nestedDialogCount := nestedDialogCount d; containers := containers d;
     internalDialogRef := internalDialogRef d; mainTreeNode := mainTreeNode d;
     titleId := titleId d; panelRef := panelRef d; emitted := emitted d;
     focus_on_nextTick := focus_on_nextTick d |}.

Definition with_props (p : Props) (d : Dialog) : Dialog :=
  {| props := p; usesOpenClosedState := usesOpenClosedState d;
     hasParentDialog := hasParentDialog d; ready := ready d;
     nestedDialogCount := nestedDialogCount d; containers := containers d;
     internalDialogRef := internalDialogRef d; mainTreeNode := mainTreeNode d;
     titleId := titleId d; panelRef := panelRef d; emitted := emitted d;
     focus_on_nextTick := focus_on_nextTick d |}.

Definition with_ambient (s : option State.t) (d : Dialog) : Dialog :=
  {| props := props d; usesOpenClosedState := s;
     hasParentDialog := hasParentDialog d; ready := ready d;
     nestedDialogCount := nestedDialogCount d; containers := containers d;
     internalDialogRef := internalDialogRef d; mainTreeNode := mainTreeNode d;
     titleId := titleId d; panelRef := panelRef d; emitted := emitted d;
     focus_on_nextTick := focus_on_nextTick d |}.

Definition with_stack (count : Z) (cs : list nat) (d : Dialog) : Dialog :=
  {| props := props d; usesOpenClosedState := usesOpenClosedState d;
     hasParentDialog := hasParentDialog d; ready := ready d;
     nestedDialogCount := count; containers := cs;
     internalDialogRef := internalDialogRef d; mainTreeNode := mainTreeNode d;
     titleId := titleId d; panelRef := panelRef d; emitted := emitted d;
     focus_on_nextTick := focus_on_nextTick d |}.

Definition with_refs (root main : option nat) (d : Dialog) : Dialog :=
  {| props := props d; usesOpenClosedState := usesOpenClosedState d;
     hasParentDialog := hasParentDialog d; ready := ready d;
     nestedDialogCount := nestedDialogCount d; containers := containers d;
     internalDialogRef := root; mainTreeNode := main;
     titleId := titleId d; panelRef := panelRef d; emitted := emitted d;
     focus_on_nextTick := focus_on_nextTick d |}.

Definition with_titleId (t : option string) (d : Dialog) : Dialog :=
  {| props := props d; usesOpenClosedState := usesOpenClosedState d;
     hasParentDialog := hasParentDialog d; ready := ready d;
     nestedDialogCount := nestedDialogCount d; containers := containers d;
     internalDialogRef := internalDialogRef d; mainTreeNode := mainTreeNode d;
     titleId := t; panelRef := panelRef d; emitted := emitted d;
     focus_on_nextTick := focus_on_nextTick d |}.

Definition with_panelRef (r : option nat) (d : Dialog) : Dialog :=
  {| props := props d; usesOpenClosedState := usesOpenClosedState d;
     hasParentDialog := hasParentDialog d; ready := ready d;
     nestedDialogCount := nestedDialogCount d; containers := containers d;
     internalDialogRef := internalDialogRef d; mainTreeNode := mainTreeNode d;
     titleId := titleId d; panelRef := r; emitted := emitted d;
     focus_on_nextTick := focus_on_nextTick d |}.

Definition emit (name : string) (payload : JsValue) (d : Dialog) : Dialog :=
  {| props := props d; usesOpenClosedState := usesOpenClosedState d;
     hasParentDialog := hasParentDialog d; ready := ready d;
     nestedDialogCount := nestedDialogCount d; containers := containers d;
     internalDialogRef := internalDialogRef d; mainTreeNode := mainTreeNode d;
     titleId := titleId d; panelRef := panelRef d;
     emitted := emitted d ++ [(name, payload)];
     focus_on_nextTick := focus_on_nextTick d |}.

Definition nextTick_focus (el : nat) (d : Dialog) : Dialog :=
  {| props := props d; usesOpenClosedState := usesOpenClosedState d;
     hasParentDialog := hasParentDialog d; ready := ready d;
     nestedDialogCount := nestedDialogCount d; containers := containers d;
     internalDialogRef := internalDialogRef d; mainTreeNode := mainTreeNode d;
     titleId := titleId d; panelRef := panelRef d; emitted := emitted d;
     focus_on_nextTick := focus_on_nextTick d ++ [el] |}.

(** [onUpdate(message, type, element)] of the stack provider registration:
    [containers] is a Set, so adding an element it holds changes nothing. *)
Definition onUpdate (message : StackMessage) (type : string) (element : nat)
    (d : Dialog) : Dialog :=
  if negb (String.eqb type "Dialog") then d
  else
    match message with
    | Add =>
        with_stack (nestedDialogCount d + 1)
          (if decide (element ∈ containers d) then containers d
           else containers d ++ [element]) d
    | Remove =>
        with_stack (nestedDialogCount d - 1)
          (filter (λ x, x ≠ element) (containers d)) d
    end.

(** [api.setTitleId(id)]. *)
Definition setTitleId (id : option string) (d : Dialog) : Dialog :=
  if decide (titleId d = id) then d else with_titleId id d.

(** [api.close()]: [emit('close', false)]. *)
Definition close (d : Dialog) : Dialog := emit "close" (VBoolean false) d.

(** The part of the document [resolveAllowedContainers] reads: the
    HTMLElements that [querySelectorAll('body > *, [data-headlessui-portal]')]
    finds, and [container.contains(other)]. *)
Record Tree : Type := {
  root_candidates : list nat;
  contains : nat -> nat -> bool;
}.

Definition contains_ref (t : Tree) (container : nat) (r : option nat) : bool :=
  match r with Some el => contains t container el | None => false end.

Definition resolveAllowedContainers (t : Tree) (d : Dialog) : list (option nat) :=
  let rootContainers :=
    List.filter
      (λ container,
         if contains_ref t container (mainTreeNode d) then false
         else if match panelRef d with
                 | Some panel => contains t container panel
                 | None => false
                 end then false
         else true)
      (root_candidates t) in
  map Some rootContainers
  ++ [match panelRef d with Some panel => Some panel | None => internalDialogRef d end].

(** Modelled from the spec: the outside-click hook (hooks/use-outside-click
    is not among the sources). It is active only while its third argument
    is true, and then calls back on a click whose target lies outside
    every allowed container. *)
Definition outside_click_fires (t : Tree) (allowed : list (option nat))
    (active : bool) (target : nat) : bool :=
  active
  && forallb (λ c, match c with
                   | Some container => negb (contains t container target)
                   | None => true
                   end) allowed.

(** The third argument of [useOutsideClick]. *)
Definition outside_click_enabled (d : Dialog) : bool :=
  bool_decide (dialogState d = DialogStates.Open) && negb (hasNestedDialogs d).

(** The callback of [useOutsideClick]:
    [api.close(); nextTick(() => target?.focus())]. *)
Definition outside_click_callback (target : nat) (d : Dialog) : Dialog :=
  nextTick_focus target (close d).

Definition on_click (t : Tree) (target : nat) (d : Dialog) : Dialog :=
  if outside_click_fires t (resolveAllowedContainers t d)
       (outside_click_enabled d) target
  then outside_click_callback target d
  else d.

(** A keydown event as the Escape handler reads and marks it. *)
Record KeyboardEvent : Type := {
  key : string;
  defaultPrevented : bool;
  propagationStopped : bool;
}.

(** Modelled from the spec: [Keys.Escape] (keyboard.ts is not among the
    sources), the key of an Escape keydown. *)
Definition Keys_Escape : string := "Escape".

(** The keydown listener: the event as it leaves it, and the instance. *)
Definition on_keydown (event : KeyboardEvent) (d : Dialog)
    : KeyboardEvent * Dialog :=
  if defaultPrevented event then (event, d)
  else if negb (String.eqb (key event) Keys_Escape) then (event, d)
  else if negb (bool_decide (dialogState d = DialogStates.Open)) then (event, d)
  else if hasNestedDialogs d then (event, d)
  else
    ({| key := key event; defaultPrevented := true;
        propagationStopped := true |},
     close d).

(** What happens to an instance after setup. *)
Inductive DialogEvent : Type :=
| Mounted
| PropsChanged (p : Props)
| AmbientChanged (s : State.t)
| RefsBound (root main : option nat)
| StackUpdate (message : StackMessage) (type : string) (element : nat)
| TitleMounted (id : option string)
| PanelBound (panel : option nat)
| Keydown (event : KeyboardEvent)
| Click (t : Tree) (target : nat)
| CloseCalled.

Definition dialog_step (e : DialogEvent) (d : Dialog) : Dialog :=
  match e with
  | Mounted => with_ready d
  | PropsChanged p => with_props p d
  | AmbientChanged s =>
      match usesOpenClosedState d with
      | Some _ => with_ambient (Some s) d
      | None => d
      end
  | RefsBound root main => with_refs root main d
  | StackUpdate message type element => onUpdate message type element d
  | TitleMounted id => setTitleId id d
  | PanelBound panel => with_panelRef panel d
  | Keydown event => (on_keydown event d).2
  | Click t target => on_click t target d
  | CloseCalled => close d
  end.

Definition dialog_run (es : list DialogEvent) (d : Dialog) : Dialog :=
  foldl (λ d e, dialog_step e d) d es.

(** *** The scroll lock *)

Inductive StyledNode : Type := DocumentElement | Body.

(** What the registry [d] of the scroll-lock effect holds. *)
Inductive LockCleanup : Type :=
| RestoreStyle (n : StyledNode) (property previous : string)
| RemoveClickListener
| RemoveTouchmoveListener
| RestoreScroll (scrollPosition : Z).

(** The document as the scroll lock reads and writes it, with the registry
    of the effect's current run ([onInvalidate] holds its [dispose]). *)
Record Page : Type := {
  documentElement : HTMLElement;
  body : HTMLElement;
  pageYOffset : Z;
  click_listener : bool;
  touchmove_listener : bool;
  scrollToElement : option nat;
  scrolled_into_view : list nat;
  lock : list LockCleanup;
}.

(** What the effect reads from its surroundings. Modelled from the spec:
    [getOwnerDocument] and [isIOS] (utils/owner and utils/platform are not
    among the sources), as whether there is an owner document at all and
    whether the platform is a touch platform that needs the scroll
    workaround. The rest are the layout's measurements and
    [element.isConnected]. *)
Record Viewport : Type := {
  has_document : bool;
  isIOS : bool;
  innerWidth : Z;
  clientWidth : HTMLElement -> Z;
  offsetWidth : HTMLElement -> Z;
  isConnected : nat -> bool;
}.

Definition styled (n : StyledNode) (p : Page) : HTMLElement :=
  match n with
  | DocumentElement => documentElement p
  | Body => body p
  end.

Definition with_styled (n : StyledNode) (el : HTMLElement) (p : Page) : Page :=
  {| documentElement :=
       match n with DocumentElement => el | Body => documentElement p end;
     body := match n with DocumentElement => body p | Body => el end;
     pageYOffset := pageYOffset p; click_listener := click_listener p;
     touchmove_listener := touchmove_listener p;
     scrollToElement := scrollToElement p;
     scrolled_into_view := scrolled_into_view p; lock := lock p |}.

Definition with_lock (l : list LockCleanup) (p : Page) : Page :=
  {| documentElement := documentElement p; body := body p;
     pageYOffset := pageYOffset p; click_listener := click_listener p;
     touchmove_listener := touchmove_listener p;
     scrollToElement := scrollToElement p;
     scrolled_into_view := scrolled_into_view p; lock := l |}.

(** [window.scrollTo(0, y)]; the page is taken to be long enough. *)
Definition scrollTo (y : Z) (p : Page) : Page :=
  {| documentElement := documentElement p; body := body p;
     pageYOffset := y; click_listener := click_listener p;
     touchmove_listener := touchmove_listener p;
     scrollToElement := scrollToElement p;
     scrolled_into_view := scrolled_into_view p; lock := lock p |}.

Definition with_document_listeners (click touchmove : bool) (p : Page) : Page :=
  {| documentElement := documentElement p; body := body p;
     pageYOffset := pageYOffset p; click_listener := click;
     touchmove_listener := touchmove;
     scrollToElement := scrollToElement p;
     scrolled_into_view := scrolled_into_view p; lock := lock p |}.

Definition with_scrollToElement (target : option nat) (seen : list nat)
    (p : Page) : Page :=
  {| documentElement := documentElement p; body := body p;
     pageYOffset := pageYOffset p; click_listener := click_listener p;
     touchmove_listener := touchmove_listener p;
     scrollToElement := target;
     scrolled_into_view := seen; lock := lock p |}.

Definition assign_style (n : StyledNode) (attribute value : string) (p : Page)
    : Page :=
  with_styled n
    (set_style (styled n p)
       (style_assign (inline_style (styled n p)) attribute value)) p.

(** [style(node, property, value)] of the effect: read the previous value
    with [getPropertyValue], assign the new one, register the cleanup that
    assigns the previous one. *)
Definition style (n : StyledNode) (property value : string) (p : Page) : Page :=
  let previous := getPropertyValue (inline_style (styled n p)) property in
  let p' := assign_style n property value p in
  with_lock (lock p' ++ [RestoreStyle n property previous]) p'.

(** The body of the scroll-lock [watchEffect]. On iOS the two document
    listeners are represented by their registration; the click listener's
    capture of an anchor's target is [on_document_click] below, and every
    run starts with its own [scrollToElement], which is [null]. *)
Definition scroll_lock (v : Viewport) (d : Dialog) (p : Page) : Page :=
  if negb (bool_decide (dialogState d = DialogStates.Open)) then p
  else if hasParentDialog d then p
  else if negb (has_document v) then p
  else
    let scrollPosition := pageYOffset p in
    let scrollbarWidthBefore :=
      (innerWidth v - clientWidth v (documentElement p))%Z in
    let p1 := style DocumentElement "overflow" "hidden" p in
    let p2 :=
      if (0 <? scrollbarWidthBefore)%Z then
        let scrollbarWidthAfter :=
          (clientWidth v (documentElement p1)
           - offsetWidth v (documentElement p1))%Z in
        let scrollbarWidth := (scrollbarWidthBefore - scrollbarWidthAfter)%Z in
        style DocumentElement "paddingRight" (pretty scrollbarWidth +:+ "px") p1
      else p1 in
    if isIOS v then
      let p3 := style Body "marginTop" ("-" +:+ pretty scrollPosition +:+ "px") p2 in
      let p4 := scrollTo 0 p3 in
      let p5 :=
        with_document_listeners true true
          (with_scrollToElement None (scrolled_into_view p4) p4) in
      with_lock
        (lock p5 ++ [RemoveClickListener; RemoveTouchmoveListener;
                     RestoreScroll scrollPosition]) p5
    else p2.

(** [containers.some((container) => container.contains(el))] on what
    [resolveAllowedContainers()] returns: the containers are asked in
    order until one holds the element; the last of them,
    [api.panelRef.value ?? internalDialogRef.value], may be [null], of
    which [contains] cannot be read. *)
Fixpoint some_contains (t : Tree) (el : nat) (containers : list (option nat))
    : Completion bool :=
  match containers with
  | [] => Normal false
  | Some container :: rest =>
      if contains t container el then Normal true
      else some_contains t el rest
  | None :: _ =>
      Throw (TypeError "Cannot read properties of null (reading 'contains')")
  end.

(** The capturing click listener, for a click inside an anchor whose hash
    selects the element [el]: the element is remembered when no allowed
    container holds it; what [some] throws is caught by the listener's
    [try], and nothing is remembered then. *)
Definition on_document_click (t : Tree) (d : Dialog) (el : nat) (p : Page)
    : Page :=
  if click_listener p then
    match some_contains t el (resolveAllowedContainers t d) with
    | Normal false => with_scrollToElement (Some el) (scrolled_into_view p) p
    | Normal true => p
    | Throw _ => p
    end
  else p.

Definition run_lock_cleanup (v : Viewport) (c : LockCleanup) (p : Page) : Page :=
  match c with
  | RestoreStyle n property previous => assign_style n property previous p
  | RemoveClickListener =>
      with_document_listeners false (touchmove_listener p) p
  | RemoveTouchmoveListener =>
      with_document_listeners (click_listener p) false p
  | RestoreScroll scrollPosition =>
      let p' := scrollTo (pageYOffset p + scrollPosition) p in
      match scrollToElement p' with
      | Some el =>
          if isConnected v el then
            with_scrollToElement None (scrolled_into_view p' ++ [el]) p'
          else p'
      | None => p'
      end
  end.

(** [d.dispose] of the effect's registry, which [onInvalidate] calls when
    the effect is about to run again and when the component is unmounted:
    the cleanups run in reverse order (the registry modelled from the spec,
    as for the transition). *)
Definition unlock (v : Viewport) (p : Page) : Page :=
  foldl (λ p c, run_lock_cleanup v c p) (with_lock [] p) (rev (lock p)).

(** A Dialog and the page it is on. *)
Record App : Type := {
  dialog : Dialog;
  page : Page;
}.

Inductive AppEvent : Type :=
| Component (e : DialogEvent)
| DocumentClick (t : Tree) (el : nat)
| Unmounted.

(** Modelled from the spec: the effect's reactivity (Vue's [watchEffect] is
    not among the sources), as a setup and teardown pair keyed to the
    change of [dialogState]: when an event changes [dialogState], the
    previous run is invalidated and the effect runs again; unmounting
    invalidates the last run. *)
Definition app_step (v : Viewport) (e : AppEvent) (a : App) : App :=
  match e with
  | Component ev =>
      let d' := dialog_step ev (dialog a) in
      if decide (dialogState d' = dialogState (dialog a)) then
        {| dialog := d'; page := page a |}
      else {| dialog := d'; page := scroll_lock v d' (unlock v (page a)) |}
  | DocumentClick t el =>
      {| dialog := dialog a;
         page := on_document_click t (dialog a) el (page a) |}
  | Unmounted => {| dialog := dialog a; page := unlock v (page a) |}
  end.

Definition app_run (v : Viewport) (es : list AppEvent) (a : App) : App :=
  foldl (λ a e, app_step v e a) a es.

(** ** Closed forms used by the statements below *)

(** The element after [classList.add(...tokens)] and after
    [classList.remove(...tokens)], for tokens that pass the check. *)
Definition add_tokens (el : HTMLElement) (tokens : list string) : HTMLElement :=
  set_classList el (foldl token_append (classList el) tokens).

Definition remove_tokens (el : HTMLElement) (tokens : list string)
    : HTMLElement :=
  set_classList el (filter (λ t, t ∉ tokens) (classList el)).

(** The numbers one computed value lists, in milliseconds: what
    [resolvedValue] sorts. *)
Definition milliseconds (value : string) : list Number :=
  map to_milliseconds (List.filter string_truthy (split "," value)).

(** The real number a finite double stands for. *)
Definition finite_value (s : bool) (m : positive) (e : Z) : Q :=
  inject_Z (cond_Zopp s (Zpos m)) * (2 # 1) ^ e.

(** A number that is not [NaN], on the extended real line. *)
Inductive Extended : Type :=
| MinusInfinity
| Real (q : Q)
| PlusInfinity.

Definition extended (x : Number) : Extended :=
  match x with
  | S754_infinity true => MinusInfinity
  | S754_infinity false => PlusInfinity
  | S754_finite s m e => Real (finite_value s m e)
  | S754_zero _ | S754_nan => Real 0
  end.

Definition extended_le (a b : Extended) : Prop :=
  match a, b with
  | MinusInfinity, _ => True
  | _, PlusInfinity => True
  | Real p, Real q => (p <= q)%Q
  | _, _ => False
  end.

(** [x <= y] as numbers: neither is [NaN], and the value of [x] is at most
    that of [y]. *)
Definition number_le (x y : Number) : Prop :=
  x ≠ NaN ∧ y ≠ NaN ∧ extended_le (extended x) (extended y).

(** A finite double's exponent is not below the least exponent of the
    format. *)
Definition above_emin (x : Number) : Prop :=
  match x with
  | S754_finite _ _ e => (emin binary64_prec binary64_emax <= e)%Z
  | _ => True
  end.


(** [r] is what the spec asks of the resolved value of [values]: 0 for no
    value at all, otherwise one of the values and no smaller than any. *)
Definition largest_or_zero (r : Number) (values : list Number) : Prop :=
  (values = [] ∧ r = Num 0)
  ∨ (r ∈ values ∧ ∀ x, x ∈ values → number_le x r).

(** The element as [transition] leaves it when it returns, as the
    animation-frame callback restyles it, and as the finish callback leaves
    it. *)
Definition unhidden (c : Call) (el : HTMLElement) : HTMLElement :=
  match direction c with
  | dir_enter =>
      set_style (removeAttribute el "hidden")
        (style_assign (inline_style (removeAttribute el "hidden")) "display" "")
  | dir_leave => el
  end.

Definition started (c : Call) (el : HTMLElement) : HTMLElement :=
  add_tokens (remove_tokens (unhidden c el) (all_classes (classes c)))
    (base c ++ from c).

Definition restyled (c : Call) (el : HTMLElement) : HTMLElement :=
  add_tokens (remove_tokens (started c el) (from c)) (to c).

Definition finished (c : Call) (el : HTMLElement) : HTMLElement :=
  add_tokens (remove_tokens (restyled c el) (base c)) (entered (classes c)).

(** The worlds of a transition on an element whose tokens all pass the
    check: when [transition] has returned; after the animation frame when a
    timer or a listener waits for the end; when the finish callback has
    run. *)
Definition world_started (c : Call) (el : HTMLElement) : World :=
  {| node := Some (started c el); frames := [NextFrameCallback]; timers := [];
     listeners := []; d_transition := [CancelFrame]; d_wait := [];
     called := false; done_calls := 0; uncaught := [] |}.

Definition frame_total (env : Browser) (c : Call) (el : HTMLElement) : Number :=
  totalDuration (getComputedStyle env (restyled c el)).

Definition world_waiting (env : Browser) (c : Call) (el : HTMLElement)
    : World :=
  if String.eqb (NODE_ENV env) "test" then
    {| node := Some (restyled c el); frames := [];
       timers := [(TimeoutCallback, frame_total env c el)];
       listeners := []; d_transition := [CancelFrame];
       d_wait := [ClearTimeout; CallDone];
       called := false; done_calls := 0; uncaught := [] |}
  else
    {| node := Some (restyled c el); frames := []; timers := [];
       listeners := [TransitionEndListener]; d_transition := [CancelFrame];
       d_wait := [RemoveListener; CallDone];
       called := false; done_calls := 0; uncaught := [] |}.

Definition world_finished (c : Call) (el : HTMLElement) : World :=
  {| node := Some (finished c el); frames := []; timers := [];
     listeners := []; d_transition := [CancelFrame]; d_wait := [CallDone];
     called := done c; done_calls := if done c then 1 else 0;
     uncaught := [] |}.

(** ** Predicates and closed forms used by the proofs *)

(** A property of the flag of [once] and the count of calls. *)
Definition once_state (P : bool → nat → Prop) (w : World) : Prop :=
  P (called w) (done_calls w).

Definition keeps (P : bool → nat → Prop) {A : Type} (m : M A) : Prop :=
  ∀ w, once_state P w → once_state P (m w).2.

(** The flag and the count go together. *)
Definition once_consistent (cl : bool) (n : nat) : Prop :=
  n = if cl then 1 else 0.

(** The callback has run, once. *)
Definition once_done_already (cl : bool) (n : nat) : Prop :=
  cl = true ∧ n = 1.

(** Nothing has been armed but, at most, the animation-frame callback. *)
Definition fresh (w : World) : Prop :=
  timers w = [] ∧ listeners w = [] ∧ d_wait w = [] ∧ called w = false
  ∧ done_calls w = 0
  ∧ ((frames w = [] ∧ d_transition w = [])
     ∨ (frames w = [NextFrameCallback] ∧ d_transition w = [CancelFrame])).

(** Nothing is armed, and the callback has not run. *)
Definition idle (w : World) : Prop :=
  frames w = [] ∧ timers w = [] ∧ listeners w = [] ∧ d_transition w = []
  ∧ done_calls w = 0.

(** A transition on no node: nothing is armed but the animation-frame
    callback, nothing has run, nothing was thrown. *)
Definition null_quiet (w : World) : Prop :=
  node w = None ∧ timers w = [] ∧ listeners w = [] ∧ d_wait w = []
  ∧ done_calls w = 0 ∧ uncaught w = []
  ∧ (frames w = [] ∨ frames w = [NextFrameCallback])
  ∧ (d_transition w = [] ∨ d_transition w = [CancelFrame]).

(** The head of the sorted list is an element no smaller than any other. *)
Definition head_is_largest (sorted l : list Number) : Prop :=
  match sorted with
  | [] => l = []
  | first :: _ => first ∈ l ∧ ∀ x, x ∈ l → number_le x first
  end.

(** What a cleanup does to the document root. *)
Definition root_after (c : LockCleanup) (root : HTMLElement) : HTMLElement :=
  match c with
  | RestoreStyle DocumentElement property previous =>
      set_style root (style_assign (inline_style root) property previous)
  | _ => root
  end.

(** The document root and the registry when the effect has run. *)
Definition root_hidden (root : HTMLElement) : HTMLElement :=
  set_style root (style_assign (inline_style root) "overflow" "hidden").

Definition scrollbar_before (v : Viewport) (root : HTMLElement) : Z :=
  innerWidth v - clientWidth v root.

Definition root_padded (v : Viewport) (root : HTMLElement) : HTMLElement :=
  set_style (root_hidden root)
    (style_assign (inline_style (root_hidden root)) "paddingRight"
       (pretty (scrollbar_before v root
                - (clientWidth v (root_hidden root)
                   - offsetWidth v (root_hidden root)))%Z +:+ "px")).

Definition root_locked (v : Viewport) (root : HTMLElement) : HTMLElement :=
  if (0 <? scrollbar_before v root)%Z then root_padded v root
  else root_hidden root.

Definition root_restores (v : Viewport) (root : HTMLElement)
    : list LockCleanup :=
  RestoreStyle DocumentElement "overflow"
    (getPropertyValue (inline_style root) "overflow")
  :: if (0 <? scrollbar_before v root)%Z then
       [RestoreStyle DocumentElement "paddingRight"
          (getPropertyValue (inline_style (root_hidden root)) "paddingRight")]
     else [].

Definition lock_runs (v : Viewport) (d : Dialog) : bool :=
  bool_decide (dialogState d = DialogStates.Open)
  && negb (hasParentDialog d) && has_document v.

(** ** Computed time lists as a browser serialises them *)

(** One [<time>] value: an optional minus sign, integer digits, fraction
    digits (none: no decimal point), and the unit [s] or [ms]. *)
Record TimeValue : Type := {
  time_negative : bool;
  time_integer : list nat;
  time_fraction : list nat;
  time_in_ms : bool;
}.

Definition time_well_formed (t : TimeValue) : Prop :=
  Forall (λ d, d < 10) (time_integer t)
  ∧ Forall (λ d, d < 10) (time_fraction t)
  ∧ (time_integer t ≠ [] ∨ time_fraction t ≠ []).

Definition digit_char (d : nat) : ascii := ascii_of_nat (48 + d).

Fixpoint digits_string (ds : list nat) : string :=
  match ds with
  | [] => EmptyString
  | d :: rest => String (digit_char d) (digits_string rest)
  end.

Fixpoint digits_value (acc : Z) (ds : list nat) : Z :=
  match ds with
  | [] => acc
  | d :: rest => digits_value (10 * acc + Z.of_nat d) rest
  end.

Definition render_time (t : TimeValue) : string :=
  (if time_negative t then "-" else "")
  +:+ digits_string (time_integer t)
  +:+ match time_fraction t with
      | [] => ""
      | _ :: _ => String "." (digits_string (time_fraction t))
      end
  +:+ (if time_in_ms t then "ms" else "s").

(** The list as [getComputedStyle] gives it: the values separated by a comma
    and a space. *)
Fixpoint render_times (ts : list TimeValue) : string :=
  match ts with
  | [] => EmptyString
  | [t] => render_time t
  | t :: rest => render_time t +:+ ", " +:+ render_times rest
  end.

(** The number the digits spell, with its sign: the double nearest to the
    decimal fraction; and what the value amounts to in milliseconds, a
    value in seconds being multiplied by 1000 as doubles are. *)
Definition time_number (t : TimeValue) : Number :=
  let magnitude :=
    Num (Qmake (digits_value 0 (time_integer t ++ time_fraction t))
               (Z.to_pos (10 ^ Z.of_nat (length (time_fraction t))))) in
  if time_negative t then number_neg magnitude else magnitude.

Definition time_milliseconds (t : TimeValue) : Number :=
  if time_in_ms t then time_number t
  else number_mul (time_number t) (Num 1000).

(** [s] holds the character [c]. *)
Fixpoint string_has (c : ascii) (s : string) : bool :=
  match s with
  | EmptyString => false
  | String c' rest => ascii_eqb c' c || string_has c rest
  end.

(** [r] is the largest of the values, or 0 when there is none. *)
Definition largest_time_or_zero (r : Number) (ts : list TimeValue) : Prop :=
  (ts = [] ∧ r = Num 0)
  ∨ ((∃ t, t ∈ ts ∧ r = time_milliseconds t)
     ∧ ∀ t, t ∈ ts → number_le (time_milliseconds t) r).

Definition sample_durations : list TimeValue :=
  [ {| time_negative := false; time_integer := [0]; time_fraction := [3];
       time_in_ms := false |};
    {| time_negative := false; time_integer := [7; 5]; time_fraction := [];
       time_in_ms := true |} ].

(** A string that does not go on with a digit. *)
Definition no_digit_ahead (s : string) : Prop :=
  match s with
  | EmptyString => True
  | String c _ => digit_of_ascii c = None
  end.

(** The parts of a rendered value after its sign. *)
Definition fraction_and_unit t : string :=
  match time_fraction t with
  | [] => EmptyString
  | _ :: _ => String "." (digits_string (time_fraction t))
  end +:+ (if time_in_ms t then "ms" else "s").

(** ** Sample inputs *)

Definition sample_classes : TransitionClasses :=
  {| enter := ["transition"; "duration-300"]; enterFrom := ["opacity-0"];
     enterTo := ["opacity-100"]; leave := ["transition"; "duration-200"];
     leaveFrom := ["opacity-100"]; leaveTo := ["opacity-0"];
     entered := ["shown"] |}.

Definition sample_element : HTMLElement :=
  {| classList := ["box"; "opacity-0"];
     attributes := {[ "hidden" := EmptyString ]};
     inline_style := {[ "display" := "none" ]} |}.

(** A style sheet in which [duration-300] and [duration-200] declare a
    transition, with the build's [NODE_ENV]. *)
Definition sample_style (el : HTMLElement) : ComputedStyle :=
  if decide ("duration-300" ∈ classList el) then
    {| transitionDuration := "0.3s, 0.15s"; transitionDelay := "0s, 75ms" |}
  else if decide ("duration-200" ∈ classList el) then
    {| transitionDuration := "0.2s"; transitionDelay := "0s" |}
  else {| transitionDuration := "0s"; transitionDelay := "0s" |}.

Definition sample_browser : Browser :=
  {| NODE_ENV := "production"; getComputedStyle := sample_style |}.

Definition sample_call : Call :=
  {| classes := sample_classes; show := true; done := true |}.

(** Classes that declare no transition under [sample_style]. *)
Definition plain_classes : TransitionClasses :=
  {| enter := ["block"]; enterFrom := ["opacity-0"]; enterTo := ["opacity-100"];
     leave := ["block"]; leaveFrom := ["opacity-100"]; leaveTo := ["opacity-0"];
     entered := [] |}.

Definition sample_dialog : Dialog :=
  {| props := {| props_open := VBoolean true |}; usesOpenClosedState := None;
     hasParentDialog := false; ready := false; nestedDialogCount := 0;
     containers := []; internalDialogRef := None; mainTreeNode := None;
     titleId := None; panelRef := None; emitted := [];
     focus_on_nextTick := [] |}.

(** A document root that already carries an inline [padding-right], on a
    desktop browser whose scrollbar is 15 pixels wide and goes away once
    [overflow] is [hidden]. *)
Definition sample_root : HTMLElement :=
  {| classList := []; attributes := ∅;
     inline_style := {[ "padding-right" := "10px" ]} |}.

Definition sample_page : Page :=
  {| documentElement := sample_root;
     body := {| classList := []; attributes := ∅; inline_style := ∅ |};
     pageYOffset := 120; click_listener := false; touchmove_listener := false;
     scrollToElement := None; scrolled_into_view := []; lock := [] |}.

Definition sample_viewport : Viewport :=
  {| has_document := true; isIOS := false; innerWidth := 1024;
     clientWidth := λ el,
       if decide (inline_style el !! "overflow" = Some "hidden")
       then 1024%Z else 1009%Z;
     offsetWidth := λ _, 1024%Z;
     isConnected := λ _, true |}.

Definition sample_app : App :=
  {| dialog := sample_dialog; page := sample_page |}.

(** Runs the monadic code and the record updates of a goal, leaving the
    helpers, the token lists and the styles as they are. *)
Ltac exec :=
  cbv [mbind M_bind mret M_ret modify on_node unhide initial_world
       d_nextFrame d_setTimeout d_addEventListener d_add d_dispose dispose_one
       registry with_registry run_cleanups run_cleanup
       with_node with_frames with_timers with_listeners with_d_transition
       with_d_wait with_done_called with_uncaught
       node frames timers listeners d_transition d_wait called done_calls
       uncaught fst snd negb].

(** The ten cases of a decimal digit. *)
Ltac digit_cases d :=
  destruct d as [|[|[|[|[|[|[|[|[|[|more]]]]]]]]]]; [..|exfalso; lia].

(** ** The sub-components of the Dialog and its remaining handlers *)

(** The message of [useDialogContext]'s Error. *)
Definition missing_parent (component : string) : string :=
  "<" +:+ component +:+ " /> is missing a parent <Dialog /> component.".

(** [useDialogContext(component)]: [inject(DialogContext, null)] is the api
    object of the nearest Dialog above, or [null]. The api object is
    represented by the Dialog instance it reads and calls. *)
Definition useDialogContext (context : option Dialog) (component : string)
    : Completion Dialog :=
  match context with
  | None => Throw (Error (missing_parent component))
  | Some api => Normal api
  end.

(** A click event as the handlers of the sub-components read and mark it. *)
Module MouseEvent.
Record t : Type := {
  target : nat;
  currentTarget : nat;
  defaultPrevented : bool;
  propagationStopped : bool;
}.

Definition preventDefault (event : t) : t :=
  {| target := target event; currentTarget := currentTarget event;
     defaultPrevented := true;
     propagationStopped := propagationStopped event |}.

Definition stopPropagation (event : t) : t :=
  {| target := target event; currentTarget := currentTarget event;
     defaultPrevented := defaultPrevented event;
     propagationStopped := true |}.
End MouseEvent.


Module DialogOverlay.
Definition setup (context : option Dialog) : Completion Dialog :=
  useDialogContext context "DialogOverlay".

(** [handleClick(event)]: the event as the handler leaves it, and the
    Dialog. *)
Definition handleClick (event : MouseEvent.t) (api : Dialog)
    : MouseEvent.t * Dialog :=
  if negb (MouseEvent.target event =? MouseEvent.currentTarget event)%nat
  then (event, api)
  else (MouseEvent.stopPropagation (MouseEvent.preventDefault event),
        close api).
End DialogOverlay.

Module DialogBackdrop.
Definition setup (context : option Dialog) : Completion Dialog :=
  useDialogContext context "DialogBackdrop".

Definition missing_panel : string :=
  "A <DialogBackdrop /> component is being used, but a <DialogPanel /> component is missing.".

(** The mounted hook. *)
Definition onMounted (api : Dialog) : Completion unit :=
  match panelRef api with
  | None => Throw (Error missing_panel)
  | Some _ => Normal tt
  end.
End DialogBackdrop.

Module DialogPanel.
Definition setup (context : option Dialog) : Completion Dialog :=
  useDialogContext context "DialogPanel".

Definition handleClick (event : MouseEvent.t) : MouseEvent.t :=
  MouseEvent.stopPropagation event.
End DialogPanel.

Module DialogTitle.
Definition setup (context : option Dialog) : Completion Dialog :=
  useDialogContext context "DialogTitle".

(** The mounted hook, [api.setTitleId(props.id)], and the unmounted hook it
    registers, [api.setTitleId(null)]. *)
Definition onMounted (id : string) (api : Dialog) : Dialog :=
  setTitleId (Some id) api.

Definition onUnmounted (api : Dialog) : Dialog :=
  setTitleId None api.
End DialogTitle.

(** [entry.boundingClientRect] of an IntersectionObserver entry. *)
Module DOMRect.
Record t : Type := {
  x : Number;
  y : Number;
  width : Number;
  height : Number;
}.
End DOMRect.

(** [a === b] on numbers. *)
Definition number_strict_eq (a b : Number) : bool :=
  negb (number_strict_ne a b).

(** The test the observer's callback applies to an entry. *)
Definition is_collapsed (rect : DOMRect.t) : bool :=
  number_strict_eq (DOMRect.x rect) (Num 0)
  && number_strict_eq (DOMRect.y rect) (Num 0)
  && number_strict_eq (DOMRect.width rect) (Num 0)
  && number_strict_eq (DOMRect.height rect) (Num 0).

(** The callback of the IntersectionObserver:
    [for (let entry of entries) if (...) api.close()]. *)
Definition intersection_callback (entries : list DOMRect.t) (api : Dialog)
    : Dialog :=
  foldl (λ d rect, if is_collapsed rect then close d else d) api entries.

(** The effect that creates the observer returns before it does so unless
    the Dialog is open and its root element is bound; its invalidation
    disconnects the observer. So entries are delivered only while both
    hold. *)
Definition observing (d : Dialog) : bool :=
  bool_decide (dialogState d = DialogStates.Open)
  && match internalDialogRef d with Some _ => true | None => false end.

Definition on_intersection (entries : list DOMRect.t) (d : Dialog) : Dialog :=
  if observing d then intersection_callback entries d else d.

(** The touchmove listener of the scroll lock, registered on iOS while the
    lock is held: whether it calls [e.preventDefault()] for a touch on the
    element [target], or what it throws. *)
Definition on_touchmove (t : Tree) (d : Dialog) (target : nat) (p : Page)
    : Completion bool :=
  if touchmove_listener p then
    match some_contains t target (resolveAllowedContainers t d) with
    | Normal inside => Normal (negb inside)
    | Throw e => Throw e
    end
  else Normal false.

(** Modelled from the spec: the feature masks of the focus trap
    (components/focus-trap is not among the sources), four numbers. *)
Record FocusTrapFeatures : Type := {
  features_None : Z;
  features_RestoreFocus : Z;
  features_FocusLock : Z;
  features_All : Z;
}.

(** The 32-bit integer a bitwise operator reads from a number, and the
    operators [a & b] and [~a]. *)
Definition to_int32 (z : Z) : Z := (z + 2 ^ 31) mod 2 ^ 32 - 2 ^ 31.

Definition bitwise_and (a b : Z) : Z :=
  to_int32 (Z.land (to_int32 a) (to_int32 b)).

Definition bitwise_not (a : Z) : Z := to_int32 (Z.lnot (to_int32 a)).

(** What the render function of the Dialog computes from the instance: the
    props it sets itself, the slot, [visible], and the features handed to
    the focus trap. An [undefined] prop is [None]. *)
Record Rendered : Type := {
  rendered_role : string;
  aria_modal : option bool;
  aria_labelledby : option string;
  rendered_slot_open : bool;
  visible : bool;
  focus_trap_features : Z;
}.

Definition render_dialog (F : FocusTrapFeatures) (d : Dialog) : Rendered :=
  {| rendered_role := "dialog";
     aria_modal :=
       if bool_decide (dialogState d = DialogStates.Open) then Some true
       else None;
     aria_labelledby := titleId d;
     rendered_slot_open := bool_decide (dialogState d = DialogStates.Open);
     visible := bool_decide (dialogState d = DialogStates.Open);
     focus_trap_features :=
       if enabled d then
         match position d with
         | parent => features_RestoreFocus F
         | leaf =>
             bitwise_and (features_All F) (bitwise_not (features_FocusLock F))
         end
       else features_None F |}.

(** What happens to a Dialog with its sub-components: the events of the
    instance itself, a click on the overlay, the mounting and unmounting of
    a title, a delivery of the intersection observer. *)
Inductive FamilyEvent : Type :=
| OfDialog (e : DialogEvent)
| OverlayClick (event : MouseEvent.t)
| TitleMount (id : string)
| TitleUnmount
| Intersection (entries : list DOMRect.t).

Definition family_step (e : FamilyEvent) (d : Dialog) : Dialog :=
  match e with
  | OfDialog e => dialog_step e d
  | OverlayClick event => (DialogOverlay.handleClick event d).2
  | TitleMount id => DialogTitle.onMounted id d
  | TitleUnmount => DialogTitle.onUnmounted d
  | Intersection entries => on_intersection entries d
  end.

Definition family_run (es : list FamilyEvent) (d : Dialog) : Dialog :=
  foldl (λ d e, family_step e d) d es.

(** ** Further predicates and closed forms *)

(** A property of the element of a call, and the code that keeps one. *)
Definition node_state (I : HTMLElement → Prop) (w : World) : Prop :=
  ∃ el, node w = Some el ∧ I el.

(** A property of the world that its code keeps. *)
Definition stable (I : World → Prop) {A : Type} (m : M A) : Prop :=
  ∀ w, I w → I (m w).2.

(** A transitionend event that came up from a descendant. *)
Definition bubbled (event : TransitionEvent) : Prop :=
  target event ≠ currentTarget event.

(** How a stack message changes the count of nested Dialogs. *)
Definition stack_delta (e : DialogEvent) : Z :=
  match e with
  | StackUpdate Add type _ => if String.eqb type "Dialog" then 1 else 0
  | StackUpdate Remove type _ => if String.eqb type "Dialog" then -1 else 0
  | _ => 0
  end.

(** The ['close'] event with its payload. *)
Definition close_event : string * JsValue := ("close"%string, VBoolean false).

(** Whether an event is about the title. *)
Definition about_title (e : FamilyEvent) : bool :=
  match e with
  | TitleMount _ | TitleUnmount | OfDialog (TitleMounted _) => true
  | _ => false
  end.

(** A page the scroll lock holds nothing of. *)
Definition unlocked (p : Page) : Prop :=
  lock p = [] ∧ click_listener p = false ∧ touchmove_listener p = false.

(** [api.panelRef.value ?? internalDialogRef.value]. *)
Definition own_container (d : Dialog) : option nat :=
  match panelRef d with
  | Some panel => Some panel
  | None => internalDialogRef d
  end.

(** The element [target] lies in none of the allowed containers: not in
    the panel (the root element, when there is no panel), and in no
    element of [body > *, [data-headlessui-portal]] but those that hold
    the main tree node or the panel. *)
Definition outside (t : Tree) (d : Dialog) (target : nat) : Prop :=
  (∀ el, own_container d = Some el → contains t el target = false)
  ∧ (∀ c, c ∈ root_candidates t → contains t c target = true →
          contains_ref t c (mainTreeNode d) = true
          ∨ contains_ref t c (panelRef d) = true).

(** One call after another: the second is made with what the first
    returned, and not at all when the first threw. *)
Definition and_then {A B : Type} (first : Completion A)
    (second : A → Completion B) : Completion B :=
  match first with
  | Normal a => second a
  | Throw e => Throw e
  end.

(** The registry of [transition] holds nothing, and then no frame is
    pending, or the cancellation of the frame. *)
Definition frame_registered (w : World) : Prop :=
  (d_transition w = [] ∧ frames w = []) ∨ d_transition w = [CancelFrame].

(** A transition that has ended: nothing is armed, and the element is
    [el']. *)
Definition ended (el' : HTMLElement) (calls : nat) (w : World) : Prop :=
  node w = Some el' ∧ frames w = [] ∧ timers w = [] ∧ listeners w = []
  ∧ done_calls w = calls ∧ uncaught w = []
  ∧ (d_transition w = [] ∨ d_transition w = [CancelFrame]).

(** The sum of the changes a sequence of events makes to the count. *)
Definition stack_total (es : list DialogEvent) : Z :=
  foldr Z.add 0%Z (map stack_delta es).

(** A document in which the elements numbered from [c] to [c + 9] lie
    inside the element [c]; the main application is the element 10, a
    portal is the element 20. *)
Definition sample_tree : Tree :=
  {| root_candidates := [10; 20];
     contains := λ container el,
       ((container <=? el) && (el <? container + 10))%nat |}.

(** The sample Dialog, mounted, with its root in the portal, its main tree
    node in the application and a panel. *)
Definition sample_open_dialog : Dialog :=
  dialog_run [Mounted; RefsBound (Some 20) (Some 11); PanelBound (Some 22)]
    sample_dialog.

(** What a cleanup of the scroll lock does to the scroll position, to the
    two document listeners and to the body. *)
Definition scroll_after (c : LockCleanup) (y : Z) : Z :=
  match c with
  | RestoreScroll scrollPosition => (y + scrollPosition)%Z
  | _ => y
  end.

Definition click_after (c : LockCleanup) (registered : bool) : bool :=
  match c with
  | RemoveClickListener => false
  | _ => registered
  end.

Definition touchmove_after (c : LockCleanup) (registered : bool) : bool :=
  match c with
  | RemoveTouchmoveListener => false
  | _ => registered
  end.

Definition body_after (c : LockCleanup) (el : HTMLElement) : HTMLElement :=
  match c with
  | RestoreStyle Body property previous =>
      set_style el (style_assign (inline_style el) property previous)
  | _ => el
  end.

(** The body while the lock is held on iOS. *)
Definition body_locked (p : Page) : HTMLElement :=
  set_style (body p)
    (style_assign (inline_style (body p)) "marginTop"
       ("-" +:+ pretty (pageYOffset p) +:+ "px")).

(** What the scroll lock registers when it runs on the page [p], in the
    order of registration. *)
Definition lock_registered (v : Viewport) (p : Page) : list LockCleanup :=
  root_restores v (documentElement p)
  ++ if isIOS v then
       [RestoreStyle Body "marginTop"
          (getPropertyValue (inline_style (body p)) "marginTop");
        RemoveClickListener; RemoveTouchmoveListener;
        RestoreScroll (pageYOffset p)]
     else [].

(** The page while the lock is held. *)
Definition page_locked (v : Viewport) (p : Page) : Page :=
  {| documentElement := root_locked v (documentElement p);
     body := if isIOS v then body_locked p else body p;
     pageYOffset := if isIOS v then 0%Z else pageYOffset p;
     click_listener := if isIOS v then true else click_listener p;
     touchmove_listener := if isIOS v then true else touchmove_listener p;
     scrollToElement := if isIOS v then None else scrollToElement p;
     scrolled_into_view := scrolled_into_view p;
     lock := lock p ++ lock_registered v p |}.

(** A page that the scroll lock has let go of, with the [overflow] of its
    root. *)
Definition released (overflow : string) (p : Page) : Prop :=
  unlocked p
  ∧ getPropertyValue (inline_style (documentElement p)) "overflow" = overflow.

(** The cleanup that restores the scroll position, which is also the one
    that scrolls a remembered element into view. *)
Definition restores_scroll (c : LockCleanup) : bool :=
  match c with
  | RestoreScroll _ => true
  | _ => false
  end.

(** An iOS browser: no scrollbar takes up room, and every element is
    connected. *)
Definition sample_ios_viewport : Viewport :=
  {| has_document := true; isIOS := true; innerWidth := 390;
     clientWidth := λ _, 390%Z; offsetWidth := λ _, 390%Z;
     isConnected := λ _, true |}.

(** A page scrolled to 120 whose body carries an inline [margin-top]. *)
Definition sample_ios_page : Page :=
  {| documentElement := {| classList := []; attributes := ∅;
                           inline_style := ∅ |};
     body := {| classList := []; attributes := ∅;
                inline_style := {[ "margin-top" := "8px" ]} |};
     pageYOffset := 120; click_listener := false; touchmove_listener := false;
     scrollToElement := None; scrolled_into_view := []; lock := [] |}.

(** * Proofs *)

(** ** Numbers: rounding *)

Section rounding.
Variables prec emax : Z.
Hypothesis prec_positive : (0 < prec)%Z.

Local Abbreviation fexp := (fexp prec emax).
Local Abbreviation emin := (emin prec emax).

Lemma fexp_above_emin k : (emin <= fexp k)%Z.
Proof. unfold SpecFloat.fexp. lia. Qed.

Lemma digits2_pos_size p : digits2_pos p = Pos.size p.
Proof. induction p as [p IH|p IH|]; simpl; by rewrite ?IH. Qed.

Lemma Zdigits2_log2 p : Zdigits2 (Zpos p) = (Z.log2 (Zpos p) + 1)%Z.
Proof.
  unfold Zdigits2. rewrite digits2_pos_size.
  destruct p; simpl; lia.
Qed.

Lemma shr_1_m mrs :
  (0 <= shr_m mrs)%Z →
  shr_m (shr_1 mrs) = Z.shiftr (shr_m mrs) 1 ∧ (0 <= shr_m (shr_1 mrs))%Z.
Proof.
  destruct mrs as [m r s]. cbn [shr_m]. intros Hm.
  rewrite <- Z.div2_spec.
  destruct m as [|[p|p|]|p]; cbn; try lia.
Qed.

Lemma iter_pos_shr_1 p mrs :
  (0 <= shr_m mrs)%Z →
  shr_m (SpecFloat.iter_pos shr_1 p mrs) = Z.shiftr (shr_m mrs) (Zpos p).
Proof.
  revert mrs. induction p as [p IH|p IH|]; intros mrs Hm; cbn [SpecFloat.iter_pos].
  - destruct (shr_1_m mrs Hm) as [H1 H1'].
    rewrite IH; [|rewrite IH by done; by apply Z.shiftr_nonneg; lia].
    rewrite IH by done. rewrite H1, !Z.shiftr_shiftr by lia.
    f_equal. lia.
  - rewrite IH; [|rewrite IH by done; by apply Z.shiftr_nonneg].
    rewrite IH by done. rewrite Z.shiftr_shiftr by lia. f_equal. lia.
  - by apply shr_1_m.
Qed.

Lemma shr_record_of_loc_m m l : shr_m (shr_record_of_loc m l) = m.
Proof. by destruct l as [|[]]. Qed.

(** After [shr_fexp], the exponent is not below the least exponent. *)
Lemma shr_fexp_exponent m e l :
  (emin <= (shr_fexp prec emax m e l).2)%Z.
Proof.
  unfold shr_fexp, shr.
  pose proof (fexp_above_emin (Zdigits2 m + e)).
  destruct (fexp (Zdigits2 m + e) - e)%Z eqn:Hn; cbn [snd]; lia.
Qed.

(** [shr_fexp] keeps a mantissa that is not negative so. *)
Lemma shr_fexp_nonneg m e l :
  (0 <= m)%Z → (0 <= shr_m (shr_fexp prec emax m e l).1)%Z.
Proof.
  intros Hm. unfold shr_fexp, shr.
  destruct (fexp (Zdigits2 m + e) - e)%Z eqn:Hn; cbn [fst];
    rewrite ?iter_pos_shr_1; rewrite ?shr_record_of_loc_m; try done.
  by apply Z.shiftr_nonneg.
Qed.

(** [shr_fexp] keeps a positive mantissa positive when the exponent is not
    below the least exponent: it drops fewer bits than the mantissa has. *)
Lemma shr_fexp_positive m e l :
  (0 < m)%Z → (emin <= e)%Z → (0 < shr_m (shr_fexp prec emax m e l).1)%Z.
Proof.
  intros Hm He. unfold shr_fexp, shr.
  destruct (fexp (Zdigits2 m + e) - e)%Z as [|n|n] eqn:Hn; cbn [fst];
    rewrite ?shr_record_of_loc_m; try done.
  rewrite iter_pos_shr_1 by (rewrite shr_record_of_loc_m; lia).
  rewrite shr_record_of_loc_m.
  assert (0 <= Z.shiftr m (Z.pos n))%Z by (apply Z.shiftr_nonneg; lia).
  assert (Z.shiftr m (Z.pos n) ≠ 0%Z); [|lia].
  rewrite Z.shiftr_eq_0_iff. intros [->|[_ Hlog]]; [lia|].
  destruct m as [|p|p]; try lia.
  rewrite Zdigits2_log2 in Hn. unfold SpecFloat.fexp in Hn. lia.
Qed.

Lemma round_nearest_even_ge m l : (m <= round_nearest_even m l)%Z.
Proof.
  destruct l as [|[]]; cbn; try lia. destruct (Z.even m); lia.
Qed.

(** What [binary_round_aux] can give: the sign is the one asked for. *)
Lemma binary_round_aux_sign s m e l :
  match binary_round_aux prec emax s m e l with
  | S754_zero s' | S754_infinity s' | S754_finite s' _ _ => s' = s
  | S754_nan => True
  end.
Proof.
  unfold binary_round_aux.
  destruct (shr_fexp prec emax m e l) as [mrs' e'].
  destruct (shr_fexp prec emax _ e' loc_Exact) as [mrs'' e''].
  destruct (shr_m mrs''); try done. by destruct (e'' <=? emax - prec)%Z.
Qed.

Lemma binary_round_aux_exponent s m e l s' m' e' :
  binary_round_aux prec emax s m e l = S754_finite s' m' e' → (emin <= e')%Z.
Proof.
  unfold binary_round_aux.
  destruct (shr_fexp prec emax m e l) as [mrs1 e1].
  pose proof (shr_fexp_exponent
    (round_nearest_even (shr_m mrs1) (loc_of_shr_record mrs1)) e1 loc_Exact)
    as He.
  destruct (shr_fexp prec emax _ e1 loc_Exact) as [mrs2 e2]. cbn [snd] in He.
  destruct (shr_m mrs2); try done.
  destruct (e2 <=? emax - prec)%Z; [|done]. by intros [= _ _ <-].
Qed.

Lemma binary_round_aux_not_nan s m e l :
  (0 <= m)%Z → binary_round_aux prec emax s m e l ≠ S754_nan.
Proof.
  intros Hm. unfold binary_round_aux.
  pose proof (shr_fexp_nonneg m e l Hm) as H1.
  destruct (shr_fexp prec emax m e l) as [mrs1 e1]. cbn [fst] in H1.
  pose proof (round_nearest_even_ge (shr_m mrs1) (loc_of_shr_record mrs1)) as Hr.
  pose proof (shr_fexp_nonneg
    (round_nearest_even (shr_m mrs1) (loc_of_shr_record mrs1)) e1 loc_Exact
    ltac:(lia)) as H2.
  destruct (shr_fexp prec emax _ e1 loc_Exact) as [mrs2 e2]. cbn [fst] in H2.
  destruct (shr_m mrs2); try done; try lia.
  by destruct (e2 <=? emax - prec)%Z.
Qed.

(** A positive mantissa at an exponent not below the least one does not
    round to zero. *)
Lemma binary_round_aux_not_zero s m e l s' :
  (0 < m)%Z → (emin <= e)%Z →
  binary_round_aux prec emax s m e l ≠ S754_zero s'.
Proof.
  intros Hm He. unfold binary_round_aux.
  pose proof (shr_fexp_positive m e l Hm He) as H1.
  pose proof (shr_fexp_exponent m e l) as He1.
  destruct (shr_fexp prec emax m e l) as [mrs1 e1]. cbn [fst snd] in H1, He1.
  pose proof (round_nearest_even_ge (shr_m mrs1) (loc_of_shr_record mrs1)) as Hr.
  pose proof (shr_fexp_positive
    (round_nearest_even (shr_m mrs1) (loc_of_shr_record mrs1)) e1 loc_Exact
    ltac:(lia) He1) as H2.
  destruct (shr_fexp prec emax _ e1 loc_Exact) as [mrs2 e2]. cbn [fst] in H2.
  destruct (shr_m mrs2); try done; try lia.
  by destruct (e2 <=? emax - prec)%Z.
Qed.

Lemma shl_align_value m e e' :
  (e' <= e)%Z →
  Zpos (shl_align m e e').1 = (Zpos m * 2 ^ (e - e'))%Z.
Proof.
  intros He. unfold shl_align.
  destruct (e' - e)%Z as [|d|d] eqn:Hd; cbn [fst]; try lia.
  - replace (e - e')%Z with 0%Z by lia. lia.
  - replace (e - e')%Z with (Zpos d) by lia.
    change (Pos.iter xO m d) with (shift_pos d m).
    rewrite shift_pos_correct, Z.pow_pos_fold. lia.
Qed.

Lemma shl_align_exponent m e e' :
  (emin <= e)%Z → (emin <= e')%Z → (emin <= (shl_align m e e').2)%Z.
Proof.
  intros. unfold shl_align. by destruct (e' - e)%Z.
Qed.

(** [binary_round] of a positive mantissa: a finite number or an infinity
    of the sign asked for. *)
Lemma binary_round_sign s m e :
  (emin <= e)%Z →
  match binary_round prec emax s m e with
  | S754_infinity s' | S754_finite s' _ _ => s' = s
  | _ => False
  end.
Proof.
  intros He. unfold binary_round.
  pose proof (shl_align_exponent m e (fexp (Z.pos (digits2_pos m) + e)) He
                (fexp_above_emin _)) as He'.
  destruct (shl_align m e _) as [mz ez]. cbn [snd] in He'.
  pose proof (binary_round_aux_sign s (Zpos mz) ez loc_Exact) as Hs.
  pose proof (binary_round_aux_not_nan s (Zpos mz) ez loc_Exact ltac:(lia)) as Hn.
  pose proof (binary_round_aux_not_zero s (Zpos mz) ez loc_Exact) as Hz.
  destruct (binary_round_aux prec emax s (Zpos mz) ez loc_Exact); try done.
  by destruct (Hz s0).
Qed.

End rounding.

(** ** The order of numbers and the sign of a difference *)

Section ordering.
Implicit Types (x y z : Number) (s : bool) (m : positive) (e : Z).

Local Abbreviation emin64 := (emin binary64_prec binary64_emax).

Lemma two_power_positive e : (0 < (2 # 1) ^ e)%Q.
Proof. by apply Qpower_0_lt. Qed.

Lemma cond_Zopp_mul s (a b : Z) : cond_Zopp s (a * b) = (cond_Zopp s a * b)%Z.
Proof. destruct s; cbn [cond_Zopp]; lia. Qed.

(** The value of a finite double, read at a lower exponent. *)
Lemma finite_value_aligned s m e e0 :
  (e0 <= e)%Z →
  (finite_value s m e
   == inject_Z (cond_Zopp s (Zpos m * 2 ^ (e - e0))) * (2 # 1) ^ e0)%Q.
Proof.
  intros He. unfold finite_value.
  rewrite cond_Zopp_mul, inject_Z_mult, Zpower_Qpower by lia.
  rewrite <- Qmult_assoc.
  change (inject_Z 2) with (2 # 1).
  rewrite <- Qpower_plus by done.
  by replace (e - e0 + e0)%Z with e by lia.
Qed.

Lemma finite_value_positive m e : (0 < finite_value false m e)%Q.
Proof.
  unfold finite_value. apply Qmult_lt_0_compat; [|apply two_power_positive].
  cbn [cond_Zopp]. unfold Qlt. simpl. lia.
Qed.

Lemma finite_value_negative m e : (finite_value true m e < 0)%Q.
Proof.
  assert (finite_value true m e == - finite_value false m e)%Q as ->.
  { unfold finite_value. cbn [cond_Zopp].
    change (inject_Z (- Z.pos m)) with (- inject_Z (Zpos m))%Q. ring. }
  apply (Qopp_lt_compat 0), finite_value_positive.
Qed.

(** What [binary_normalize] gives at an exponent not below the least one is
    positive exactly when the integer is. *)
Lemma binary_normalize_positive (k : Z) e :
  (emin64 <= e)%Z →
  number_is_positive (binary_normalize binary64_prec binary64_emax k e false)
  = (0 <? k)%Z.
Proof.
  intros He. destruct k as [|p|p]; cbn [binary_normalize]; [done| |].
  - pose proof (binary_round_sign binary64_prec binary64_emax eq_refl
                  false p e He) as H.
    destruct (binary_round _ _ false p e); try done; by subst.
  - pose proof (binary_round_sign binary64_prec binary64_emax eq_refl
                  true p e He) as H.
    destruct (binary_round _ _ true p e); try done; by subst.
Qed.

(** The difference of two finite doubles is positive exactly when the first
    is the larger. *)
Lemma sub_finite_positive sx mx ex sy my ey :
  (emin64 <= ex)%Z → (emin64 <= ey)%Z →
  number_is_positive
    (number_sub (S754_finite sy my ey) (S754_finite sx mx ex)) = true
  ↔ (finite_value sx mx ex < finite_value sy my ey)%Q.
Proof.
  intros Hx Hy. unfold number_sub. cbn [SFsub].
  rewrite binary_normalize_positive by lia.
  rewrite !shl_align_value by lia.
  rewrite (finite_value_aligned sx mx ex (Z.min ey ex)) by lia.
  rewrite (finite_value_aligned sy my ey (Z.min ey ex)) by lia.
  rewrite Qmult_lt_r by apply two_power_positive.
  rewrite <- Zlt_Qlt, !cond_Zopp_mul, Z.ltb_lt.
  rewrite <- !cond_Zopp_mul. lia.
Qed.

Lemma number_le_refl x : x ≠ NaN → number_le x x.
Proof.
  intros Hx. split_and!; try done.
  destruct x as [|[]| |]; cbn; try done; apply Qle_refl.
Qed.

Lemma extended_le_trans (a b c : Extended) :
  extended_le a b → extended_le b c → extended_le a c.
Proof.
  destruct a, b, c; cbn; try done. apply Qle_trans.
Qed.

Lemma number_le_trans x y z : number_le x y → number_le y z → number_le x z.
Proof.
  intros (Hx & _ & Hxy) (_ & Hz & Hyz). split_and!; try done.
  by eapply extended_le_trans.
Qed.

(** The comparator [(a, z) => z - a] is positive only when [a] is below [z],
    and is not positive only when [z] is at most [a]. *)
Lemma difference_sign x y :
  x ≠ NaN → y ≠ NaN → above_emin x → above_emin y →
  if number_is_positive (number_sub y x) then number_le x y
  else number_le y x.
Proof.
  intros Hx Hy Ex Ey.
  destruct x as [sx|sx| |sx mx ex], y as [sy|sy| |sy my ey]; try done.
  - destruct sx, sy; cbn; split_and!; try done.
  - by destruct sx, sy; cbn.
  - destruct sx, sy; cbn; split_and!; try done;
      apply Qlt_le_weak;
      (apply finite_value_positive || apply finite_value_negative).
  - by destruct sx, sy; cbn.
  - by destruct sx, sy; cbn.
  - by destruct sx, sy; cbn.
  - destruct sx, sy; cbn; split_and!; try done;
      apply Qlt_le_weak;
      (apply finite_value_positive || apply finite_value_negative).
  - by destruct sx, sy; cbn.
  - cbn [above_emin] in Ex, Ey.
    pose proof (sub_finite_positive sx mx ex sy my ey Ex Ey) as H.
    destruct (number_is_positive _).
    + split_and!; try done. cbn. apply Qlt_le_weak. by apply H.
    + split_and!; try done. cbn. apply Qnot_lt_le. intros Hlt.
      by apply H in Hlt.
Qed.

(** Numbers made by rounding are not [NaN], and their exponents are not
    below the least one. *)
Lemma round_ratio_not_nan s n d : round_ratio s n d ≠ NaN.
Proof.
  unfold round_ratio, SFdiv_core_binary.
  set (e' := Z.min _ _). set (m' := match (0 - 0 - e')%Z with
                                    | Zpos _ => _ | Z0 => _ | Zneg _ => _ end).
  assert (0 <= m')%Z as Hm.
  { subst m'. destruct (0 - 0 - e')%Z; try done. by apply Z.shiftl_nonneg. }
  pose proof (Z_div_mod m' (Zpos d) eq_refl) as Hdiv.
  destruct (Z.div_eucl m' (Zpos d)) as [q r].
  apply binary_round_aux_not_nan. nia.
Qed.

Lemma round_ratio_above_emin s n d : above_emin (round_ratio s n d).
Proof.
  unfold round_ratio.
  destruct (SFdiv_core_binary _ _ _ _ _ _) as [[m e] l].
  destruct (binary_round_aux _ _ s m e l) eqn:H; try done.
  by eapply binary_round_aux_exponent.
Qed.

Lemma Num_not_nan q : Num q ≠ NaN.
Proof.
  unfold Num. destruct (Qnum (Qred q)); [done|apply round_ratio_not_nan..].
Qed.

Lemma Num_above_emin q : above_emin (Num q).
Proof.
  unfold Num. destruct (Qnum (Qred q)); [done|apply round_ratio_above_emin..].
Qed.

Lemma Num_proper q1 q2 : (q1 == q2)%Q → Num q1 = Num q2.
Proof. intros H. unfold Num. by rewrite (Qred_complete _ _ H). Qed.

Lemma number_neg_above_emin x : above_emin x → above_emin (number_neg x).
Proof. by destruct x. Qed.

Lemma number_mul_above_emin x y : above_emin (number_mul x y).
Proof.
  destruct x as [sx|sx| |sx mx ex], y as [sy|sy| |sy my ey]; try done.
  unfold number_mul. cbn [SFmul].
  destruct (binary_round_aux _ _ _ _ _ _) eqn:H; try done.
  by eapply binary_round_aux_exponent.
Qed.

End ordering.

Lemma Num_0 : Num 0 = S754_zero false.
Proof. reflexivity. Qed.

Lemma Num_1000 : Num 1000 = S754_finite false 8796093022208000 (-43).
Proof. vm_compute. reflexivity. Qed.

(** ** Token lists *)

Section tokens.
Implicit Types (l tokens : list string) (t : string) (el : HTMLElement).

Lemma validate_tokens_app tokens1 tokens2 :
  validate_tokens (tokens1 ++ tokens2) = None ↔
  validate_tokens tokens1 = None ∧ validate_tokens tokens2 = None.
Proof.
  induction tokens1 as [|t tokens1 IH]; simpl; [tauto|].
  destruct (negb (string_truthy t)); [intuition discriminate|].
  destruct (has_ascii_whitespace t); [intuition discriminate|]. exact IH.
Qed.

Lemma elem_of_token_append l t x :
  x ∈ token_append l t ↔ x ∈ l ∨ x = t.
Proof.
  unfold token_append. destruct (decide (t ∈ l)) as [Hin|Hout].
  - split; [by left|]. intros [?| ->]; done.
  - rewrite elem_of_app, list_elem_of_singleton. done.
Qed.

Lemma elem_of_foldl_token_append tokens l x :
  x ∈ foldl token_append l tokens ↔ x ∈ l ∨ x ∈ tokens.
Proof.
  revert l. induction tokens as [|t tokens IH]; intros l; simpl.
  - rewrite elem_of_nil. tauto.
  - rewrite IH, elem_of_token_append, elem_of_cons. tauto.
Qed.

Lemma NoDup_token_append l t : NoDup l → NoDup (token_append l t).
Proof.
  intros Hl. unfold token_append. destruct (decide (t ∈ l)); [done|].
  apply NoDup_app. split_and!; [done| |apply NoDup_singleton].
  intros x Hx ->%list_elem_of_singleton. done.
Qed.

Lemma NoDup_foldl_token_append tokens l :
  NoDup l → NoDup (foldl token_append l tokens).
Proof.
  revert l. induction tokens as [|t tokens IH]; intros l Hl; simpl; [done|].
  apply IH, NoDup_token_append, Hl.
Qed.

Lemma elem_of_add_tokens el tokens t :
  t ∈ classList (add_tokens el tokens) ↔ t ∈ classList el ∨ t ∈ tokens.
Proof. apply elem_of_foldl_token_append. Qed.

Lemma elem_of_remove_tokens el tokens t :
  t ∈ classList (remove_tokens el tokens) ↔ t ∈ classList el ∧ t ∉ tokens.
Proof. simpl. rewrite list_elem_of_filter. tauto. Qed.

Lemma set_classList_same el : set_classList el (classList el) = el.
Proof. by destruct el. Qed.

Lemma addClasses_valid el tokens :
  validate_tokens tokens = None →
  addClasses (Some el) tokens = Normal (Some (add_tokens el tokens)).
Proof.
  intros Hv. unfold addClasses, DOMTokenList_add. rewrite Hv.
  destruct tokens as [|t tokens]; simpl; [|done].
  unfold add_tokens. simpl. by rewrite set_classList_same.
Qed.

Lemma remove_no_tokens el : remove_tokens el [] = el.
Proof.
  unfold remove_tokens.
  assert (filter (λ t : string, t ∉ []) (classList el) = classList el) as ->.
  { induction (classList el) as [|x l IH]; [done|].
    rewrite filter_cons_True by apply not_elem_of_nil. by rewrite IH. }
  apply set_classList_same.
Qed.

Lemma removeClasses_valid el tokens :
  validate_tokens tokens = None →
  removeClasses (Some el) tokens = Normal (Some (remove_tokens el tokens)).
Proof.
  intros Hv. unfold removeClasses, DOMTokenList_remove. rewrite Hv.
  destruct tokens as [|t tokens]; [|done].
  by rewrite remove_no_tokens.
Qed.

Lemma addClasses_invalid el tokens e :
  validate_tokens tokens = Some e → addClasses (Some el) tokens = Throw e.
Proof.
  intros Hv. unfold addClasses, DOMTokenList_add. rewrite Hv.
  by destruct tokens.
Qed.

Lemma removeClasses_invalid el tokens e :
  validate_tokens tokens = Some e → removeClasses (Some el) tokens = Throw e.
Proof.
  intros Hv. unfold removeClasses, DOMTokenList_remove. rewrite Hv.
  by destruct tokens.
Qed.

End tokens.

(** ** The transition, step by step *)

Arguments addClasses : simpl never.
Arguments removeClasses : simpl never.
Arguments totalDuration : simpl never.
Arguments number_strict_ne : simpl never.

Section transition_steps.
Context (env : Browser).
Implicit Types (c : Call) (cs : TransitionClasses) (el : HTMLElement)
  (w : World) (e : BrowserEvent) (es : list BrowserEvent).

Lemma valid_parts cs :
  validate_tokens (all_classes cs) = None →
  validate_tokens (enter cs) = None ∧ validate_tokens (enterTo cs) = None ∧
  validate_tokens (enterFrom cs) = None ∧ validate_tokens (leave cs) = None ∧
  validate_tokens (leaveFrom cs) = None ∧ validate_tokens (leaveTo cs) = None ∧
  validate_tokens (entered cs) = None.
Proof. unfold all_classes. rewrite !validate_tokens_app. tauto. Qed.

Lemma valid_call c :
  validate_tokens (all_classes (classes c)) = None →
  validate_tokens (base c) = None ∧ validate_tokens (from c) = None ∧
  validate_tokens (to c) = None ∧
  validate_tokens (entered (classes c)) = None ∧
  validate_tokens (base c ++ from c) = None.
Proof.
  intros (?&?&?&?&?&?&?)%valid_parts.
  rewrite validate_tokens_app. unfold base, from, to, direction.
  destruct (show c); tauto.
Qed.

Lemma on_node_add w el tokens :
  node w = Some el → validate_tokens tokens = None →
  on_node (λ n, addClasses n tokens) w
  = (Normal tt, with_node (Some (add_tokens el tokens)) w).
Proof. intros Hn Hv. unfold on_node. by rewrite Hn, addClasses_valid. Qed.

Lemma on_node_remove w el tokens :
  node w = Some el → validate_tokens tokens = None →
  on_node (λ n, removeClasses n tokens) w
  = (Normal tt, with_node (Some (remove_tokens el tokens)) w).
Proof. intros Hn Hv. unfold on_node. by rewrite Hn, removeClasses_valid. Qed.

Lemma transition_valid el cs sh dn :
  validate_tokens (all_classes cs) = None →
  transition (Some el) cs sh dn
  = (Normal dispose_transition,
     world_started {| classes := cs; show := sh; done := dn |} el).
Proof.
  intros Hv. set (c := {| classes := cs; show := sh; done := dn |}).
  destruct (valid_call c Hv) as (Hb & Hf & Ht & He & Hbf).
  unfold transition. fold c. unfold transition_body.
  unfold world_started, started, unhidden.
  destruct (direction c) eqn:Hd.
  - exec. rewrite removeClasses_valid by done. exec.
    rewrite addClasses_valid by done. exec. reflexivity.
  - exec. rewrite removeClasses_valid by done. exec.
    rewrite addClasses_valid by done. exec. reflexivity.
Qed.

Lemma finish_valid c el w :
  validate_tokens (all_classes (classes c)) = None →
  node w = Some el →
  finish c w
  = (Normal tt,
     (if done c then (if called w then id else with_done_called) else id)
       (with_node
          (Some (add_tokens (remove_tokens el (base c)) (entered (classes c))))
          w)).
Proof.
  intros Hv Hn. destruct (valid_call c Hv) as (Hb & Hf & Ht & He & Hbf).
  destruct w as [n f t l dt dw cl dc un]; simpl in Hn; subst n.
  unfold finish, _done, once_done. exec.
  rewrite removeClasses_valid by done. exec.
  rewrite addClasses_valid by done. exec.
  destruct (done c); [|done]. by destruct cl.
Qed.

Lemma apply_to_valid c el w :
  validate_tokens (all_classes (classes c)) = None →
  node w = Some el →
  apply_to c w
  = (Normal tt,
     with_node (Some (add_tokens (remove_tokens el (from c)) (to c))) w).
Proof.
  intros Hv Hn. destruct (valid_call c Hv) as (Hb & Hf & Ht & He & Hbf).
  destruct w as [n f t l dt dw cl dc un]; simpl in Hn; subst n.
  unfold apply_to. exec.
  rewrite removeClasses_valid by done. exec.
  by rewrite addClasses_valid by done.
Qed.

Lemma frame_zero c el :
  validate_tokens (all_classes (classes c)) = None →
  number_strict_ne (frame_total env c el) (Num 0) = false →
  step env c AnimationFrame (world_started c el) = world_finished c el.
Proof.
  intros Hv Hz. unfold step, run_closures, world_started. exec. simpl foldl.
  unfold reported, run_closure, next_frame_callback. exec.
  erewrite apply_to_valid by (done || reflexivity). exec.
  unfold waitForTransition. exec. fold (restyled c el).
  fold (frame_total env c el). rewrite Hz.
  erewrite finish_valid by (done || reflexivity). exec.
  unfold world_finished, finished. by destruct (done c).
Qed.

Lemma frame_wait c el :
  validate_tokens (all_classes (classes c)) = None →
  number_strict_ne (frame_total env c el) (Num 0) = true →
  step env c AnimationFrame (world_started c el) = world_waiting env c el.
Proof.
  intros Hv Hz. unfold step, run_closures, world_started. exec. simpl foldl.
  unfold reported, run_closure, next_frame_callback. exec.
  erewrite apply_to_valid by (done || reflexivity). exec.
  unfold waitForTransition. exec. fold (restyled c el).
  fold (frame_total env c el). rewrite Hz.
  unfold world_waiting. by destruct (String.eqb (NODE_ENV env) "test").
Qed.

Lemma timer_finishes c el :
  validate_tokens (all_classes (classes c)) = None →
  String.eqb (NODE_ENV env) "test" = true →
  step env c TimersElapse (world_waiting env c el) = world_finished c el.
Proof.
  intros Hv Ht. unfold world_waiting. rewrite Ht.
  unfold step, run_closures. exec. simpl.
  unfold reported, run_closure, timeout_callback. exec.
  erewrite finish_valid by (done || reflexivity). exec. simpl.
  unfold world_finished, finished. by destruct (done c).
Qed.

Lemma transitionend_finishes c el event :
  validate_tokens (all_classes (classes c)) = None →
  String.eqb (NODE_ENV env) "test" = false →
  target event = currentTarget event →
  step env c (TransitionEnd event) (world_waiting env c el)
  = world_finished c el.
Proof.
  intros Hv Ht Hown. unfold world_waiting. rewrite Ht.
  unfold step, run_closures. exec. simpl.
  unfold reported, run_closure, transitionend_listener.
  rewrite Hown, Nat.eqb_refl. exec.
  erewrite finish_valid by (done || reflexivity). exec. simpl.
  unfold world_finished, finished. by destruct (done c).
Qed.

Lemma transitionend_bubbled c el event :
  target event ≠ currentTarget event →
  step env c (TransitionEnd event) (world_waiting env c el)
  = world_waiting env c el.
Proof.
  intros Hne. unfold world_waiting.
  destruct (String.eqb (NODE_ENV env) "test"); [done|].
  unfold step, run_closures. exec. simpl.
  unfold reported, run_closure, transitionend_listener.
  apply Nat.eqb_neq in Hne. rewrite Hne. by exec.
Qed.

Lemma natural_finish_started c el :
  validate_tokens (all_classes (classes c)) = None →
  natural_finish env c (world_started c el)
  = AnimationFrame ::
      if number_strict_ne (frame_total env c el) (Num 0) then
        if String.eqb (NODE_ENV env) "test" then [TimersElapse]
        else [TransitionEnd own_transitionend]
      else [].
Proof.
  intros Hv. unfold natural_finish.
  destruct (number_strict_ne (frame_total env c el) (Num 0)) eqn:Hz.
  - rewrite frame_wait by done. unfold world_waiting.
    by destruct (String.eqb (NODE_ENV env) "test").
  - by rewrite frame_zero by done.
Qed.

Lemma run_nil c w : run env c [] w = w.
Proof. done. Qed.

Lemma run_cons c e es w : run env c (e :: es) w = run env c es (step env c e w).
Proof. done. Qed.

Lemma run_app c es1 es2 w :
  run env c (es1 ++ es2) w = run env c es2 (run env c es1 w).
Proof. apply foldl_app. Qed.

Lemma natural_finish_finishes c el :
  validate_tokens (all_classes (classes c)) = None →
  run env c (natural_finish env c (world_started c el)) (world_started c el)
  = world_finished c el.
Proof.
  intros Hv. rewrite natural_finish_started by done.
  destruct (number_strict_ne (frame_total env c el) (Num 0)) eqn:Hz.
  - destruct (String.eqb (NODE_ENV env) "test") eqn:Ht;
      rewrite !run_cons, run_nil, frame_wait by done.
    + by apply timer_finishes.
    + by apply transitionend_finishes.
  - rewrite run_cons, run_nil. by apply frame_zero.
Qed.

(** Which tokens the element holds when the finish callback has run. *)
Lemma elem_of_finished c el t :
  t ∈ classList (finished c el) ↔
  t ∈ entered (classes c) ∨ (t ∈ to c ∧ t ∉ base c)
  ∨ (t ∈ classList el ∧ t ∉ all_classes (classes c)).
Proof.
  unfold finished, restyled, started.
  repeat (rewrite elem_of_add_tokens || rewrite elem_of_remove_tokens).
  rewrite elem_of_app.
  assert (classList (unhidden c el) = classList el) as ->.
  { unfold unhidden. by destruct (direction c). }
  assert (t ∈ base c → t ∈ all_classes (classes c)) as Hb.
  { unfold base, all_classes. rewrite !elem_of_app.
    destruct (direction c); tauto. }
  assert (t ∈ from c → t ∈ all_classes (classes c)) as Hf.
  { unfold from, all_classes. rewrite !elem_of_app.
    destruct (direction c); tauto. }
  destruct (decide (t ∈ base c)), (decide (t ∈ from c)),
    (decide (t ∈ all_classes (classes c))); tauto.
Qed.

End transition_steps.



(** ** The completion callback runs at most once *)

Section at_most_once.
Context (env : Browser) (c : Call).
Context (P : bool → nat → Prop).
Context (P_first_call : ∀ n, P false n → P true (S n)).
Local Abbreviation keeps := (keeps P).
Local Abbreviation holds := (once_state P).

Lemma keeps_ret {A : Type} (a : A) : keeps (mret a).
Proof. by intros w Hw. Qed.

Lemma keeps_bind {A B : Type} (m : M A) (k : A → M B) :
  keeps m → (∀ a, keeps (k a)) → keeps (m ≫= k).
Proof.
  intros Hm Hk w Hw. unfold mbind, M_bind. specialize (Hm w Hw).
  destruct (m w) as [[a|e] w']; simpl in *; [by apply Hk|done].
Qed.

Lemma keeps_same {A : Type} (m : M A) :
  (∀ w, called (m w).2 = called w ∧ done_calls (m w).2 = done_calls w) →
  keeps m.
Proof.
  intros Hm w Hw. destruct (Hm w) as [Hc Hd].
  unfold once_state. by rewrite Hc, Hd.
Qed.

Lemma keeps_on_node f : keeps (on_node f).
Proof.
  apply keeps_same. intros w. unfold on_node. by destruct (f (node w)).
Qed.

Lemma keeps_once_done : keeps once_done.
Proof.
  intros w Hw. unfold once_done, once_state in *.
  destruct (called w) eqn:Hc; simpl; [by rewrite Hc|by apply P_first_call].
Qed.

Lemma keeps_done : keeps (_done c).
Proof. unfold _done. destruct (done c); [apply keeps_once_done|apply keeps_ret]. Qed.

Lemma keeps_finish : keeps (finish c).
Proof.
  unfold finish. repeat (apply keeps_bind; [|intros _]);
    auto using keeps_on_node, keeps_done.
Qed.

Lemma keeps_run_cleanup cleanup : keeps (run_cleanup c cleanup).
Proof.
  destruct cleanup; simpl; try (by apply keeps_same); apply keeps_finish.
Qed.

Lemma keeps_run_cleanups cleanups : keeps (run_cleanups c cleanups).
Proof.
  induction cleanups as [|cleanup cleanups IH]; simpl; [apply keeps_ret|].
  apply keeps_bind; [apply keeps_run_cleanup|by intros _].
Qed.

Lemma holds_with_registry d l w :
  holds w → holds (with_registry d l w).
Proof. by destruct d. Qed.

Lemma keeps_d_add d cleanup : keeps (d_add d cleanup).
Proof. apply keeps_same. intros w. by destruct d. Qed.

Lemma keeps_d_dispose d : keeps (d_dispose c d).
Proof.
  intros w Hw. unfold d_dispose.
  by apply keeps_run_cleanups, holds_with_registry.
Qed.

Lemma keeps_dispose_one d cleanup : keeps (dispose_one c d cleanup).
Proof.
  intros w Hw. unfold dispose_one.
  by apply keeps_run_cleanup, holds_with_registry.
Qed.

Lemma keeps_waitForTransition : keeps (waitForTransition env c).
Proof.
  intros w Hw. unfold waitForTransition. destruct (node w) as [el|]; [|done].
  revert w Hw. apply keeps_bind; [|intros _; apply keeps_bind;
    [apply keeps_d_add|intros _; apply keeps_ret]].
  destruct (number_strict_ne _ _); [|apply keeps_finish].
  destruct (String.eqb _ _).
  - apply keeps_bind; [by apply keeps_same|intros _; apply keeps_d_add].
  - apply keeps_bind; [by apply keeps_same|intros _; apply keeps_d_add].
Qed.

Lemma keeps_run_closure event f : keeps (run_closure env c event f).
Proof.
  destruct f; simpl.
  - unfold next_frame_callback, apply_to.
    repeat (apply keeps_bind; [|intros ?]);
      auto using keeps_on_node, keeps_waitForTransition, keeps_ret.
  - unfold timeout_callback.
    apply keeps_bind; [apply keeps_finish|intros _; apply keeps_dispose_one].
  - destruct event as [ev|]; [|apply keeps_ret].
    unfold transitionend_listener. destruct (negb _); [apply keeps_ret|].
    apply keeps_bind; [apply keeps_finish|intros _; apply keeps_dispose_one].
Qed.

Lemma holds_reported m w :
  keeps m → holds w → holds (reported m w).
Proof.
  intros Hm Hw. unfold reported. specialize (Hm w Hw).
  by destruct (m w) as [[a|e] w'].
Qed.

Lemma holds_run_closures event fs w :
  holds w → holds (run_closures env c event fs w).
Proof.
  revert w. unfold run_closures.
  induction fs as [|f fs IH]; intros w Hw; simpl; [done|].
  apply IH, holds_reported; [apply keeps_run_closure|done].
Qed.

Lemma holds_step e w :
  holds w → holds (step env c e w).
Proof.
  intros Hw. destruct e; simpl.
  - by apply holds_run_closures.
  - by apply holds_run_closures.
  - by apply holds_run_closures.
  - apply holds_reported; [apply keeps_d_dispose|done].
Qed.

Lemma holds_run es w :
  holds w → holds (run env c es w).
Proof.
  revert w. unfold run. induction es as [|e es IH]; intros w Hw; simpl; [done|].
  by apply IH, holds_step.
Qed.

End at_most_once.

Lemma once_consistent_first_call n :
  once_consistent false n → once_consistent true (S n).
Proof. unfold once_consistent. by intros ->. Qed.

Lemma once_done_already_first_call n :
  once_done_already false n → once_done_already true (S n).
Proof. by intros [? _]. Qed.

(** ** What [transition] leaves behind, whatever its arguments *)

Section disposed_early.
Context (env : Browser) (c : Call).

Lemma transition_fresh n cs sh dn : fresh (transition n cs sh dn).2.
Proof.
  destruct n as [el|].
  - destruct (validate_tokens (all_classes cs)) as [e|] eqn:Hv.
    + unfold transition, transition_body.
      destruct (direction _); exec;
        rewrite (removeClasses_invalid _ _ e) by done;
        unfold fresh; simpl; tauto.
    + rewrite transition_valid by done. unfold fresh; simpl. tauto.
  - unfold transition, transition_body.
    destruct (direction _); exec; unfold fresh; simpl; tauto.
Qed.

Lemma fresh_once_consistent w : fresh w → once_state once_consistent w.
Proof.
  intros (_&_&_&Hc&Hd&_). unfold once_state, once_consistent. by rewrite Hc, Hd.
Qed.

Lemma dispose_fresh_idle w : fresh w → idle (step env c CallDisposer w).
Proof.
  destruct w as [n f t l dt dw cl dc un].
  intros (?&?&?&?&?&[[??]|[??]]); simpl in *; subst;
    vm_compute; tauto.
Qed.

Lemma idle_step e w : idle w → idle (step env c e w).
Proof.
  destruct w as [n f t l dt dw cl dc un].
  intros (?&?&?&?&?); simpl in *; subst.
  destruct e; vm_compute; tauto.
Qed.

Lemma idle_run es w : idle w → idle (run env c es w).
Proof.
  revert w. unfold run. induction es as [|e es IH]; intros w Hw; simpl; [done|].
  by apply IH, idle_step.
Qed.

End disposed_early.

(** ** The claims about the transition *)

Lemma transition_normal_valid el cs sh dn d :
  (transition (Some el) cs sh dn).1 = Normal d →
  validate_tokens (all_classes cs) = None.
Proof.
  destruct (validate_tokens (all_classes cs)) as [e|] eqn:Hv; [|done].
  unfold transition, transition_body.
  destruct (direction _); exec;
    by rewrite (removeClasses_invalid _ _ e) by done.
Qed.

(** C1, as amended. For every call [transition(node, classes, show, done)]:
    whatever happens afterwards (animation frames, transitionend events of
    the node or of a descendant, timers, calls of the returned disposer, in
    any order), the completion callback has run at most once; when the call
    returned normally on an element with a callback supplied and runs to
    its natural end (the animation frame, then the timer or the node's own
    transitionend when the total duration is not zero), the callback has
    run exactly once, and this stays so whatever happens later; when the
    returned disposer is invoked before the first animation-frame callback
    has run, the callback is not invoked, then or later. *)
Theorem done_at_most_once_once_when_finished
    (env : Browser) (n : option HTMLElement) (cs : TransitionClasses)
    (sh dn : bool) :
  let c := {| classes := cs; show := sh; done := dn |} in
  let r := transition n cs sh dn in
  (∀ es, done_calls (run env c es r.2) ≤ 1)
  ∧ (∀ el es, n = Some el → r.1 = Normal dispose_transition → dn = true →
       done_calls (run env c (natural_finish env c r.2 ++ es) r.2) = 1)
  ∧ (∀ es, done_calls (run env c (CallDisposer :: es) r.2) = 0).
Proof.
  intros c r. split_and!.
  - intros es.
    pose proof (holds_run env c once_consistent
                  once_consistent_first_call es r.2
                  (fresh_once_consistent _ (transition_fresh n cs sh dn)))
      as Hr.
    unfold once_state, once_consistent in Hr. rewrite Hr.
    destruct (called _); lia.
  - intros el es -> Hn ->. subst r.
    pose proof (transition_normal_valid _ _ _ _ _ Hn) as Hv.
    rewrite transition_valid by done. simpl snd. fold c.
    rewrite run_app, natural_finish_finishes by done.
    pose proof (holds_run env c once_done_already
                  once_done_already_first_call es (world_finished c el)) as Hr.
    apply Hr. by split.
  - intros es. rewrite run_cons.
    apply (idle_run env c es). apply dispose_fresh_idle, transition_fresh.
Qed.

(** Witness for C1: the sample transition runs to its natural end and is
    disposed afterwards. *)
Lemma done_at_most_once_once_when_finished_witness :
  done_calls
    (run sample_browser sample_call
       (natural_finish sample_browser sample_call
          (transition (Some sample_element) sample_classes true true).2
        ++ [CallDisposer])
       (transition (Some sample_element) sample_classes true true).2) = 1.
Proof.
  exact (proj1 (proj2 (done_at_most_once_once_when_finished sample_browser
                         (Some sample_element) sample_classes true true))
           sample_element [CallDisposer] eq_refl eq_refl eq_refl).
Defined.

(** Counterexample to C1 as stated: the sample transition is disposed before
    the first animation frame; the frame, the node's transitionend and the
    timers that follow find nothing to run, and the callback has not been
    invoked. *)
Lemma done_never_called_when_disposed_before_frame :
  (transition (Some sample_element) sample_classes true true).1
  = Normal dispose_transition
  ∧ done_calls
      (run sample_browser sample_call
         [CallDisposer; AnimationFrame; TransitionEnd own_transitionend;
          TimersElapse]
         (transition (Some sample_element) sample_classes true true).2) = 0.
Proof. split; vm_compute; reflexivity. Qed.

(** Disposal after the animation frame, on the sample transition: what
    [waitForTransition] returned was not kept, so the disposer of
    [transition] has nothing of it to run; the listener stays, and the
    callback runs when the transition ends. *)
Example disposer_after_frame_leaves_listener :
  done_calls
    (run sample_browser sample_call [AnimationFrame; CallDisposer]
       (transition (Some sample_element) sample_classes true true).2) = 0
  ∧ listeners
      (run sample_browser sample_call [AnimationFrame; CallDisposer]
         (transition (Some sample_element) sample_classes true true).2)
    = [TransitionEndListener]
  ∧ done_calls
      (run sample_browser sample_call
         [AnimationFrame; CallDisposer; TransitionEnd own_transitionend]
         (transition (Some sample_element) sample_classes true true).2) = 1.
Proof. repeat split; vm_compute; reflexivity. Qed.

(** C2, as amended. When a transition on an element returned normally and
    runs to its natural end, the element's class list holds exactly: the
    tokens of [entered]; the tokens of the direction's "to" list ([enterTo]
    when entering, [leaveTo] when leaving) that are not in its base list
    ([enter], [leave]); and the tokens the element had before that are in
    none of the seven lists. So every token of [entered] is present, and
    a token of the base or "from" list is absent unless it is also in
    [entered], or (for a "from" token) in the "to" list and not in the
    base list. *)
Theorem classes_after_natural_finish
    (env : Browser) (el : HTMLElement) (cs : TransitionClasses) (sh dn : bool) :
  let c := {| classes := cs; show := sh; done := dn |} in
  let r := transition (Some el) cs sh dn in
  r.1 = Normal dispose_transition →
  ∃ el',
    node (run env c (natural_finish env c r.2) r.2) = Some el'
    ∧ (∀ t, t ∈ classList el' ↔
            t ∈ entered cs ∨ (t ∈ to c ∧ t ∉ base c)
            ∨ (t ∈ classList el ∧ t ∉ all_classes cs))
    ∧ (∀ t, t ∈ entered cs → t ∈ classList el')
    ∧ (∀ t, t ∈ base c → t ∉ entered cs → t ∉ classList el')
    ∧ (∀ t, t ∈ from c → t ∉ to c → t ∉ entered cs → t ∉ classList el').
Proof.
  intros c r Hn. subst r.
  pose proof (transition_normal_valid _ _ _ _ _ Hn) as Hv.
  rewrite transition_valid by done. simpl snd. fold c.
  rewrite natural_finish_finishes by done.
  exists (finished c el). split; [done|].
  assert (∀ t, t ∈ from c → t ∈ all_classes cs) as Hfrom.
  { intros t. unfold from, all_classes. rewrite !elem_of_app.
    destruct (direction c); tauto. }
  assert (∀ t, t ∈ base c → t ∈ all_classes cs) as Hbase.
  { intros t. unfold base, all_classes. rewrite !elem_of_app.
    destruct (direction c); tauto. }
  split_and!; intros t; rewrite ?(elem_of_finished c el t); simpl classes.
  - done.
  - tauto.
  - intros Hb ?. specialize (Hbase t Hb). tauto.
  - intros Hf ? ?. specialize (Hfrom t Hf). tauto.
Qed.

(** Witness for C2: the sample enter transition. *)
Lemma classes_after_natural_finish_witness :
  ∃ el',
    node (run sample_browser sample_call
            (natural_finish sample_browser sample_call
               (transition (Some sample_element) sample_classes true true).2)
            (transition (Some sample_element) sample_classes true true).2)
    = Some el'
    ∧ "shown" ∈ classList el' ∧ "opacity-0" ∉ classList el'.
Proof.
  destruct (classes_after_natural_finish sample_browser sample_element
              sample_classes true true eq_refl)
    as (el' & Hnode & _ & Hentered & _ & Hfrom).
  exists el'. split_and!; [exact Hnode| |].
  - apply Hentered. clear. set_solver.
  - apply Hfrom; clear.
    + simpl. set_solver.
    + simpl. intros [=]%list_elem_of_singleton.
    + simpl. intros [=]%list_elem_of_singleton.
Defined.

(** Counterexample to C2 as stated: after the sample enter transition has
    run to its natural end, the token [opacity-100] of [enterTo] is on the
    element. *)
Lemma enterTo_token_remains_after_enter :
  ∃ el',
    node (run sample_browser sample_call
            (natural_finish sample_browser sample_call
               (transition (Some sample_element) sample_classes true true).2)
            (transition (Some sample_element) sample_classes true true).2)
    = Some el'
    ∧ "opacity-100" ∈ enterTo sample_classes
    ∧ "opacity-100" ∈ classList el'.
Proof.
  eexists. split; [vm_compute; reflexivity|]. split.
  - simpl. set_solver.
  - vm_compute. set_solver.
Qed.

Lemma strict_ne_add_zero a b :
  number_strict_ne a (Num 0) = false → number_strict_ne b (Num 0) = false →
  number_strict_ne (number_add a b) (Num 0) = false.
Proof.
  rewrite Num_0.
  by destruct a as [[]|[]| |[] ? ?], b as [[]|[]| |[] ? ?].
Qed.

Lemma fresh_step_before_frame env c e w :
  e ≠ AnimationFrame → fresh w → fresh (step env c e w).
Proof.
  destruct w as [n f t l dt dw cl dc un].
  intros He (?&?&?&?&?&[[??]|[??]]); simpl in *; subst;
    destruct e; try done; vm_compute; tauto.
Qed.

Lemma fresh_run_before_frame env c es w :
  Forall (λ e, e ≠ AnimationFrame) es → fresh w → fresh (run env c es w).
Proof.
  intros Hes. revert w. unfold run.
  induction Hes as [|e es He Hes IH]; intros w Hw; simpl; [done|].
  by apply IH, fresh_step_before_frame.
Qed.

(** C7, as amended. When a transition on an element returned normally and
    the computed [transition-duration] and [transition-delay] of the
    element, as the animation-frame callback has restyled it, both resolve
    to 0: the completion callback has not run when [transition] returns,
    and no event other than the animation frame makes it run; the
    animation-frame callback itself runs the finish callback, so that right
    after that one step the completion callback (if supplied) has run
    exactly once, the element is in its finished state, no transitionend
    listener and no timer has been registered, and nothing was thrown. *)
Theorem zero_duration_finishes_in_the_frame
    (env : Browser) (el : HTMLElement) (cs : TransitionClasses) (sh dn : bool) :
  let c := {| classes := cs; show := sh; done := dn |} in
  let r := transition (Some el) cs sh dn in
  let computed := getComputedStyle env (restyled c el) in
  r.1 = Normal dispose_transition →
  number_strict_ne (resolvedValue (transitionDuration computed)) (Num 0)
  = false →
  number_strict_ne (resolvedValue (transitionDelay computed)) (Num 0)
  = false →
  (∀ es, Forall (λ e, e ≠ AnimationFrame) es →
         done_calls (run env c es r.2) = 0)
  ∧ done_calls (step env c AnimationFrame r.2) = (if dn then 1 else 0)
  ∧ node (step env c AnimationFrame r.2) = Some (finished c el)
  ∧ frames (step env c AnimationFrame r.2) = []
  ∧ timers (step env c AnimationFrame r.2) = []
  ∧ listeners (step env c AnimationFrame r.2) = []
  ∧ uncaught (step env c AnimationFrame r.2) = [].
Proof.
  intros c r computed Hn Hd Hl. split.
  { intros es Hes.
    by destruct (fresh_run_before_frame env c es r.2 Hes
                   (transition_fresh _ _ _ _)) as (_&_&_&_&?&_). }
  subst r. pose proof (transition_normal_valid _ _ _ _ _ Hn) as Hv.
  rewrite transition_valid by done. simpl snd. fold c.
  rewrite frame_zero; [done|done|].
  unfold frame_total, totalDuration. by apply strict_ne_add_zero.
Qed.

(** Witness for C7: classes that declare no transition in the sample style
    sheet. *)
Lemma zero_duration_finishes_in_the_frame_witness :
  done_calls
    (step sample_browser
       {| classes := plain_classes; show := true; done := true |}
       AnimationFrame
       (transition (Some sample_element) plain_classes true true).2) = 1.
Proof.
  exact (proj1 (proj2 (zero_duration_finishes_in_the_frame sample_browser
                         sample_element plain_classes true true
                         eq_refl eq_refl eq_refl))).
Defined.

(** Counterexample to C7 as stated: the classes declare no transition, so
    duration and delay both resolve to 0; [transition] has returned and the
    event loop has run a timer task and dispatched an event, and the
    completion callback has not run: it runs in the animation frame. *)
Lemma done_waits_for_the_animation_frame :
  number_strict_ne
    (totalDuration
       (sample_style
          (restyled {| classes := plain_classes; show := true; done := true |}
             sample_element)))
    (Num 0) = false
  ∧ done_calls
      (run sample_browser
         {| classes := plain_classes; show := true; done := true |}
         [TimersElapse; TransitionEnd own_transitionend]
         (transition (Some sample_element) plain_classes true true).2) = 0
  ∧ done_calls
      (run sample_browser
         {| classes := plain_classes; show := true; done := true |}
         [TimersElapse; TransitionEnd own_transitionend; AnimationFrame]
         (transition (Some sample_element) plain_classes true true).2) = 1.
Proof. repeat split; vm_compute; reflexivity. Qed.

Lemma null_quiet_step env c e w : null_quiet w → null_quiet (step env c e w).
Proof.
  destruct w as [n f t l dt dw cl dc un].
  intros (?&?&?&?&?&?&[?|?]&[?|?]); simpl in *; subst;
    destruct e; vm_compute; tauto.
Qed.

Lemma null_quiet_run env c es w : null_quiet w → null_quiet (run env c es w).
Proof.
  revert w. unfold run. induction es as [|e es IH]; intros w Hw; simpl; [done|].
  by apply IH, null_quiet_step.
Qed.

(** C9, as amended. For every class set, [transition] called with no node
    and [show = false] returns its disposer without throwing, and nothing
    that follows (the animation frame, events, the disposer) touches a node,
    runs the completion callback or throws; [waitForTransition] on no node
    returns its disposer at once; [addClasses] and [removeClasses] return
    normally on no node, whatever the classes, and on an empty class list,
    whatever the node. *)
Theorem null_node_tolerated_when_leaving :
  (∀ cs dn, (transition None cs false dn).1 = Normal dispose_transition)
  ∧ (∀ env cs dn es,
       let w := run env {| classes := cs; show := false; done := dn |} es
                  (transition None cs false dn).2 in
       node w = None ∧ done_calls w = 0 ∧ uncaught w = [])
  ∧ (∀ env c w,
       waitForTransition env c (with_node None w)
       = (Normal dispose_wait, with_node None w))
  ∧ (∀ tokens,
       addClasses None tokens = Normal None
       ∧ removeClasses None tokens = Normal None)
  ∧ (∀ n, addClasses n [] = Normal n ∧ removeClasses n [] = Normal n).
Proof.
  split_and!.
  - done.
  - intros env cs dn es w.
    assert (null_quiet w) as (?&?&?&?&?&?&?).
    { apply null_quiet_run. vm_compute. tauto. }
    done.
  - done.
  - done.
  - intros [el|]; done.
Qed.

(** Counterexample to C9 as stated: with [show = true], [transition] on no
    node throws a TypeError. *)
Lemma transition_null_node_throws_when_entering :
  (transition None sample_classes true true).1
  = Throw (TypeError
             "Cannot read properties of null (reading 'removeAttribute')").
Proof. reflexivity. Qed.

(** ** The resolved duration *)

Section resolved.
Implicit Types (l : list Number) (x y : Number) (v value : string).

(** What the code sorts has no exponent below the least one. *)
Lemma parseFloat_above_emin v : above_emin (parseFloat v).
Proof.
  unfold parseFloat.
  destruct (take_sign _) as [neg s1].
  destruct (take_digits s1 _ _) as [[int_part int_count] s2].
  destruct (match s2 with String "." _ => _ | _ => _ end)
    as [[mantissa frac_count] s3].
  assert (above_emin
            match (int_count + frac_count)%nat with
            | O => if String.prefix "Infinity" s1 then Infinity else NaN
            | S _ => Num (scale10 mantissa
                            (take_exponent s3 - Z.of_nat frac_count))
            end) as H.
  { destruct (int_count + frac_count)%nat; [by destruct (String.prefix _ _)|].
    apply Num_above_emin. }
  destruct neg; [by apply number_neg_above_emin|done].
Qed.

Lemma to_milliseconds_above_emin v : above_emin (to_milliseconds v).
Proof.
  unfold to_milliseconds. destruct (includes "ms" v).
  - apply parseFloat_above_emin.
  - apply number_mul_above_emin.
Qed.

Lemma milliseconds_above_emin value x :
  x ∈ milliseconds value → above_emin x.
Proof.
  unfold milliseconds.
  induction (List.filter string_truthy (split "," value)) as [|v vs IH];
    cbn [map]; [by intros ?%elem_of_nil|].
  intros [->|?]%elem_of_cons; [apply to_milliseconds_above_emin|by apply IH].
Qed.

Lemma sort_insert_head x sorted l :
  x ≠ NaN → above_emin x →
  (∀ y, y ∈ l → y ≠ NaN ∧ above_emin y) →
  head_is_largest sorted l →
  head_is_largest (sort_insert descending x sorted) (x :: l).
Proof.
  intros Hx Ex Hl.
  destruct sorted as [|first rest]; cbn [sort_insert head_is_largest].
  - intros ->. split; [rewrite elem_of_cons; by left|].
    intros y ->%list_elem_of_singleton. by apply number_le_refl.
  - intros [Hin Hmax]. destruct (Hl first Hin) as [Hf Ef].
    pose proof (difference_sign x first Hx Hf Ex Ef) as Hsign.
    unfold descending.
    destruct (number_is_positive (number_sub first x));
      cbn [head_is_largest].
    + split; [rewrite elem_of_cons; by right|].
      intros y [->|Hy]%elem_of_cons; [done|by apply Hmax].
    + split; [rewrite elem_of_cons; by left|].
      intros y [->|Hy]%elem_of_cons; [by apply number_le_refl|].
      eapply number_le_trans; [by apply Hmax|done].
Qed.

Lemma array_sort_head l :
  (∀ x, x ∈ l → x ≠ NaN ∧ above_emin x) →
  head_is_largest (array_sort descending l) l.
Proof.
  induction l as [|x l IH]; intros Hl; [done|].
  assert (∀ y, y ∈ l → y ≠ NaN ∧ above_emin y) as Hl'.
  { intros y Hy. apply Hl. rewrite elem_of_cons. by right. }
  destruct (Hl x) as [Hx Ex]; [rewrite elem_of_cons; by left|].
  by apply sort_insert_head, IH.
Qed.

Lemma resolvedValue_largest value :
  (∀ x, x ∈ milliseconds value → x ≠ NaN) →
  largest_or_zero (resolvedValue value) (milliseconds value).
Proof.
  intros Hl.
  assert (head_is_largest (array_sort descending (milliseconds value))
            (milliseconds value)) as Hhead.
  { apply array_sort_head. intros x Hx. split; [by apply Hl|].
    by eapply milliseconds_above_emin. }
  unfold resolvedValue. fold (milliseconds value).
  destruct (array_sort descending (milliseconds value)) as [|first rest];
    cbn [head_is_largest] in Hhead.
  - by left.
  - by right.
Qed.

End resolved.


(** ** Rendered time values read back *)

Section rendered.
Implicit Types (ds : list nat) (t : TimeValue) (ts : list TimeValue)
  (s rest : string) (c : ascii).

Lemma digit_of_ascii_digit_char d :
  d < 10 → digit_of_ascii (digit_char d) = Some (Z.of_nat d).
Proof. intros H. digit_cases d; reflexivity. Qed.

Lemma digit_char_plain d :
  d < 10 →
  is_js_whitespace (digit_char d) = false
  ∧ ascii_eqb (digit_char d) "," = false
  ∧ ascii_eqb (digit_char d) "m" = false
  ∧ ∀ rest, take_sign (String (digit_char d) rest)
            = (false, String (digit_char d) rest).
Proof. intros H. digit_cases d; split_and!; reflexivity. Qed.

Lemma append_empty s : EmptyString +:+ s = s.
Proof. reflexivity. Qed.

Lemma append_String c s rest : String c s +:+ rest = String c (s +:+ rest).
Proof. reflexivity. Qed.

Lemma append_assoc s1 s2 s3 : (s1 +:+ s2) +:+ s3 = s1 +:+ (s2 +:+ s3).
Proof.
  induction s1 as [|c s1 IH]; [done|]. by rewrite !append_String, IH.
Qed.

Lemma take_digits_digits ds acc n rest :
  Forall (λ d, d < 10) ds → no_digit_ahead rest →
  take_digits (digits_string ds +:+ rest) acc n
  = (digits_value acc ds, (n + length ds)%nat, rest).
Proof.
  intros Hds Hrest. revert acc n.
  induction Hds as [|d ds Hd Hds IH]; intros acc n;
    cbn [digits_string digits_value length];
    rewrite ?append_empty, ?append_String; cbn [take_digits].
  - rewrite Nat.add_0_r. destruct rest as [|c rest]; [done|].
    cbn [take_digits no_digit_ahead] in *. by rewrite Hrest.
  - rewrite digit_of_ascii_digit_char by done. rewrite IH.
    by rewrite Nat.add_succ_r.
Qed.

Lemma digits_value_app ds1 ds2 acc :
  digits_value acc (ds1 ++ ds2) = digits_value (digits_value acc ds1) ds2.
Proof. revert acc. induction ds1 as [|d ds1 IH]; intros acc; simpl; [done|]. apply IH. Qed.


Lemma render_time_parts t :
  render_time t
  = (if time_negative t then "-" else "")
    +:+ (digits_string (time_integer t) +:+ fraction_and_unit t).
Proof. reflexivity. Qed.

Lemma no_digit_ahead_fraction_and_unit t : no_digit_ahead (fraction_and_unit t).
Proof.
  unfold fraction_and_unit.
  destruct (time_fraction t), (time_in_ms t); reflexivity.
Qed.

Lemma unsigned_head t :
  time_well_formed t →
  ∃ c rest,
    digits_string (time_integer t) +:+ fraction_and_unit t = String c rest
    ∧ is_js_whitespace c = false
    ∧ take_sign (String c rest) = (false, String c rest).
Proof.
  intros (Hi & Hf & Hne). destruct (time_integer t) as [|d ds] eqn:Hint.
  - destruct Hne as [?|Hne]; [done|]. unfold fraction_and_unit.
    destruct (time_fraction t) as [|f fs]; [done|].
    rewrite append_empty, append_String. by eexists _, _.
  - apply Forall_cons in Hi as [Hd _].
    destruct (digit_char_plain d Hd) as (Hw & _ & _ & Hs).
    cbn [digits_string]. rewrite append_String. by eexists _, _.
Qed.

Lemma parseFloat_render_time t :
  time_well_formed t → parseFloat (render_time t) = time_number t.
Proof.
  intros Hwf. pose proof Hwf as (Hi & Hf & Hne).
  destruct (unsigned_head t Hwf) as (c & rest & Hhead & Hw & Hsign).
  assert (take_sign (skip_whitespace (render_time t))
          = (time_negative t,
             digits_string (time_integer t) +:+ fraction_and_unit t)) as Hs.
  { rewrite render_time_parts, Hhead. destruct (time_negative t).
    - reflexivity.
    - rewrite append_empty. cbn [skip_whitespace]. by rewrite Hw, Hsign. }
  unfold parseFloat. rewrite Hs.
  rewrite take_digits_digits
    by (done || apply no_digit_ahead_fraction_and_unit).
  unfold time_number, fraction_and_unit.
  destruct (time_fraction t) as [|f fs] eqn:Hfrac.
  - rewrite append_empty, app_nil_r.
    destruct (time_integer t) as [|d ds] eqn:Hint; [by destruct Hne|].
    cbn [length Nat.add]. 
    assert (∀ unit, unit = "ms"%string ∨ unit = "s"%string →
            match unit with
            | String "." r => let '(m, total, s3) := take_digits r (digits_value 0 (d :: ds)) (S (length ds)) in (m, (total - S (length ds))%nat, s3)
            | _ => (digits_value 0 (d :: ds), 0%nat, unit)
            end = (digits_value 0 (d :: ds), 0%nat, unit)
            ∧ take_exponent unit = 0%Z) as Hunit.
    { by intros unit [-> | ->]. }
    destruct (Hunit (if time_in_ms t then "ms" else "s")%string) as [-> ->];
      [by destruct (time_in_ms t); [left|right]|].
    change (scale10 (digits_value 0 (d :: ds)) (0 - Z.of_nat 0))
      with (inject_Z (digits_value 0 (d :: ds) * 1)).
    rewrite Z.mul_1_r. reflexivity.
  - rewrite append_String.
    rewrite take_digits_digits
      by (done || by destruct (time_in_ms t)).
    replace (0 + length (time_integer t) + length (f :: fs)
             - (0 + length (time_integer t)))%nat
      with (length (f :: fs)) by lia.
    replace (0 + length (time_integer t) + length (f :: fs))%nat
      with (S (length (time_integer t) + length fs)) by (simpl; lia).
    assert (take_exponent (if time_in_ms t then "ms" else "s") = 0%Z) as ->
      by by destruct (time_in_ms t).
    rewrite <- digits_value_app. unfold scale10.
    assert ((0 <=? 0 - Z.of_nat (length (f :: fs)))%Z = false) as ->
      by (apply Z.leb_gt; simpl length; lia).
    by replace (- (0 - Z.of_nat (length (f :: fs))))%Z
      with (Z.of_nat (length (f :: fs))) by lia.
Qed.

Lemma string_has_append c s1 s2 :
  string_has c (s1 +:+ s2) = string_has c s1 || string_has c s2.
Proof.
  induction s1 as [|c' s1 IH]; [done|].
  rewrite append_String. cbn [string_has]. by rewrite IH, orb_assoc.
Qed.

Lemma string_has_digits c ds :
  Forall (λ d, d < 10) ds → (∀ d, d < 10 → ascii_eqb (digit_char d) c = false) →
  string_has c (digits_string ds) = false.
Proof.
  intros Hds Hc. induction Hds as [|d ds Hd Hds IH]; [done|].
  cbn [digits_string string_has]. by rewrite Hc, IH.
Qed.

Lemma render_time_has c t :
  time_well_formed t →
  (∀ d, d < 10 → ascii_eqb (digit_char d) c = false) →
  ascii_eqb "-" c = false → ascii_eqb "." c = false →
  ascii_eqb "s" c = false →
  string_has c (render_time t) = time_in_ms t && ascii_eqb "m" c.
Proof.
  intros (Hi & Hf & _) Hd Hminus Hdot Hs. unfold render_time.
  rewrite !string_has_append, (string_has_digits c _ Hi Hd).
  assert (string_has c (if time_negative t then "-" else "") = false) as ->.
  { destruct (time_negative t); [|done]. cbn [string_has]. by rewrite Hminus. }
  assert (string_has c match time_fraction t with
                       | [] => ""
                       | _ :: _ => String "." (digits_string (time_fraction t))
                       end = false) as ->.
  { destruct (time_fraction t) as [|f fs] eqn:Hfrac; [done|].
    cbn [string_has]. by rewrite Hdot, (string_has_digits c _ Hf Hd). }
  destruct (time_in_ms t); cbn [string_has orb andb].
  - by rewrite Hs, !orb_false_r.
  - by rewrite Hs.
Qed.

Lemma includes_without_first c sub s :
  string_has c s = false → includes (String c sub) s = false.
Proof.
  induction s as [|c' s IH]; [done|]. cbn [string_has includes String.prefix].
  intros [Hc Hs]%orb_false_elim. rewrite IH by done.
  destruct (ascii_dec c c') as [->|Hne]; [|done].
  unfold ascii_eqb in Hc. by rewrite Ascii.eqb_refl in Hc.
Qed.

Lemma prefix_itself s : String.prefix s s = true.
Proof.
  induction s as [|c s IH]; [done|]. cbn [String.prefix].
  by destruct (ascii_dec c c).
Qed.

Lemma includes_suffix sub s : includes sub (s +:+ sub) = true.
Proof.
  induction s as [|c s IH].
  - rewrite append_empty. destruct sub as [|c sub]; [done|].
    cbn [includes]. by rewrite prefix_itself.
  - rewrite append_String. cbn [includes]. rewrite IH. apply orb_true_r.
Qed.

Lemma includes_ms_render_time t :
  time_well_formed t → includes "ms" (render_time t) = time_in_ms t.
Proof.
  intros Hwf. destruct (time_in_ms t) eqn:Hms.
  - unfold render_time. rewrite Hms.
    rewrite <- !append_assoc. apply includes_suffix.
  - apply includes_without_first.
    rewrite render_time_has, Hms; try done.
    intros d Hd. by destruct (digit_char_plain d Hd) as (_ & _ & ? & _).
Qed.

(** A rendered value reads as what it amounts to in milliseconds. *)
Lemma to_milliseconds_render_time t :
  time_well_formed t →
  to_milliseconds (render_time t) = time_milliseconds t.
Proof.
  intros Hwf. unfold to_milliseconds, time_milliseconds.
  by rewrite includes_ms_render_time, parseFloat_render_time.
Qed.

Lemma time_number_not_nan t : time_number t ≠ NaN.
Proof.
  unfold time_number.
  pose proof (Num_not_nan
    (digits_value 0 (time_integer t ++ time_fraction t)
     # Z.to_pos (10 ^ Z.of_nat (length (time_fraction t))))) as H.
  destruct (time_negative t); [|done].
  by destruct (Num _).
Qed.

Lemma times_1000_not_nan (x : Number) :
  x ≠ NaN → number_mul x (Num 1000) ≠ NaN.
Proof.
  rewrite Num_1000. destruct x as [sx|sx| |sx mx ex]; try done.
  intros _. unfold number_mul. cbn [SFmul].
  by apply binary_round_aux_not_nan.
Qed.

Lemma time_milliseconds_not_nan t : time_milliseconds t ≠ NaN.
Proof.
  unfold time_milliseconds. destruct (time_in_ms t).
  - apply time_number_not_nan.
  - apply times_1000_not_nan, time_number_not_nan.
Qed.

Lemma to_milliseconds_after_space s :
  to_milliseconds (String " " s) = to_milliseconds s.
Proof. reflexivity. Qed.

Lemma split_without_separator sep s :
  string_has sep s = false → split sep s = [s].
Proof.
  induction s as [|c s IH]; [done|]. cbn [string_has split].
  intros [Hc Hs]%orb_false_elim. by rewrite Hc, IH.
Qed.

Lemma split_at_separator sep s rest :
  string_has sep s = false →
  split sep (s +:+ String sep rest) = s :: split sep rest.
Proof.
  induction s as [|c s IH].
  - intros _. rewrite append_empty. cbn [split]. unfold ascii_eqb.
    by rewrite Ascii.eqb_refl.
  - cbn [string_has]. intros [Hc Hs]%orb_false_elim.
    rewrite append_String. cbn [split]. by rewrite Hc, IH.
Qed.

Lemma render_time_no_comma t :
  time_well_formed t → string_has "," (render_time t) = false.
Proof.
  intros Hwf. rewrite render_time_has; try done.
  - apply andb_false_r.
  - intros d Hd. by destruct (digit_char_plain d Hd) as (_ & ? & _).
Qed.

Lemma render_time_truthy t : string_truthy (render_time t) = true.
Proof.
  unfold render_time.
  destruct (time_negative t); [done|]. rewrite append_empty.
  destruct (time_integer t); [|done]. rewrite append_empty.
  destruct (time_fraction t); [|done]. rewrite append_empty.
  by destruct (time_in_ms t).
Qed.

(** The pieces of a rendered list after the first: a space, then the
    value. *)
Lemma split_render_times_after t ts :
  Forall time_well_formed (t :: ts) →
  split "," (render_times (t :: ts))
  = render_time t :: map (λ t', String " " (render_time t')) ts.
Proof.
  revert t. induction ts as [|t' ts IH]; intros t [Ht Hts]%Forall_cons.
  - cbn [render_times map]. by rewrite split_without_separator
      by by apply render_time_no_comma.
  - change (render_times (t :: t' :: ts))
      with (render_time t +:+ String "," (String " " (render_times (t' :: ts)))).
    rewrite split_at_separator by by apply render_time_no_comma.
    f_equal.
    change (String " " (render_times (t' :: ts)))
      with (String " " EmptyString +:+ render_times (t' :: ts)).
    specialize (IH t' Hts).
    destruct (split "," (render_times (t' :: ts))) as [|piece pieces] eqn:Hsp;
      [done|].
    injection IH as -> ->.
    assert (∀ s, split "," s = render_time t' :: map (λ t', String " " (render_time t')) ts →
                 split "," (String " " s)
                 = String " " (render_time t')
                   :: map (λ t', String " " (render_time t')) ts) as Hsplit.
    { intros s Hs. cbn [split]. by rewrite Hs. }
    by apply Hsplit.
Qed.

Lemma milliseconds_render_times ts :
  Forall time_well_formed ts →
  milliseconds (render_times ts)
  = map (λ t, to_milliseconds (render_time t)) ts.
Proof.
  intros Hts. unfold milliseconds. destruct ts as [|t ts]; [done|].
  rewrite split_render_times_after by done.
  cbn [List.filter map]. rewrite render_time_truthy. cbn [map]. f_equal.
  clear Hts. induction ts as [|t' ts IH]; [done|].
  cbn [List.filter map string_truthy]. by rewrite IH.
Qed.

Lemma milliseconds_of_times ts :
  Forall time_well_formed ts →
  milliseconds (render_times ts) = map time_milliseconds ts.
Proof.
  intros Hts. rewrite milliseconds_render_times by done.
  induction Hts as [|t ts Ht Hts IH]; [done|]. cbn [map].
  by rewrite to_milliseconds_render_time, IH.
Qed.

(** The resolved value of a rendered list is the largest of its values in
    milliseconds, or 0 for the empty list. *)
Lemma resolvedValue_render_times ts :
  Forall time_well_formed ts →
  largest_time_or_zero (resolvedValue (render_times ts)) ts.
Proof.
  intros Hts.
  assert (∀ x, x ∈ map time_milliseconds ts ↔
               ∃ t, t ∈ ts ∧ x = time_milliseconds t) as Hread.
  { intros x. clear Hts. induction ts as [|t ts IH]; cbn [map].
    - split; [by intros ?%elem_of_nil|by intros (? & ?%elem_of_nil & _)].
    - rewrite elem_of_cons, IH. split.
      + intros [->|(t' & Ht' & ->)].
        * exists t. split; [rewrite elem_of_cons; by left|done].
        * exists t'. split; [rewrite elem_of_cons; by right|done].
      + intros (t' & [->|Ht']%elem_of_cons & ->); [by left|].
        right. by exists t'. }
  destruct (resolvedValue_largest (render_times ts)) as [[Hnil Hr]|[Hin Hmax]].
  { intros x. rewrite milliseconds_of_times, Hread by done.
    intros (t & _ & ->). apply time_milliseconds_not_nan. }
  - left. split; [|done].
    rewrite milliseconds_of_times in Hnil by done. by destruct ts.
  - rewrite milliseconds_of_times in Hin, Hmax by done. right. split.
    + by apply Hread.
    + intros t Ht. apply Hmax, Hread. by exists t.
Qed.

End rendered.

(** C8. First, for every computed style whose [transition-duration] and
    [transition-delay] are comma-separated lists in which each non-empty
    piece reads as a number: each property resolves to the numerically
    largest of its pieces' values in milliseconds (a piece that contains
    [ms] counts as it reads, any other is multiplied by 1000), or to 0 when
    the list has no piece, and the total is the sum of the two resolved
    values. Second, for lists of well-formed time values in seconds or
    milliseconds as the browser serialises them: each property resolves to
    the largest of the values, seconds converted to milliseconds, or to 0
    for the empty list, and the total is the sum. The numbers are doubles:
    values are read, multiplied by 1000 and added as JavaScript does, and
    compared by their real values. *)
Theorem total_is_sum_of_largest_values :
  (∀ cs : ComputedStyle,
     (∀ x, x ∈ milliseconds (transitionDuration cs) → x ≠ NaN) →
     (∀ x, x ∈ milliseconds (transitionDelay cs) → x ≠ NaN) →
     ∃ duration delay : Number,
       resolvedValue (transitionDuration cs) = duration
       ∧ largest_or_zero duration (milliseconds (transitionDuration cs))
       ∧ resolvedValue (transitionDelay cs) = delay
       ∧ largest_or_zero delay (milliseconds (transitionDelay cs))
       ∧ totalDuration cs = number_add duration delay)
  ∧ (∀ durations delays : list TimeValue,
       Forall time_well_formed durations → Forall time_well_formed delays →
       ∃ duration delay : Number,
         resolvedValue (render_times durations) = duration
         ∧ largest_time_or_zero duration durations
         ∧ resolvedValue (render_times delays) = delay
         ∧ largest_time_or_zero delay delays
         ∧ totalDuration {| transitionDuration := render_times durations;
                            transitionDelay := render_times delays |}
           = number_add duration delay).
Proof.
  split.
  - intros cs Hd Hl. eexists _, _. split_and!; try done.
    + by apply resolvedValue_largest.
    + by apply resolvedValue_largest.
  - intros durations delays Hd Hl. eexists _, _. split_and!; try done.
    + by apply resolvedValue_render_times.
    + by apply resolvedValue_render_times.
Qed.

Lemma sample_durations_well_formed : Forall time_well_formed sample_durations.
Proof.
  repeat apply Forall_cons_2; [| |apply Forall_nil_2];
    (split_and!; [repeat constructor; lia..|]); [by left|by left].
Qed.

(** Witness for C8: 0.3 s against 75 ms, and no delay at all. *)
Lemma total_is_sum_of_largest_values_witness :
  ∃ duration delay : Number,
    totalDuration {| transitionDuration := "0.3s, 75ms";
                     transitionDelay := "" |}
    = number_add duration delay
    ∧ duration = Num 300 ∧ delay = Num 0.
Proof.
  destruct (proj2 total_is_sum_of_largest_values sample_durations []
              sample_durations_well_formed (Forall_nil_2 _))
    as (d & l & Hd & _ & Hl & _ & Ht).
  exists d, l. split; [exact Ht|].
  rewrite <- Hd, <- Hl. split; vm_compute; reflexivity.
Defined.

Example parseFloat_seconds : parseFloat "0.3s" = Num (3 # 10).
Proof. vm_compute. reflexivity. Qed.

Example parseFloat_after_comma : parseFloat " 75ms" = Num 75.
Proof. vm_compute. reflexivity. Qed.

Example parseFloat_exponent : parseFloat "1e-3s" = Num (1 # 1000).
Proof. vm_compute. reflexivity. Qed.

Example parseFloat_not_a_number : parseFloat "s" = NaN.
Proof. vm_compute. reflexivity. Qed.

Example parseFloat_negative_zero : parseFloat "-0s" = S754_zero true.
Proof. vm_compute. reflexivity. Qed.

Example parseFloat_infinity : parseFloat "Infinitys" = Infinity.
Proof. vm_compute. reflexivity. Qed.

Example parseFloat_overflow : parseFloat "1e400s" = Infinity.
Proof. vm_compute. reflexivity. Qed.

(** Seconds are scaled as doubles are: [1.001s] is 1000.9999999999999
    milliseconds, not 1001. *)
Example seconds_are_scaled_in_double_arithmetic :
  to_milliseconds "1.001s" = Num (10009999999999999 # 10000000000000)
  ∧ number_strict_ne (to_milliseconds "1.001s") (Num 1001) = true.
Proof. vm_compute. done. Qed.

Example three_tenths_of_a_second : to_milliseconds "0.3s" = Num 300.
Proof. vm_compute. reflexivity. Qed.

(** [Num] rounds to the nearest double, ties to even: one tenth; the least
    subnormal; half of it, which rounds to zero; [2^53 + 1], which rounds to
    [2^53]; and the first integer that rounds to infinity. *)
Example nearest_doubles :
  Num (1 # 10) = S754_finite false 7205759403792794 (-56)
  ∧ Num (5 # 10 ^ 324) = S754_finite false 1 (-1074)
  ∧ Num (1 # 2 ^ 1075) = S754_zero false
  ∧ Num (inject_Z (2 ^ 53 + 1)) = Num (inject_Z (2 ^ 53))
  ∧ Num (inject_Z (2 ^ 1024 - 2 ^ 970)) = Infinity
  ∧ Num (inject_Z (2 ^ 1024 - 2 ^ 970 - 1))
    = S754_finite false 9007199254740991 971.
Proof. vm_compute. done. Qed.

Example sum_of_doubles :
  number_add (Num (1 # 10)) (Num (2 # 10))
  = Num (30000000000000004 # 100000000000000000).
Proof. vm_compute. reflexivity. Qed.

Example split_computed_list :
  split "," "0.3s, 0.15s" = ["0.3s"; " 0.15s"].
Proof. reflexivity. Qed.

Example resolved_of_empty : resolvedValue "" = Num 0.
Proof. vm_compute. reflexivity. Qed.

Example render_sample_durations : render_times sample_durations = "0.3s, 75ms".
Proof. reflexivity. Qed.

(** ** The claims about the Dialog *)

Section dialog.
Implicit Types (d : Dialog) (p : Props) (e : DialogEvent)
  (es : list DialogEvent).

Lemma strict_eq_Missing v :
  strict_eq v (VString Missing) = true ↔ v = VString Missing.
Proof.
  destruct v; simpl; try (split; [discriminate|discriminate]).
  rewrite String.eqb_eq. split; [by intros ->|by intros [= ->]].
Qed.

(** C3. Setup without an [open] prop and without an ambient open/closed
    context throws the "forgot" Error; setup whose resolved [open] is not a
    boolean throws; setup with a boolean [open] prop, or with no [open]
    prop and an ambient context, returns normally; and setup throws in no
    other case. The throw is the completion of the setup call itself. *)
Theorem setup_validates_open :
  (∀ hasParent,
     setup {| props_open := VString Missing |} None hasParent
     = Throw (Error forgot_open))
  ∧ (∀ p ambient hasParent,
       is_boolean (resolve_open p ambient) = false →
       is_throw (setup p ambient hasParent) = true)
  ∧ (∀ b ambient hasParent,
       is_normal (setup {| props_open := VBoolean b |} ambient hasParent)
       = true)
  ∧ (∀ s hasParent,
       is_normal (setup {| props_open := VString Missing |} (Some s) hasParent)
       = true)
  ∧ (∀ p ambient hasParent,
       is_throw (setup p ambient hasParent) = true →
       (props_open p = VString Missing ∧ ambient = None)
       ∨ is_boolean (resolve_open p ambient) = false).
Proof.
  split_and!.
  - done.
  - intros p ambient hasParent Hb. unfold setup. rewrite Hb.
    destruct (negb _); [done|]. by destruct (not_a_boolean p ambient).
  - intros b [[]|] hasParent; done.
  - intros [] hasParent; done.
  - intros p ambient hasParent. unfold setup.
    destruct (strict_eq (props_open p) (VString Missing)) eqn:Hm.
    + apply strict_eq_Missing in Hm. destruct ambient as [s|]; simpl.
      * destruct (is_boolean _); [done|by right].
      * by left.
    + simpl. destruct (is_boolean _); [done|by right].
Qed.

(** Witness for C3: a string where a boolean is expected, under an ambient
    context. *)
Lemma setup_validates_open_witness :
  is_throw (setup {| props_open := VString "yes" |} (Some State.Open) false)
  = true.
Proof.
  exact (proj1 (proj2 setup_validates_open)
           {| props_open := VString "yes" |} (Some State.Open) false eq_refl).
Defined.

Lemma ready_on_keydown event d : ready (on_keydown event d).2 = ready d.
Proof.
  unfold on_keydown.
  repeat (match goal with |- context [if ?b then _ else _] => destruct b end);
    done.
Qed.

Lemma ready_step e d :
  ready (dialog_step e d)
  = ready d || match e with Mounted => true | _ => false end.
Proof.
  destruct e; simpl; rewrite ?orb_false_r, ?orb_true_r; try done.
  - by destruct (usesOpenClosedState d).
  - unfold onUpdate. destruct (negb _); [done|]. by destruct message.
  - unfold setTitleId. by destruct (decide _).
  - apply ready_on_keydown.
  - unfold on_click. by destruct (outside_click_fires _ _ _ _).
Qed.

Lemma mounted_among es :
  existsb (λ e, match e with Mounted => true | _ => false end) es = true
  ↔ Mounted ∈ es.
Proof.
  induction es as [|e es IH]; simpl.
  - rewrite elem_of_nil. split; [discriminate|done].
  - rewrite elem_of_cons, orb_true_iff, IH.
    destruct e; split; intros [H|H]; try discriminate H; tauto.
Qed.

Lemma ready_run es d :
  ready (dialog_run es d)
  = ready d || existsb (λ e, match e with Mounted => true | _ => false end) es.
Proof.
  revert d. unfold dialog_run.
  induction es as [|e es IH]; intros d; simpl; [by rewrite orb_false_r|].
  by rewrite IH, ready_step, orb_assoc.
Qed.

(** C4. For every Dialog that setup has created and every sequence of
    events it then goes through: as long as the mounted hook has not run,
    [dialogState] is Closed, whatever [open] resolves to; once it has run,
    [dialogState] is Open exactly when the resolved [open], a boolean, is
    true; and [enabled] is true exactly when [dialogState] is Open. *)
Theorem dialogState_closed_until_mounted_then_open
    (p : Props) (ambient : option State.t) (hasParent : bool)
    (d0 : Dialog) (es : list DialogEvent) :
  setup p ambient hasParent = Normal d0 →
  (Mounted ∉ es → dialogState (dialog_run es d0) = DialogStates.Closed)
  ∧ (Mounted ∈ es → ∀ b, open (dialog_run es d0) = VBoolean b →
       (dialogState (dialog_run es d0) = DialogStates.Open ↔ b = true))
  ∧ (enabled (dialog_run es d0) = true
     ↔ dialogState (dialog_run es d0) = DialogStates.Open).
Proof.
  intros Hs. assert (ready d0 = false) as Hr0.
  { unfold setup in Hs. destruct (negb _); [done|].
    destruct (negb _); [by destruct (not_a_boolean _ _)|]. by injection Hs as <-. }
  pose proof (ready_run es d0) as Hr. rewrite Hr0 in Hr. simpl in Hr.
  split_and!.
  - intros H. unfold dialogState. rewrite Hr.
    rewrite <- mounted_among in H. by apply not_true_is_false in H as ->.
  - intros H b Hb. unfold dialogState. rewrite Hr.
    apply mounted_among in H as ->. rewrite Hb. simpl.
    destruct b; split; done.
  - unfold enabled. apply bool_decide_eq_true.
Qed.

(** Witness for C4: a Dialog with [open = true], mounted and then closed by
    its host. *)
Lemma dialogState_closed_until_mounted_then_open_witness :
  dialogState
    (dialog_run [Mounted; PropsChanged {| props_open := VBoolean false |}]
       sample_dialog)
  ≠ DialogStates.Open.
Proof.
  intros H.
  assert (false = true); [|done].
  apply (proj1 (proj2 (dialogState_closed_until_mounted_then_open
                         {| props_open := VBoolean true |} None false
                         sample_dialog
                         [Mounted;
                          PropsChanged {| props_open := VBoolean false |}]
                         eq_refl))); [|done|done].
  rewrite elem_of_cons. by left.
Defined.

(** *** Inside and outside the Dialog *)

Section outside_the_dialog.
Implicit Types (t : Tree) (target : nat).

Lemma forallb_none_holds t target (l : list (option nat)) :
  forallb (λ c, match c with
                | Some container => negb (contains t container target)
                | None => true
                end) l
  = negb (existsb (λ c, match c with
                        | Some container => contains t container target
                        | None => false
                        end) l).
Proof.
  induction l as [|[c|] l IH]; simpl; [done| |done].
  rewrite IH. by destruct (contains t c target).
Qed.

Lemma existsb_false {A : Type} (f : A → bool) (l : list A) :
  existsb f l = false ↔ ∀ x, x ∈ l → f x = false.
Proof.
  induction l as [|x l IH]; simpl.
  - split; [|done]. intros _ x Hx. by apply elem_of_nil in Hx.
  - rewrite orb_false_iff, IH. split.
    + intros [Hx Hl] y [->|Hy]%elem_of_cons; [done|by apply Hl].
    + intros H. split; [apply H; rewrite elem_of_cons; by left|].
      intros y Hy. apply H. rewrite elem_of_cons. by right.
Qed.

(** No allowed container holds the target exactly when the target is
    outside. *)
Lemma allowed_containers_outside t d target :
  existsb (λ c, match c with
                | Some container => contains t container target
                | None => false
                end) (resolveAllowedContainers t d) = false
  ↔ outside t d target.
Proof.
  unfold resolveAllowedContainers, outside, own_container.
  rewrite existsb_app.
  rewrite orb_false_iff, !existsb_false. split.
  - intros [Hroots Hlast]. split.
    + intros el Hel. apply (Hlast (Some el)).
      rewrite list_elem_of_singleton.
      destruct (panelRef d); congruence.
    + intros c Hc Hin.
      destruct (contains_ref t c (mainTreeNode d)) eqn:Hmain; [by left|].
      right. unfold contains_ref.
      destruct (panelRef d) as [panel|] eqn:Hp.
      * destruct (contains t c panel) eqn:Hpanel; [done|].
        rewrite (Hroots (Some c)) in Hin; [done|].
        apply list_elem_of_fmap. exists c. split; [done|].
        apply list_elem_of_In, filter_In. split; [by apply list_elem_of_In|].
        by rewrite Hmain, Hpanel.
      * rewrite (Hroots (Some c)) in Hin; [done|].
        apply list_elem_of_fmap. exists c. split; [done|].
        apply list_elem_of_In, filter_In. split; [by apply list_elem_of_In|].
        by rewrite Hmain.
  - intros [Hlast Hroots]. split.
    + intros x (c & -> & Hc)%list_elem_of_fmap.
      apply list_elem_of_In, filter_In in Hc as [Hc Hkeep].
      apply list_elem_of_In in Hc.
      destruct (contains t c target) eqn:Hin; [|done].
      destruct (Hroots c Hc Hin) as [Hmain|Hpanel].
      * by rewrite Hmain in Hkeep.
      * destruct (contains_ref t c (mainTreeNode d)); [done|].
        unfold contains_ref in Hpanel.
        destruct (panelRef d); [by rewrite Hpanel in Hkeep|done].
    + intros x ->%list_elem_of_singleton.
      destruct (panelRef d) as [panel|] eqn:Hp.
      * by apply Hlast.
      * destruct (internalDialogRef d) as [root|] eqn:Hr; [by apply Hlast|done].
Qed.

Lemma outside_click_fires_outside t d target :
  outside_click_fires t (resolveAllowedContainers t d)
    (outside_click_enabled d) target = true
  ↔ dialogState d = DialogStates.Open ∧ hasNestedDialogs d = false
    ∧ outside t d target.
Proof.
  unfold outside_click_fires, outside_click_enabled.
  rewrite <- allowed_containers_outside.
  rewrite forallb_none_holds.
  rewrite !andb_true_iff, bool_decide_eq_true, !negb_true_iff. tauto.
Qed.

Lemma inside_the_panel t d target panel :
  panelRef d = Some panel → contains t panel target = true →
  ¬ outside t d target.
Proof.
  intros Hp Hin [Hlast _]. unfold own_container in Hlast.
  rewrite Hp in Hlast. by rewrite (Hlast panel eq_refl) in Hin.
Qed.

Lemma inside_the_root t d target root :
  panelRef d = None → internalDialogRef d = Some root →
  contains t root target = true → ¬ outside t d target.
Proof.
  intros Hp Hr Hin [Hlast _]. unfold own_container in Hlast.
  rewrite Hp in Hlast. by rewrite (Hlast root Hr) in Hin.
Qed.

End outside_the_dialog.

(** C5. For every Dialog that setup has created and every sequence of
    events it then goes through: its position is [leaf] exactly when its
    nested-dialog count is at most 1 and [parent] otherwise. Unless it is
    both open and [leaf], the Escape listener leaves the keydown event
    and the instance as they are (no preventDefault, no stopPropagation,
    no close), and a click, wherever it lands, leaves the instance as it
    is (no close, no focus request). The open leaf does react: a keydown
    closes it exactly when the event has not been default-prevented and
    its key is Escape, the listener then preventing the default, stopping
    the propagation and calling [close()]; and a click closes it exactly
    when the target is outside (in no allowed container), [close()] being
    called and the focus asked to go to the target. A click inside the
    panel (inside the root element, when there is no panel) closes
    nothing. *)
Theorem only_open_leaf_reacts
    (p : Props) (ambient : option State.t) (hasParent : bool)
    (d0 : Dialog) (es : list DialogEvent) :
  setup p ambient hasParent = Normal d0 →
  let d := dialog_run es d0 in
  (position d = leaf ↔ (nestedDialogCount d <= 1)%Z)
  ∧ (position d = parent ↔ (1 < nestedDialogCount d)%Z)
  ∧ (¬ (dialogState d = DialogStates.Open ∧ position d = leaf) →
     (∀ event, on_keydown event d = (event, d))
     ∧ (∀ t target, on_click t target d = d))
  ∧ (∀ event,
       let reacts :=
         defaultPrevented event = false ∧ key event = "Escape"%string
         ∧ dialogState d = DialogStates.Open ∧ position d = leaf in
       (reacts →
        on_keydown event d
        = ({| key := key event; defaultPrevented := true;
              propagationStopped := true |}, close d))
       ∧ (¬ reacts → on_keydown event d = (event, d))
       ∧ (emitted (on_keydown event d).2 ≠ emitted d → reacts))
  ∧ (∀ t target,
       (existsb (λ c, match c with
                      | Some container => contains t container target
                      | None => false
                      end) (resolveAllowedContainers t d) = false
        ↔ outside t d target)
       ∧ (dialogState d = DialogStates.Open ∧ position d = leaf
          ∧ outside t d target →
          on_click t target d = nextTick_focus target (close d))
       ∧ (¬ (dialogState d = DialogStates.Open ∧ position d = leaf
             ∧ outside t d target) →
          on_click t target d = d)
       ∧ (emitted (on_click t target d) ≠ emitted d →
          dialogState d = DialogStates.Open ∧ position d = leaf
          ∧ outside t d target)
       ∧ (∀ panel, panelRef d = Some panel → contains t panel target = true →
                   on_click t target d = d)
       ∧ (∀ root, panelRef d = None → internalDialogRef d = Some root →
                  contains t root target = true → on_click t target d = d)).
Proof.
  intros _ d.
  assert (position d = leaf ↔ hasNestedDialogs d = false) as Hleaf.
  { unfold position. by destruct (hasNestedDialogs d). }
  assert (position d = parent ↔ hasNestedDialogs d = true) as Hparent.
  { unfold position. by destruct (hasNestedDialogs d). }
  assert (∀ event,
            on_keydown event d
            = if negb (defaultPrevented event)
                 && String.eqb (key event) "Escape"
                 && bool_decide (dialogState d = DialogStates.Open)
                 && negb (hasNestedDialogs d)
              then ({| key := key event; defaultPrevented := true;
                       propagationStopped := true |}, close d)
              else (event, d)) as Hkey.
  { intros event. unfold on_keydown, Keys_Escape.
    destruct (defaultPrevented event); [done|].
    destruct (String.eqb (key event) "Escape"); [|done].
    destruct (bool_decide (dialogState d = DialogStates.Open)); [|done].
    by destruct (hasNestedDialogs d). }
  assert (∀ event,
            negb (defaultPrevented event)
            && String.eqb (key event) "Escape"
            && bool_decide (dialogState d = DialogStates.Open)
            && negb (hasNestedDialogs d) = true
            ↔ defaultPrevented event = false ∧ key event = "Escape"%string
              ∧ dialogState d = DialogStates.Open ∧ position d = leaf)
    as Hreacts.
  { intros event.
    rewrite !andb_true_iff, !negb_true_iff, String.eqb_eq,
      bool_decide_eq_true, Hleaf. tauto. }
  assert (∀ t target,
            on_click t target d
            = if outside_click_fires t (resolveAllowedContainers t d)
                   (outside_click_enabled d) target
              then nextTick_focus target (close d) else d) as Hclick
    by done.
  assert (∀ t target,
            outside_click_fires t (resolveAllowedContainers t d)
              (outside_click_enabled d) target = true
            ↔ dialogState d = DialogStates.Open ∧ position d = leaf
              ∧ outside t d target) as Hfires.
  { intros t target. rewrite outside_click_fires_outside, Hleaf. tauto. }
  assert (∀ t target,
            ¬ (dialogState d = DialogStates.Open ∧ position d = leaf
               ∧ outside t d target) →
            on_click t target d = d) as Hclick_no.
  { intros t target Hn. rewrite Hclick.
    destruct (outside_click_fires _ _ _ _) eqn:Hf; [|done].
    by apply Hfires in Hf. }
  assert (∀ event,
            ¬ (defaultPrevented event = false ∧ key event = "Escape"%string
               ∧ dialogState d = DialogStates.Open ∧ position d = leaf) →
            on_keydown event d = (event, d)) as Hkey_no.
  { intros event Hn. rewrite Hkey.
    destruct (_ && _) eqn:Hr; [|done]. by apply Hreacts in Hr. }
  split_and!.
  - rewrite Hleaf. unfold hasNestedDialogs. apply Z.ltb_ge.
  - rewrite Hparent. unfold hasNestedDialogs. apply Z.ltb_lt.
  - intros Hno. split.
    + intros event. apply Hkey_no. tauto.
    + intros t target. apply Hclick_no. tauto.
  - intros event reacts. subst reacts. split_and!.
    + intros Hr. rewrite Hkey. by rewrite (proj2 (Hreacts event) Hr).
    + apply Hkey_no.
    + intros Hemit. rewrite Hkey in Hemit.
      destruct (_ && _) eqn:Hr; [by apply Hreacts|done].
  - intros t target. split_and!.
    + apply allowed_containers_outside.
    + intros Hr. rewrite Hclick. by rewrite (proj2 (Hfires t target) Hr).
    + apply Hclick_no.
    + intros Hemit. rewrite Hclick in Hemit.
      destruct (outside_click_fires _ _ _ _) eqn:Hf; [by apply Hfires|done].
    + intros panel Hp Hin. apply Hclick_no. intros (_ & _ & Hout).
      by apply (inside_the_panel t d target panel).
    + intros root Hp Hr Hin. apply Hclick_no. intros (_ & _ & Hout).
      by apply (inside_the_root t d target root).
Qed.

(** Witness for C5: of two Dialogs that are open, one inside the other, the
    outer one ignores Escape and the inner one closes on it. *)
Lemma only_open_leaf_reacts_witness :
  on_keydown
    {| key := "Escape"; defaultPrevented := false; propagationStopped := false |}
    (dialog_run [Mounted; StackUpdate Add "Dialog" 1; StackUpdate Add "Dialog" 2]
       sample_dialog)
  = ({| key := "Escape"; defaultPrevented := false;
        propagationStopped := false |},
     dialog_run [Mounted; StackUpdate Add "Dialog" 1; StackUpdate Add "Dialog" 2]
       sample_dialog)
  ∧ on_keydown
      {| key := "Escape"; defaultPrevented := false;
         propagationStopped := false |}
      (dialog_run [Mounted; StackUpdate Add "Dialog" 1] sample_dialog)
    = ({| key := "Escape"; defaultPrevented := true;
          propagationStopped := true |},
       close (dialog_run [Mounted; StackUpdate Add "Dialog" 1] sample_dialog)).
Proof.
  split.
  - refine (proj1 (proj1 (proj2 (proj2
              (only_open_leaf_reacts {| props_open := VBoolean true |} None
                 false sample_dialog
                 [Mounted; StackUpdate Add "Dialog" 1;
                  StackUpdate Add "Dialog" 2] eq_refl))) _) _).
    intros [_ [=]].
  - refine (proj1 (proj1 (proj2 (proj2 (proj2
              (only_open_leaf_reacts {| props_open := VBoolean true |} None
                 false sample_dialog [Mounted; StackUpdate Add "Dialog" 1]
                 eq_refl))))
              {| key := "Escape"; defaultPrevented := false;
                 propagationStopped := false |}) _).
    by split_and!.
Defined.

Example open_leaf_closes_on_escape :
  on_keydown
    {| key := "Escape"; defaultPrevented := false; propagationStopped := false |}
    (dialog_run [Mounted; StackUpdate Add "Dialog" 1] sample_dialog)
  = ({| key := "Escape"; defaultPrevented := true;
        propagationStopped := true |},
     close (dialog_run [Mounted; StackUpdate Add "Dialog" 1] sample_dialog)).
Proof. reflexivity. Qed.

(** [dialogState] reads the mounted flag, the props and the ambient signal
    only. *)
Lemma dialogState_same d d' :
  ready d' = ready d → props d' = props d →
  usesOpenClosedState d' = usesOpenClosedState d →
  dialogState d' = dialogState d.
Proof. intros Hr Hp Ha. unfold dialogState, open. by rewrite Hr, Hp, Ha. Qed.

Lemma dialogState_close d : dialogState (close d) = dialogState d.
Proof. by apply dialogState_same. Qed.

Lemma dialogState_step e d :
  dialogState (dialog_step e d) = dialogState d
  ∨ e = Mounted ∨ (∃ p, e = PropsChanged p) ∨ (∃ s, e = AmbientChanged s).
Proof.
  destruct e; simpl; try (by left); try (right; eauto; fail); left.
  - unfold onUpdate. destruct (negb _); [done|]. by destruct message.
  - unfold setTitleId. by destruct (decide _).
  - unfold on_keydown.
    by repeat (match goal with
               | |- context [if ?b then _ else _] => destruct b
               end).
  - unfold on_click. by destruct (outside_click_fires _ _ _ _).
Qed.

(** C10. Calling [close()] appends one ['close'] event with payload [false]
    to what the Dialog has emitted and changes nothing else: the props, the
    mounted flag, [dialogState], [titleId], [panelRef], the nested-dialog
    count and containers, the refs, the pending focus requests and the
    whole page, scroll-lock registry included, are as before. An open
    Dialog becomes Closed only through an event that changes what [open]
    resolves to: new props from the host, or a new ambient state. *)
Theorem close_only_emits (v : Viewport) (a : App) :
  let a' := app_step v (Component CloseCalled) a in
  emitted (dialog a') = emitted (dialog a) ++ [("close"%string, VBoolean false)]
  ∧ dialogState (dialog a') = dialogState (dialog a)
  ∧ props (dialog a') = props (dialog a)
  ∧ usesOpenClosedState (dialog a') = usesOpenClosedState (dialog a)
  ∧ ready (dialog a') = ready (dialog a)
  ∧ titleId (dialog a') = titleId (dialog a)
  ∧ panelRef (dialog a') = panelRef (dialog a)
  ∧ nestedDialogCount (dialog a') = nestedDialogCount (dialog a)
  ∧ containers (dialog a') = containers (dialog a)
  ∧ internalDialogRef (dialog a') = internalDialogRef (dialog a)
  ∧ mainTreeNode (dialog a') = mainTreeNode (dialog a)
  ∧ focus_on_nextTick (dialog a') = focus_on_nextTick (dialog a)
  ∧ page a' = page a
  ∧ (∀ e,
       dialogState (dialog a') = DialogStates.Open →
       dialogState (dialog_step e (dialog a')) = DialogStates.Closed →
       open (dialog_step e (dialog a')) ≠ open (dialog a')
       ∧ ((∃ p, e = PropsChanged p) ∨ (∃ s, e = AmbientChanged s))).
Proof.
  intros a'. subst a'. simpl.
  rewrite decide_True by apply dialogState_close. simpl.
  split_and!; try done.
  intros e Ho Hc.
  assert (ready (close (dialog a)) = true) as Hr.
  { unfold dialogState in Ho. by destruct (ready (close (dialog a))). }
  assert (open (dialog_step e (close (dialog a))) ≠ open (close (dialog a)))
    as Hne.
  { intros Heq. unfold dialogState in Ho, Hc.
    rewrite Heq, ready_step, Hr in Hc. simpl in Hc. rewrite Hr in Ho.
    simpl in Ho. destruct (truthy _); done. }
  split; [done|].
  destruct (dialogState_step e (close (dialog a))) as [Hs|[->|H]];
    [congruence| |done].
  by destruct Hne.
Qed.

(** Witness for C10: an open Dialog calls [close()], and its host answers
    with [open = false]. *)
Lemma close_only_emits_witness :
  open (dialog_step (PropsChanged {| props_open := VBoolean false |})
          (close (dialog_step Mounted sample_dialog)))
  ≠ open (close (dialog_step Mounted sample_dialog)).
Proof.
  destruct (close_only_emits sample_viewport
              {| dialog := dialog_step Mounted sample_dialog;
                 page := sample_page |})
    as (_&_&_&_&_&_&_&_&_&_&_&_&_&H).
  exact (proj1 (H (PropsChanged {| props_open := VBoolean false |})
                  eq_refl eq_refl)).
Defined.

End dialog.

(** ** The scroll lock *)

Section scroll_lock.
Implicit Types (v : Viewport) (d : Dialog) (p : Page)
  (s : gmap string string).

Lemma getPropertyValue_assign_same s attribute value :
  ascii_lowercase (idl_attribute_to_css_property attribute)
  = idl_attribute_to_css_property attribute →
  getPropertyValue (style_assign s attribute value)
    (idl_attribute_to_css_property attribute) = value.
Proof.
  intros Hl. unfold getPropertyValue, style_assign. rewrite Hl.
  destruct value as [|c value]; simpl.
  - by rewrite lookup_delete_eq.
  - by rewrite lookup_insert_eq.
Qed.

Lemma lookup_assign_other s attribute value k :
  k ≠ idl_attribute_to_css_property attribute →
  style_assign s attribute value !! k = s !! k.
Proof.
  intros Hk. unfold style_assign. destruct (string_truthy value).
  - by rewrite lookup_insert_ne.
  - by rewrite lookup_delete_ne.
Qed.

Lemma documentElement_run_lock_cleanup v c p :
  documentElement (run_lock_cleanup v c p) = root_after c (documentElement p).
Proof.
  destruct c as [[] property previous| | |y]; simpl; try done.
  destruct (scrollToElement p) as [el|]; [|done].
  by destruct (isConnected v el).
Qed.

Lemma documentElement_cleanups v cs p :
  documentElement (foldl (λ p c, run_lock_cleanup v c p) p cs)
  = foldl (λ root c, root_after c root) (documentElement p) cs.
Proof.
  revert p. induction cs as [|c cs IH]; intros p; simpl; [done|].
  by rewrite IH, documentElement_run_lock_cleanup.
Qed.

Lemma documentElement_unlock v p :
  documentElement (unlock v p)
  = foldl (λ root c, root_after c root) (documentElement p) (rev (lock p)).
Proof. unfold unlock. by rewrite documentElement_cleanups. Qed.

Lemma scroll_lock_skipped v d p :
  lock_runs v d = false → scroll_lock v d p = p.
Proof.
  unfold lock_runs, scroll_lock.
  destruct (bool_decide _); [|done].
  destruct (hasParentDialog d); [done|].
  by destruct (has_document v).
Qed.

Lemma scroll_lock_root v d p :
  lock_runs v d = true →
  documentElement (scroll_lock v d p) = root_locked v (documentElement p)
  ∧ ∃ rest,
      lock (scroll_lock v d p)
      = lock p ++ root_restores v (documentElement p) ++ rest
      ∧ ∀ c, c ∈ rest → root_after c = id.
Proof.
  unfold lock_runs, scroll_lock.
  destruct (bool_decide _); [|done].
  destruct (hasParentDialog d); [done|].
  destruct (has_document v); [|done]. intros _.
  destruct p as [root bd y cl tm ste siv lk].
  unfold root_locked, root_restores, scrollbar_before.
  cbn [documentElement lock pageYOffset negb].
  destruct (0 <? innerWidth v - clientWidth v root)%Z;
    destruct (isIOS v); (split; [reflexivity|]).
  - eexists [_; _; _; _]. split.
    + unfold style. cbn [lock with_lock with_document_listeners scrollTo
                         with_scrollToElement assign_style with_styled].
      rewrite <- ?app_assoc. reflexivity.
    + intros c Hc. repeat (apply elem_of_cons in Hc as [->|Hc]; [done|]).
      by apply elem_of_nil in Hc.
  - exists []. split; [|by intros c ?%elem_of_nil].
    unfold style. cbn [lock with_lock assign_style with_styled].
    rewrite <- ?app_assoc. reflexivity.
  - eexists [_; _; _; _]. split.
    + unfold style. cbn [lock with_lock with_document_listeners scrollTo
                         with_scrollToElement assign_style with_styled].
      rewrite <- ?app_assoc. reflexivity.
    + intros c Hc. repeat (apply elem_of_cons in Hc as [->|Hc]; [done|]).
      by apply elem_of_nil in Hc.
  - exists []. split; [|by intros c ?%elem_of_nil].
    unfold style. cbn [lock with_lock assign_style with_styled].
    rewrite <- ?app_assoc. reflexivity.
Qed.

Lemma foldl_root_after_id (cs : list LockCleanup) (root : HTMLElement) :
  (∀ c, c ∈ cs → root_after c = id) →
  foldl (λ root c, root_after c root) root cs = root.
Proof.
  induction cs as [|c cs IH]; intros Hcs; simpl; [done|].
  rewrite (Hcs c) by (rewrite elem_of_cons; by left).
  apply IH. intros c' Hc'. apply Hcs. rewrite elem_of_cons. by right.
Qed.

(** The document root after the lock and its release. *)
Lemma root_after_lock_and_unlock v d p :
  lock p = [] → lock_runs v d = true →
  documentElement (unlock v (scroll_lock v d p))
  = foldl (λ root c, root_after c root)
      (root_locked v (documentElement p))
      (rev (root_restores v (documentElement p))).
Proof.
  intros Hl Hr. destruct (scroll_lock_root v d p Hr) as (Hroot & rest & Hlock & Hrest).
  rewrite documentElement_unlock, Hroot, Hlock, Hl, app_nil_l.
  rewrite rev_app_distr, foldl_app. f_equal.
  apply foldl_root_after_id. intros c Hc. apply Hrest.
  apply list_elem_of_In. apply list_elem_of_In, in_rev in Hc. exact Hc.
Qed.

(** [overflow] is read under the name it is written under, so it comes
    back: after the lock and its release, [getPropertyValue('overflow')] of
    the document root is what it was, the empty string included. *)
Lemma unlock_restores_overflow v d p :
  lock p = [] →
  getPropertyValue
    (inline_style (documentElement (unlock v (scroll_lock v d p)))) "overflow"
  = getPropertyValue (inline_style (documentElement p)) "overflow".
Proof.
  intros Hl. destruct (lock_runs v d) eqn:Hr.
  - rewrite root_after_lock_and_unlock by done.
    unfold root_restores, root_locked.
    destruct (0 <? scrollbar_before v (documentElement p))%Z; simpl;
      apply (getPropertyValue_assign_same _ "overflow"); reflexivity.
  - rewrite scroll_lock_skipped by done.
    rewrite documentElement_unlock, Hl. done.
Qed.

(** [paddingRight] is read with [getPropertyValue('paddingRight')], which
    names no CSS property: whenever the lock patches [padding-right], its
    release removes the declaration, whatever the document root declared
    before. *)
Lemma unlock_clears_padding_right v d p :
  lock p = [] → lock_runs v d = true →
  (0 < innerWidth v - clientWidth v (documentElement p))%Z →
  inline_style (documentElement p) !! "paddingright" = None →
  inline_style (documentElement (unlock v (scroll_lock v d p)))
    !! "padding-right" = None.
Proof.
  intros Hl Hr Hw Hk. rewrite root_after_lock_and_unlock by done.
  unfold root_restores, root_locked. fold (scrollbar_before v (documentElement p)) in Hw.
  apply Z.ltb_lt in Hw. rewrite Hw. simpl.
  rewrite lookup_assign_other by (vm_compute; discriminate).
  assert (getPropertyValue
            (style_assign (inline_style (documentElement p)) "overflow" "hidden")
            "paddingRight" = EmptyString) as ->.
  { unfold getPropertyValue.
    change (ascii_lowercase "paddingRight") with "paddingright"%string.
    rewrite lookup_assign_other by (vm_compute; discriminate).
    by rewrite Hk. }
  unfold style_assign at 1. simpl string_truthy. cbv iota.
  change (idl_attribute_to_css_property "paddingRight")
    with "padding-right"%string.
  apply lookup_delete_eq.
Qed.

End scroll_lock.

(** C6, at its failing input. A document root with the inline declaration
    [padding-right: 10px], on a desktop browser with a 15 pixel scrollbar:
    opening the outermost Dialog sets [overflow: hidden] and
    [padding-right: 15px], and records the empty string as the previous
    value of both; closing the Dialog, or unmounting it while open, removes
    [overflow], as it was, and removes [padding-right], which was [10px]. *)
Theorem padding_right_lost_after_unlock :
  let opened := app_run sample_viewport [Component Mounted] sample_app in
  let closed :=
    app_run sample_viewport
      [Component (PropsChanged {| props_open := VBoolean false |})] opened in
  let unmounted := app_run sample_viewport [Unmounted] opened in
  inline_style (documentElement (page sample_app)) !! "padding-right"
  = Some "10px"%string
  ∧ inline_style (documentElement (page sample_app)) !! "overflow" = None
  ∧ inline_style (documentElement (page opened)) !! "overflow"
    = Some "hidden"%string
  ∧ inline_style (documentElement (page opened)) !! "padding-right"
    = Some "15px"%string
  ∧ lock (page opened)
    = [RestoreStyle DocumentElement "overflow" "";
       RestoreStyle DocumentElement "paddingRight" ""]
  ∧ inline_style (documentElement (page closed)) !! "overflow" = None
  ∧ inline_style (documentElement (page closed)) !! "padding-right" = None
  ∧ inline_style (documentElement (page unmounted)) !! "overflow" = None
  ∧ inline_style (documentElement (page unmounted)) !! "padding-right" = None.
Proof. repeat split; vm_compute; reflexivity. Qed.

(** * Further properties of the code *)

(** ** The class helpers *)

Section class_helpers.
Implicit Types (l tokens : list string) (t : string) (el : HTMLElement).

Lemma foldl_token_append_present tokens l :
  (∀ t, t ∈ tokens → t ∈ l) → foldl token_append l tokens = l.
Proof.
  revert l. induction tokens as [|t tokens IH]; intros l Hin; simpl; [done|].
  unfold token_append at 2.
  rewrite decide_True by (apply Hin; rewrite elem_of_cons; by left).
  apply IH. intros t' Ht'. apply Hin. rewrite elem_of_cons. by right.
Qed.

Lemma foldl_token_append_extends tokens l :
  ∃ extra, foldl token_append l tokens = l ++ extra
           ∧ ∀ t, t ∈ extra → t ∈ tokens.
Proof.
  revert l. induction tokens as [|t tokens IH]; intros l; simpl.
  - exists []. by rewrite app_nil_r.
  - destruct (IH (token_append l t)) as (extra & -> & Hextra).
    unfold token_append. destruct (decide (t ∈ l)).
    + exists extra. split; [done|]. intros t' Ht'. rewrite elem_of_cons.
      right. by apply Hextra.
    + exists (t :: extra). split; [by rewrite <- app_assoc|].
      intros t' [->|Ht']%elem_of_cons; rewrite elem_of_cons; [by left|].
      right. by apply Hextra.
Qed.

Lemma filter_all (P : string → Prop) `{∀ x, Decision (P x)} l :
  (∀ t, t ∈ l → P t) → filter P l = l.
Proof.
  induction l as [|x l IH]; intros Hl; [done|].
  rewrite filter_cons_True by (apply Hl; rewrite elem_of_cons; by left).
  rewrite IH; [done|]. intros t Ht. apply Hl. rewrite elem_of_cons. by right.
Qed.

Lemma filter_none (P : string → Prop) `{∀ x, Decision (P x)} l :
  (∀ t, t ∈ l → ¬ P t) → filter P l = [].
Proof.
  induction l as [|x l IH]; intros Hl; [done|].
  rewrite filter_cons_False by (apply Hl; rewrite elem_of_cons; by left).
  apply IH. intros t Ht. apply Hl. rewrite elem_of_cons. by right.
Qed.

Lemma filter_twice (P : string → Prop) `{∀ x, Decision (P x)} l :
  filter P (filter P l) = filter P l.
Proof.
  apply filter_all. intros t Ht. by apply list_elem_of_filter in Ht as [? _].
Qed.

Lemma add_tokens_twice el tokens :
  add_tokens (add_tokens el tokens) tokens = add_tokens el tokens.
Proof.
  unfold add_tokens at 1. unfold set_classList at 1.
  rewrite foldl_token_append_present.
  - by destruct (add_tokens el tokens).
  - intros t Ht. apply elem_of_add_tokens. by right.
Qed.

Lemma remove_tokens_twice el tokens :
  remove_tokens (remove_tokens el tokens) tokens = remove_tokens el tokens.
Proof.
  unfold remove_tokens at 1. unfold set_classList at 1.
  unfold remove_tokens at 1. cbn [classList set_classList].
  by rewrite filter_twice.
Qed.

Lemma remove_added_tokens el tokens :
  (∀ t, t ∈ tokens → t ∉ classList el) →
  remove_tokens (add_tokens el tokens) tokens = el.
Proof.
  intros Hnew. unfold remove_tokens, add_tokens. cbn [classList set_classList].
  destruct (foldl_token_append_extends tokens (classList el))
    as (extra & -> & Hextra).
  rewrite filter_app, filter_all, filter_none, app_nil_r.
  - by destruct el.
  - intros t Ht Hout. apply Hout. by apply Hextra.
  - intros t Ht Hin. by apply (Hnew t).
Qed.

End class_helpers.

(** X1. [removeClasses] undoes [addClasses]: when the tokens pass the check
    of the class list and the element holds none of them, adding them and
    then removing them gives back the element, its other tokens in their
    order. Adding the same tokens twice is adding them once, and removing
    them twice is removing them once, also when the call throws. *)
Theorem removeClasses_undoes_addClasses (el : HTMLElement)
    (tokens : list string) :
  (validate_tokens tokens = None →
   (∀ t, t ∈ tokens → t ∉ classList el) →
   and_then (addClasses (Some el) tokens) (λ n, removeClasses n tokens)
   = Normal (Some el))
  ∧ and_then (addClasses (Some el) tokens) (λ n, addClasses n tokens)
    = addClasses (Some el) tokens
  ∧ and_then (removeClasses (Some el) tokens) (λ n, removeClasses n tokens)
    = removeClasses (Some el) tokens.
Proof.
  destruct (validate_tokens tokens) as [e|] eqn:Hv.
  - split; [done|].
    rewrite (addClasses_invalid _ _ _ Hv), (removeClasses_invalid _ _ _ Hv).
    done.
  - rewrite (addClasses_valid _ _ Hv), (removeClasses_valid _ _ Hv).
    cbn [and_then].
    rewrite (addClasses_valid _ _ Hv), !(removeClasses_valid _ _ Hv).
    rewrite add_tokens_twice, remove_tokens_twice. split_and!; [|done|done].
    intros _ Hnew. by rewrite remove_added_tokens.
Qed.

(** Witness for X1: two classes added to the sample element and removed
    again. *)
Lemma removeClasses_undoes_addClasses_witness :
  and_then (addClasses (Some sample_element) ["transition"; "duration-300"])
    (λ n, removeClasses n ["transition"; "duration-300"])
  = Normal (Some sample_element).
Proof.
  apply (proj1 (removeClasses_undoes_addClasses sample_element
                  ["transition"; "duration-300"])); [reflexivity|].
  intros t Ht Hin. vm_compute in Hin.
  repeat (apply elem_of_cons in Hin as [->|Hin];
          [by repeat (apply elem_of_cons in Ht as [Ht|Ht]; [discriminate Ht|]);
              apply elem_of_nil in Ht|]).
  by apply elem_of_nil in Hin.
Defined.

(** ** The transition when a token does not pass the check *)

Section invalid_tokens.
Context (env : Browser).
Implicit Types (c : Call) (cs : TransitionClasses) (el : HTMLElement)
  (w : World) (e : BrowserEvent) (es : list BrowserEvent).

Lemma transition_invalid el cs sh dn err :
  validate_tokens (all_classes cs) = Some err →
  transition (Some el) cs sh dn
  = (Throw err,
     with_node
       (Some (unhidden {| classes := cs; show := sh; done := dn |} el))
       (initial_world (Some el))).
Proof.
  intros Hv. unfold transition, transition_body, unhidden, direction.
  cbn [show classes]. destruct sh.
  - exec. by rewrite (removeClasses_invalid _ _ _ Hv).
  - exec. by rewrite (removeClasses_invalid _ _ _ Hv).
Qed.

Lemma classList_unhidden c el : classList (unhidden c el) = classList el.
Proof. unfold unhidden. by destruct (direction c). Qed.

Lemma idle_step_node c e w :
  idle w → node (step env c e w) = node w.
Proof.
  intros (Hf & Ht & Hl & Hd & _).
  destruct w as [n f t l dt dw cl dc un]. simpl in *. subst.
  by destruct e.
Qed.

Lemma idle_run_node c es w :
  idle w → node (run env c es w) = node w.
Proof.
  revert w. induction es as [|e es IH]; intros w Hw; [done|].
  rewrite run_cons, IH by by apply idle_step.
  by apply idle_step_node.
Qed.

End invalid_tokens.

(** X2. A token that the class list refuses (an empty one, or one with
    white space in it) anywhere in the seven lists makes [transition] on an
    element throw what [classList.remove] throws. No class has been added
    or removed then and no animation frame is requested, so whatever
    happens later the completion callback is not run and the classes stay
    as they were. *)
Theorem transition_throws_on_refused_token
    (env : Browser) (el : HTMLElement) (cs : TransitionClasses)
    (sh dn : bool) (err : JsError) :
  let c := {| classes := cs; show := sh; done := dn |} in
  let r := transition (Some el) cs sh dn in
  validate_tokens (all_classes cs) = Some err →
  r.1 = Throw err
  ∧ frames r.2 = []
  ∧ ∀ es, done_calls (run env c es r.2) = 0
          ∧ ∃ el', node (run env c es r.2) = Some el'
                   ∧ classList el' = classList el.
Proof.
  intros c r Hv. subst r. rewrite (transition_invalid _ _ _ _ _ Hv). fold c.
  split_and!; [done|done|]. intros es.
  assert (idle (with_node (Some (unhidden c el)) (initial_world (Some el))))
    as Hidle by done.
  split.
  - by destruct (idle_run env c es _ Hidle) as (_&_&_&_&?).
  - rewrite idle_run_node by done. eexists. split; [done|].
    apply classList_unhidden.
Qed.

(** Witness for X2: an empty token, as [''.split(' ')] yields one, among
    the [enter] classes. *)
Lemma transition_throws_on_refused_token_witness :
  (transition (Some sample_element)
     {| enter := [""]; enterFrom := []; enterTo := []; leave := [];
        leaveFrom := []; leaveTo := []; entered := [] |} true true).1
  = Throw (SyntaxError "The token provided must not be empty.").
Proof.
  exact (proj1 (transition_throws_on_refused_token sample_browser
                  sample_element
                  {| enter := [""]; enterFrom := []; enterTo := [];
                     leave := []; leaveFrom := []; leaveTo := [];
                     entered := [] |} true true _ eq_refl)).
Defined.

(** X3. What a transition does depends on the element's classes only
    through those that are in none of the seven lists. Take two elements
    with the same attributes and inline style whose class lists agree
    once the tokens of the seven lists are left out (the classes an
    interrupted transition left behind, say). The call completes alike
    for both. When every token of the seven lists passes the class list's
    check, the two are taken to the same state, with the same frame
    requested. When a token is refused, the call throws for both, before
    any class is removed, and each element keeps its own class list. *)
Theorem transition_ignores_leftover_classes
    (el1 el2 : HTMLElement) (cs : TransitionClasses) (sh dn : bool) :
  attributes el1 = attributes el2 →
  inline_style el1 = inline_style el2 →
  filter (λ t, t ∉ all_classes cs) (classList el1)
  = filter (λ t, t ∉ all_classes cs) (classList el2) →
  (transition (Some el1) cs sh dn).1 = (transition (Some el2) cs sh dn).1
  ∧ (validate_tokens (all_classes cs) = None →
     transition (Some el1) cs sh dn = transition (Some el2) cs sh dn)
  ∧ (∀ err,
       validate_tokens (all_classes cs) = Some err →
       (transition (Some el1) cs sh dn).1 = Throw err
       ∧ ∃ el1' el2',
           node (transition (Some el1) cs sh dn).2 = Some el1'
           ∧ classList el1' = classList el1
           ∧ node (transition (Some el2) cs sh dn).2 = Some el2'
           ∧ classList el2' = classList el2).
Proof.
  intros Ha Hs Hc.
  assert (validate_tokens (all_classes cs) = None →
          transition (Some el1) cs sh dn = transition (Some el2) cs sh dn)
    as Hvalid.
  { intros Hv. rewrite !transition_valid by done.
    f_equal. unfold world_started. do 2 f_equal.
    unfold started. f_equal.
    unfold remove_tokens, unhidden, set_classList.
    destruct (direction _); cbn [classList attributes inline_style
      set_style removeAttribute classes]; by rewrite Ha, Hs, Hc. }
  split_and!; [|done|].
  - destruct (validate_tokens (all_classes cs)) as [err|] eqn:Hv.
    + by rewrite !(transition_invalid _ _ _ _ _ Hv).
    + by rewrite Hvalid.
  - intros err Hv. rewrite !(transition_invalid _ _ _ _ _ Hv).
    split; [done|]. eexists _, _.
    split_and!; [done|apply classList_unhidden|done|apply classList_unhidden].
Qed.

(** Witness for X3: the sample element, and the same element still
    carrying [opacity-100] and [shown] from an earlier transition. *)
Lemma transition_ignores_leftover_classes_witness :
  transition (Some sample_element) sample_classes false true
  = transition
      (Some {| classList := ["box"; "opacity-100"; "shown"];
               attributes := attributes sample_element;
               inline_style := inline_style sample_element |})
      sample_classes false true.
Proof.
  by apply (proj1 (proj2 (transition_ignores_leftover_classes
                            sample_element
                            {| classList := ["box"; "opacity-100"; "shown"];
                               attributes := attributes sample_element;
                               inline_style := inline_style sample_element |}
                            sample_classes false true eq_refl eq_refl
                            eq_refl))).
Defined.

(** X4. The classes at the two earlier phases of a transition that
    returned normally. When [transition] returns, the element holds
    exactly the base and the "from" tokens and what it had that is in none
    of the seven lists. The animation-frame callback then restyles it to
    hold exactly the "to" tokens, the base tokens that are not "from"
    tokens, and what it had that is in none of the seven lists; the
    computed style is read from the element in that state, and when the
    total duration read there is not zero, this is the element as the
    callback leaves it. When the total is zero the callback goes on to
    finish the transition in the same frame. *)
Theorem classes_at_the_earlier_phases
    (env : Browser) (el : HTMLElement) (cs : TransitionClasses) (sh dn : bool) :
  let c := {| classes := cs; show := sh; done := dn |} in
  let r := transition (Some el) cs sh dn in
  r.1 = Normal dispose_transition →
  (∃ el0,
     node r.2 = Some el0
     ∧ ∀ t, t ∈ classList el0 ↔
            t ∈ base c ∨ t ∈ from c
            ∨ (t ∈ classList el ∧ t ∉ all_classes cs))
  ∧ (∀ t, t ∈ classList (restyled c el) ↔
          t ∈ to c ∨ (t ∈ base c ∧ t ∉ from c)
          ∨ (t ∈ classList el ∧ t ∉ all_classes cs))
  ∧ (number_strict_ne
       (totalDuration (getComputedStyle env (restyled c el))) (Num 0) = true →
     node (step env c AnimationFrame r.2) = Some (restyled c el))
  ∧ (number_strict_ne
       (totalDuration (getComputedStyle env (restyled c el))) (Num 0) = false →
     node (step env c AnimationFrame r.2) = Some (finished c el)).
Proof.
  intros c r Hn. subst r.
  pose proof (transition_normal_valid _ _ _ _ _ Hn) as Hv.
  rewrite transition_valid by done. fold c.
  assert (∀ t, t ∈ base c → t ∈ all_classes cs) as Hb.
  { intros t. unfold base, all_classes, direction. cbn [show classes].
    rewrite !elem_of_app. destruct sh; tauto. }
  assert (∀ t, t ∈ from c → t ∈ all_classes cs) as Hf.
  { intros t. unfold from, all_classes, direction. cbn [show classes].
    rewrite !elem_of_app. destruct sh; tauto. }
  split_and!.
  - exists (started c el). split; [done|]. intros t. unfold started.
    rewrite elem_of_add_tokens, elem_of_remove_tokens, elem_of_app,
      classList_unhidden.
    change (classes c) with cs. specialize (Hb t). specialize (Hf t). tauto.
  - intros t. unfold restyled, started.
    repeat (rewrite elem_of_add_tokens || rewrite elem_of_remove_tokens).
    rewrite elem_of_app, classList_unhidden.
    change (classes c) with cs. specialize (Hb t). specialize (Hf t).
    destruct (decide (t ∈ from c)); tauto.
  - intros Hz. cbn [snd]. rewrite frame_wait; [|done|exact Hz].
    unfold world_waiting. by destruct (String.eqb _ _).
  - intros Hz. cbn [snd]. by rewrite frame_zero; [|done|exact Hz].
Qed.

(** Witness for X4: the sample enter transition when it has returned. *)
Lemma classes_at_the_earlier_phases_witness :
  ∃ el0,
    node (transition (Some sample_element) sample_classes true true).2
    = Some el0
    ∧ "opacity-0" ∈ classList el0 ∧ "box" ∈ classList el0
    ∧ "opacity-100" ∉ classList el0.
Proof.
  destruct (classes_at_the_earlier_phases sample_browser sample_element
              sample_classes true true eq_refl) as [(el0 & Hn & Hc) _].
  exists el0. split; [exact Hn|]. rewrite !Hc, !list_elem_of_In.
  vm_compute. split_and!.
  - right. left. by left.
  - right. right. split; [by left|]. intuition discriminate.
  - intuition discriminate.
Defined.

(** ** What every event keeps *)

Section kept_by_the_events.
Context (env : Browser) (c : Call).
Context (I : World → Prop).
Context (I_rest : ∀ w w',
  node w' = node w → d_transition w' = d_transition w →
  frames w' = frames w → I w → I w').
Context (I_no_frames : ∀ w, I w → I (with_frames [] w)).
Context (I_classes : ∀ w el l,
  node w = Some el →
  (∀ t, t ∉ all_classes (classes c) → (t ∈ l ↔ t ∈ classList el)) →
  I w → I (with_node (Some (set_classList el l)) w)).
Context (I_disposed : ∀ w, I w → I (with_d_transition [] w)).
Implicit Types (w : World) (tokens : list string).

Local Abbreviation own tokens := (∀ t, t ∈ tokens → t ∈ all_classes (classes c)).

Lemma stable_ret {A : Type} (a : A) : stable I (mret a).
Proof. by intros w Hw. Qed.

Lemma stable_bind {A B : Type} (m : M A) (k : A → M B) :
  stable I m → (∀ a, stable I (k a)) → stable I (m ≫= k).
Proof.
  intros Hm Hk w Hw. unfold mbind, M_bind. specialize (Hm w Hw).
  destruct (m w) as [[a|e] w']; simpl in *; [by apply Hk|done].
Qed.

Lemma stable_same {A : Type} (m : M A) :
  (∀ w, node (m w).2 = node w ∧ d_transition (m w).2 = d_transition w
        ∧ frames (m w).2 = frames w) →
  stable I m.
Proof.
  intros Hm w Hw. destruct (Hm w) as (Hn & Hd & Hf). by apply (I_rest w).
Qed.

Lemma own_base : own (base c).
Proof.
  intros t. unfold base, all_classes. rewrite !elem_of_app.
  destruct (direction c); tauto.
Qed.

Lemma own_from : own (from c).
Proof.
  intros t. unfold from, all_classes. rewrite !elem_of_app.
  destruct (direction c); tauto.
Qed.

Lemma own_to : own (to c).
Proof.
  intros t. unfold to, all_classes. rewrite !elem_of_app.
  destruct (direction c); tauto.
Qed.

Lemma own_entered : own (entered (classes c)).
Proof. intros t. unfold all_classes. rewrite !elem_of_app. tauto. Qed.

Lemma stable_addClasses tokens :
  own tokens → stable I (on_node (λ n, addClasses n tokens)).
Proof.
  intros Hown w Hw. unfold on_node. destruct (node w) as [el|] eqn:Hn.
  - destruct (validate_tokens tokens) as [e|] eqn:Hv.
    + by rewrite (addClasses_invalid _ _ _ Hv).
    + rewrite (addClasses_valid _ _ Hv). cbn [snd]. unfold add_tokens.
      apply I_classes; [done| |done].
      intros t Ht. rewrite elem_of_foldl_token_append.
      specialize (Hown t). tauto.
  - cbn. by apply (I_rest w).
Qed.

Lemma stable_removeClasses tokens :
  own tokens → stable I (on_node (λ n, removeClasses n tokens)).
Proof.
  intros Hown w Hw. unfold on_node. destruct (node w) as [el|] eqn:Hn.
  - destruct (validate_tokens tokens) as [e|] eqn:Hv.
    + by rewrite (removeClasses_invalid _ _ _ Hv).
    + rewrite (removeClasses_valid _ _ Hv). cbn [snd]. unfold remove_tokens.
      apply I_classes; [done| |done].
      intros t Ht. rewrite list_elem_of_filter.
      specialize (Hown t). tauto.
  - cbn. by apply (I_rest w).
Qed.

Lemma stable_done : stable I (_done c).
Proof.
  unfold _done. destruct (done c); [|apply stable_ret].
  apply stable_same. intros w. unfold once_done. by destruct (called w).
Qed.

Lemma stable_finish : stable I (finish c).
Proof.
  unfold finish. repeat (apply stable_bind; [|intros _]);
    auto using stable_addClasses, stable_removeClasses, stable_done,
      own_base, own_entered.
Qed.

Lemma stable_run_cleanup cleanup : stable I (run_cleanup c cleanup).
Proof.
  destruct cleanup; simpl; try (by apply stable_same);
    [exact I_no_frames|apply stable_finish].
Qed.

Lemma stable_run_cleanups cleanups : stable I (run_cleanups c cleanups).
Proof.
  induction cleanups as [|cleanup cleanups IH]; simpl; [apply stable_ret|].
  apply stable_bind; [apply stable_run_cleanup|by intros _].
Qed.

Lemma stable_d_add cleanup : stable I (d_add dispose_wait cleanup).
Proof. by apply stable_same. Qed.

Lemma stable_d_dispose : stable I (d_dispose c dispose_transition).
Proof.
  intros w Hw. unfold d_dispose.
  by apply stable_run_cleanups, I_disposed.
Qed.

Lemma stable_dispose_one cleanup :
  stable I (dispose_one c dispose_wait cleanup).
Proof.
  intros w Hw. unfold dispose_one.
  apply stable_run_cleanup. by apply (I_rest w).
Qed.

Lemma stable_waitForTransition : stable I (waitForTransition env c).
Proof.
  intros w Hw. unfold waitForTransition. destruct (node w) as [el|]; [|done].
  revert w Hw. apply stable_bind; [|intros _; apply stable_bind;
    [apply stable_d_add|intros _; apply stable_ret]].
  destruct (number_strict_ne _ _); [|apply stable_finish].
  destruct (String.eqb _ _).
  - apply stable_bind; [by apply stable_same|intros _; apply stable_d_add].
  - apply stable_bind; [by apply stable_same|intros _; apply stable_d_add].
Qed.

Lemma stable_run_closure event f : stable I (run_closure env c event f).
Proof.
  destruct f; simpl.
  - unfold next_frame_callback, apply_to.
    repeat (apply stable_bind; [|intros ?]);
      auto using stable_addClasses, stable_removeClasses,
        stable_waitForTransition, stable_ret, own_from, own_to.
  - unfold timeout_callback.
    apply stable_bind; [apply stable_finish|intros _; apply stable_dispose_one].
  - destruct event as [ev|]; [|apply stable_ret].
    unfold transitionend_listener. destruct (negb _); [apply stable_ret|].
    apply stable_bind; [apply stable_finish|intros _; apply stable_dispose_one].
Qed.

Lemma kept_reported m w : stable I m → I w → I (reported m w).
Proof.
  intros Hm Hw. unfold reported. specialize (Hm w Hw).
  destruct (m w) as [[a|e] w']; [done|]. by apply (I_rest w').
Qed.

Lemma kept_run_closures event fs w :
  I w → I (run_closures env c event fs w).
Proof.
  revert w. unfold run_closures.
  induction fs as [|f fs IH]; intros w Hw; simpl; [done|].
  apply IH, kept_reported; [apply stable_run_closure|done].
Qed.

Lemma kept_step e w : I w → I (step env c e w).
Proof.
  intros Hw. destruct e; simpl.
  - by apply kept_run_closures, I_no_frames.
  - by apply kept_run_closures.
  - apply kept_run_closures. by apply (I_rest w).
  - apply kept_reported; [apply stable_d_dispose|done].
Qed.

Lemma kept_run es w : I w → I (run env c es w).
Proof.
  revert w. unfold run. induction es as [|e es IH]; intros w Hw; simpl; [done|].
  by apply IH, kept_step.
Qed.

End kept_by_the_events.

(** What [transition] leaves of the element it was given, whether it
    returned or threw. *)
Lemma transition_node el cs sh dn :
  let c := {| classes := cs; show := sh; done := dn |} in
  node (transition (Some el) cs sh dn).2 = Some (started c el)
  ∨ node (transition (Some el) cs sh dn).2 = Some (unhidden c el).
Proof.
  intros c. destruct (validate_tokens (all_classes cs)) as [e|] eqn:Hv.
  - right. by rewrite (transition_invalid _ _ _ _ _ Hv).
  - left. by rewrite transition_valid.
Qed.

(** X5. A transition touches no class but its own: for every call on an
    element and whatever happens afterwards (animation frames,
    transitionend events, timers, calls of the disposer, in any order,
    and also when the call threw), a token that is in none of the seven
    lists is on the element exactly when it was there before the call. *)
Theorem transition_keeps_foreign_classes
    (env : Browser) (el : HTMLElement) (cs : TransitionClasses)
    (sh dn : bool) (es : list BrowserEvent) :
  let c := {| classes := cs; show := sh; done := dn |} in
  ∃ el',
    node (run env c es (transition (Some el) cs sh dn).2) = Some el'
    ∧ ∀ t, t ∉ all_classes cs → (t ∈ classList el' ↔ t ∈ classList el).
Proof.
  intros c.
  set (I := node_state (λ el', ∀ t, t ∉ all_classes cs →
                                    (t ∈ classList el' ↔ t ∈ classList el))).
  apply (kept_run env c I).
  - intros w w' Hn _ _ (el' & Hw & Hel'). exists el'. by rewrite Hn.
  - intros w (el' & Hw & Hel'). by exists el'.
  - intros w el0 l Hn Hl (el' & Hw & Hel'). exists (set_classList el0 l).
    split; [done|]. intros t Ht. cbn [classList set_classList].
    rewrite Hl by done. rewrite Hn in Hw. injection Hw as <-. by apply Hel'.
  - intros w (el' & Hw & Hel'). by exists el'.
  - destruct (transition_node el cs sh dn) as [Hn|Hn]; fold c in Hn;
      eexists; (split; [exact Hn|]); intros t Ht.
    + unfold started.
      rewrite elem_of_add_tokens, elem_of_remove_tokens, elem_of_app,
        classList_unhidden.
      pose proof (own_base c t). pose proof (own_from c t).
      change (classes c) with cs in *. tauto.
    + by rewrite classList_unhidden.
Qed.

(** X6. A transition touches the attributes and the inline style of its
    element only when entering, and then only before it returns: the
    [hidden] attribute and the [display] declaration are removed. For
    every call on an element and whatever happens afterwards, a leave
    transition has left both maps as they were, and an enter transition has
    left them as they were but for these two entries. *)
Theorem transition_unhides_and_no_more
    (env : Browser) (el : HTMLElement) (cs : TransitionClasses)
    (sh dn : bool) (es : list BrowserEvent) :
  let c := {| classes := cs; show := sh; done := dn |} in
  ∃ el',
    node (run env c es (transition (Some el) cs sh dn).2) = Some el'
    ∧ attributes el'
      = (if sh then delete "hidden" (attributes el) else attributes el)
    ∧ inline_style el'
      = (if sh then delete "display" (inline_style el) else inline_style el).
Proof.
  intros c.
  set (I := node_state (λ el',
    attributes el'
    = (if sh then delete "hidden" (attributes el) else attributes el)
    ∧ inline_style el'
      = (if sh then delete "display" (inline_style el) else inline_style el))).
  apply (kept_run env c I).
  - intros w w' Hn _ _ (el' & Hw & Hel'). exists el'. by rewrite Hn.
  - intros w (el' & Hw & Hel'). by exists el'.
  - intros w el0 l Hn Hl (el' & Hw & Hel'). exists (set_classList el0 l).
    split; [done|]. rewrite Hn in Hw. by injection Hw as <-.
  - intros w (el' & Hw & Hel'). by exists el'.
  - assert (attributes (unhidden c el)
            = (if sh then delete "hidden" (attributes el) else attributes el)
            ∧ inline_style (unhidden c el)
              = (if sh then delete "display" (inline_style el)
                 else inline_style el)) as Hu.
    { unfold unhidden, direction. cbn [show c]. by destruct sh. }
    destruct (transition_node el cs sh dn) as [Hn|Hn]; fold c in Hn;
      eexists; (split; [exact Hn|]); done.
Qed.

(** ** The disposer that [transition] returns *)

Section disposer.
Context (env : Browser) (c : Call).
Implicit Types (w : World) (e : BrowserEvent) (es : list BrowserEvent).

Lemma step_keeps_registry e w :
  e ≠ CallDisposer →
  d_transition (step env c e w) = d_transition w
  ∧ (frames (step env c e w) = frames w ∨ frames (step env c e w) = []).
Proof.
  intros He.
  set (I := λ w', d_transition w' = d_transition w
                  ∧ (frames w' = frames w ∨ frames w' = [])).
  assert (∀ event fs w', I w' → I (run_closures env c event fs w')) as Hk.
  { intros event fs w' Hw'. apply (kept_run_closures env c I); [| | |done].
    - intros w1 w2 _ Hd Hf [? ?]. split; [congruence|]. rewrite Hf. tauto.
    - intros w1 [? _]. split; [done|by right].
    - intros w1 el l _ _ Hw1. exact Hw1. }
  destruct e; [| | |done]; simpl; apply Hk; subst I; simpl; tauto.
Qed.

Lemma dispose_cancels_the_frame w :
  frame_registered w →
  let w' := step env c CallDisposer w in
  node w' = node w ∧ timers w' = timers w ∧ listeners w' = listeners w
  ∧ d_wait w' = d_wait w ∧ called w' = called w
  ∧ done_calls w' = done_calls w ∧ uncaught w' = uncaught w
  ∧ frames w' = [] ∧ d_transition w' = [].
Proof.
  destruct w as [n f t l dt dw cl dc un].
  intros [[Hd Hf]|Hd]; simpl in *; subst; vm_compute; tauto.
Qed.

Lemma frame_registered_step e w :
  frame_registered w → frame_registered (step env c e w).
Proof.
  intros Hw.
  assert (e = CallDisposer ∨ e ≠ CallDisposer) as [->|He]
    by (destruct e; (by left) || by right).
  - left. by destruct (dispose_cancels_the_frame w Hw) as (_&_&_&_&_&_&_&?&?).
  - destruct (step_keeps_registry e w He) as [Hd Hf].
    unfold frame_registered in *. rewrite Hd.
    destruct Hw as [[? Hw]|?]; [left|by right].
    split; [done|]. destruct Hf as [Hf|Hf]; congruence.
Qed.

Lemma frame_registered_run es w :
  frame_registered w → frame_registered (run env c es w).
Proof.
  revert w. induction es as [|e es IH]; intros w Hw; [done|].
  rewrite run_cons. by apply IH, frame_registered_step.
Qed.

End disposer.

(** X7. The disposer that [transition] returns cancels the animation frame
    and nothing else. For every call, and whatever has happened since
    (the frame may have run, a listener or a timer may be waiting, the
    transition may have ended): invoking the disposer leaves the element
    with its classes, the timers, the transitionend listeners, the
    registry of [waitForTransition] and the count of completion calls as
    they are; it leaves no frame pending and empties its own registry. So
    after the frame has run it neither takes the listener or the timer
    back nor runs the completion callback. *)
Theorem disposer_cancels_only_the_frame
    (env : Browser) (n : option HTMLElement) (cs : TransitionClasses)
    (sh dn : bool) (es : list BrowserEvent) :
  let c := {| classes := cs; show := sh; done := dn |} in
  let w := run env c es (transition n cs sh dn).2 in
  let w' := step env c CallDisposer w in
  node w' = node w ∧ timers w' = timers w ∧ listeners w' = listeners w
  ∧ d_wait w' = d_wait w ∧ called w' = called w
  ∧ done_calls w' = done_calls w ∧ uncaught w' = uncaught w
  ∧ frames w' = [] ∧ d_transition w' = [].
Proof.
  intros c w. apply dispose_cancels_the_frame.
  apply frame_registered_run.
  destruct (transition_fresh n cs sh dn) as (_&_&_&_&_&[[??]|[??]]);
    [by left|by right].
Qed.

(** ** Waiting for the end *)

Section waiting.
Context (env : Browser).
Implicit Types (c : Call) (el : HTMLElement) (w : World)
  (ev : TransitionEvent) (evs : list TransitionEvent).

Lemma bubbled_events_waiting c el evs :
  Forall bubbled evs →
  run env c (map TransitionEnd evs) (world_waiting env c el)
  = world_waiting env c el.
Proof.
  induction evs as [|ev evs IH]; intros Hb; [done|].
  apply Forall_cons in Hb as [Hev Hb]. cbn [map].
  rewrite run_cons, transitionend_bubbled by exact Hev. by apply IH.
Qed.

Lemma transitionend_in_test_mode c el ev :
  String.eqb (NODE_ENV env) "test" = true →
  step env c (TransitionEnd ev) (world_waiting env c el)
  = world_waiting env c el.
Proof. intros Ht. unfold world_waiting. by rewrite Ht. Qed.

Lemma events_in_test_mode c el evs :
  String.eqb (NODE_ENV env) "test" = true →
  run env c (map TransitionEnd evs) (world_waiting env c el)
  = world_waiting env c el.
Proof.
  intros Ht. induction evs as [|ev evs IH]; [done|]. cbn [map].
  by rewrite run_cons, transitionend_in_test_mode.
Qed.

Lemma timers_outside_test_mode c el :
  String.eqb (NODE_ENV env) "test" = false →
  step env c TimersElapse (world_waiting env c el) = world_waiting env c el.
Proof. intros Ht. unfold world_waiting. by rewrite Ht. Qed.

Lemma done_calls_world_finished c el :
  done_calls (world_finished c el) = if done c then 1 else 0.
Proof. done. Qed.

Lemma done_calls_world_waiting c el :
  done_calls (world_waiting env c el) = 0.
Proof. unfold world_waiting. by destruct (String.eqb _ _). Qed.

End waiting.

(** X8. A transitionend event that bubbled up from a descendant (its
    target is not the element) does not end the transition. Outside test
    mode, for a transition that returned normally and whose total duration
    is not zero: after the animation frame, any number of such events
    leave everything as it is, the listener in place and the completion
    callback not run; the first transitionend of the element itself then
    ends the transition and runs the callback. *)
Theorem bubbled_transitionend_is_ignored
    (env : Browser) (el : HTMLElement) (cs : TransitionClasses) (sh dn : bool)
    (evs : list TransitionEvent) :
  let c := {| classes := cs; show := sh; done := dn |} in
  let r := transition (Some el) cs sh dn in
  r.1 = Normal dispose_transition →
  String.eqb (NODE_ENV env) "test" = false →
  number_strict_ne (totalDuration (getComputedStyle env (restyled c el)))
    (Num 0) = true →
  Forall bubbled evs →
  run env c (AnimationFrame :: map TransitionEnd evs) r.2
  = step env c AnimationFrame r.2
  ∧ listeners (step env c AnimationFrame r.2) = [TransitionEndListener]
  ∧ done_calls (step env c AnimationFrame r.2) = 0
  ∧ done_calls
      (run env c
         (AnimationFrame :: map TransitionEnd evs
          ++ [TransitionEnd own_transitionend]) r.2)
    = (if dn then 1 else 0)
  ∧ listeners
      (run env c
         (AnimationFrame :: map TransitionEnd evs
          ++ [TransitionEnd own_transitionend]) r.2) = [].
Proof.
  intros c r Hn Ht Hz Hb. subst r.
  pose proof (transition_normal_valid _ _ _ _ _ Hn) as Hv.
  rewrite transition_valid by done. fold c. cbn [snd].
  rewrite !run_cons, run_app, frame_wait by done.
  rewrite bubbled_events_waiting by done.
  rewrite run_cons, run_nil, transitionend_finishes by done.
  split_and!; try done.
  - unfold world_waiting. by rewrite Ht.
  - apply done_calls_world_waiting.
Qed.

(** Witness for X8: the sample transition, and two events of a child. *)
Lemma bubbled_transitionend_is_ignored_witness :
  done_calls
    (run sample_browser sample_call
       [AnimationFrame;
        TransitionEnd {| target := 7; currentTarget := 0 |};
        TransitionEnd {| target := 8; currentTarget := 0 |}]
       (transition (Some sample_element) sample_classes true true).2) = 0.
Proof.
  destruct (bubbled_transitionend_is_ignored sample_browser sample_element
              sample_classes true true
              [{| target := 7; currentTarget := 0 |};
               {| target := 8; currentTarget := 0 |}]
              eq_refl eq_refl eq_refl) as (Hrun & _ & Hdone & _).
  - repeat constructor; vm_compute; discriminate.
  - exact (eq_trans (f_equal done_calls Hrun) Hdone).
Defined.

(** X9. How the end is awaited depends on [NODE_ENV] alone. For a
    transition that returned normally and whose total duration is not
    zero, after the animation frame: in test mode one timer is set, for
    the total duration, and no listener, transitionend events (also the
    element's own) change nothing, and the timer's elapse runs the
    completion callback; outside test mode one transitionend listener is
    registered and no timer, and timers elapsing change nothing. *)
Theorem awaits_timer_in_test_mode_listener_otherwise
    (env : Browser) (el : HTMLElement) (cs : TransitionClasses) (sh dn : bool) :
  let c := {| classes := cs; show := sh; done := dn |} in
  let r := transition (Some el) cs sh dn in
  let total := totalDuration (getComputedStyle env (restyled c el)) in
  let w := step env c AnimationFrame r.2 in
  r.1 = Normal dispose_transition →
  number_strict_ne total (Num 0) = true →
  (String.eqb (NODE_ENV env) "test" = true →
   timers w = [(TimeoutCallback, total)] ∧ listeners w = []
   ∧ (∀ evs, run env c (map TransitionEnd evs) w = w)
   ∧ done_calls (step env c TimersElapse w) = (if dn then 1 else 0)
   ∧ timers (step env c TimersElapse w) = [])
  ∧ (String.eqb (NODE_ENV env) "test" = false →
     timers w = [] ∧ listeners w = [TransitionEndListener]
     ∧ step env c TimersElapse w = w).
Proof.
  intros c r total w Hn Hz. subst w r.
  pose proof (transition_normal_valid _ _ _ _ _ Hn) as Hv.
  rewrite transition_valid by done. fold c. cbn [snd].
  rewrite frame_wait by done. split; intros Ht.
  - split_and!.
    + unfold world_waiting. by rewrite Ht.
    + unfold world_waiting. by rewrite Ht.
    + intros evs. by apply events_in_test_mode.
    + by rewrite timer_finishes.
    + by rewrite timer_finishes.
  - split_and!.
    + unfold world_waiting. by rewrite Ht.
    + unfold world_waiting. by rewrite Ht.
    + by apply timers_outside_test_mode.
Qed.

(** Witness for X9: the sample transition under [NODE_ENV = 'test']. *)
Lemma awaits_timer_in_test_mode_listener_otherwise_witness :
  timers
    (step {| NODE_ENV := "test"; getComputedStyle := sample_style |}
       sample_call AnimationFrame
       (transition (Some sample_element) sample_classes true true).2)
  = [(TimeoutCallback, Num (3750 # 10))].
Proof.
  destruct (awaits_timer_in_test_mode_listener_otherwise
              {| NODE_ENV := "test"; getComputedStyle := sample_style |}
              sample_element sample_classes true true eq_refl eq_refl)
    as [Htest _].
  destruct (Htest eq_refl) as (Htimers & _).
  exact (eq_trans Htimers eq_refl).
Defined.

(** ** After the end *)

Section after_the_end.
Context (env : Browser) (c : Call).
Implicit Types (w : World) (e : BrowserEvent) (es : list BrowserEvent).

Lemma ended_step el' calls e w :
  ended el' calls w → ended el' calls (step env c e w).
Proof.
  destruct w as [n f t l dt dw cl dc un].
  intros (?&?&?&?&?&?&[?|?]); simpl in *; subst;
    destruct e; vm_compute; tauto.
Qed.

Lemma ended_run el' calls es w :
  ended el' calls w → ended el' calls (run env c es w).
Proof.
  revert w. induction es as [|e es IH]; intros w Hw; [done|].
  rewrite run_cons. by apply IH, ended_step.
Qed.

Lemma ended_world_finished el :
  ended (finished c el) (if done c then 1 else 0) (world_finished c el).
Proof. unfold ended, world_finished; simpl. tauto. Qed.

End after_the_end.

(** X10. A transition that has ended stays ended. When a transition on an
    element returned normally and has run to its natural end, nothing that
    happens afterwards (late transitionend events, timers, animation
    frames, the disposer) changes the element or runs the completion
    callback again, and no frame, timer or listener is left behind that
    could. *)
Theorem ended_transition_stays_ended
    (env : Browser) (el : HTMLElement) (cs : TransitionClasses) (sh dn : bool)
    (es : list BrowserEvent) :
  let c := {| classes := cs; show := sh; done := dn |} in
  let r := transition (Some el) cs sh dn in
  let at_end := run env c (natural_finish env c r.2) r.2 in
  let later := run env c (natural_finish env c r.2 ++ es) r.2 in
  r.1 = Normal dispose_transition →
  node later = node at_end
  ∧ done_calls later = done_calls at_end
  ∧ frames later = [] ∧ timers later = [] ∧ listeners later = []
  ∧ uncaught later = [].
Proof.
  intros c r at_end later Hn. subst later at_end r.
  pose proof (transition_normal_valid _ _ _ _ _ Hn) as Hv.
  rewrite transition_valid by done. fold c. cbn [snd].
  rewrite run_app, natural_finish_finishes by done.
  destruct (ended_run env c _ _ es _ (ended_world_finished c el))
    as (Hnode & Hf & Ht & Hl & Hd & Hu & _).
  by rewrite Hnode, Hd.
Qed.

(** Witness for X10: the sample transition has ended; a late transitionend,
    a frame and the disposer follow. *)
Lemma ended_transition_stays_ended_witness :
  node
    (run sample_browser sample_call
       (natural_finish sample_browser sample_call
          (transition (Some sample_element) sample_classes true true).2
        ++ [TransitionEnd own_transitionend; AnimationFrame; CallDisposer])
       (transition (Some sample_element) sample_classes true true).2)
  = node
      (run sample_browser sample_call
         (natural_finish sample_browser sample_call
            (transition (Some sample_element) sample_classes true true).2)
         (transition (Some sample_element) sample_classes true true).2).
Proof.
  exact (proj1 (ended_transition_stays_ended sample_browser sample_element
                  sample_classes true true
                  [TransitionEnd own_transitionend; AnimationFrame;
                   CallDisposer] eq_refl)).
Defined.

(** ** The disposer that [waitForTransition] returns *)

Section wait_disposer.
Context (env : Browser) (c : Call) (el : HTMLElement).
Context (Hvalid : validate_tokens (all_classes (classes c)) = None).

Lemma elem_of_finish_once t el0 :
  t ∈ classList (add_tokens (remove_tokens el0 (base c)) (entered (classes c)))
  ↔ t ∈ entered (classes c) ∨ (t ∈ classList el0 ∧ t ∉ base c).
Proof. rewrite elem_of_add_tokens, elem_of_remove_tokens. tauto. Qed.

Lemma elem_of_finish_twice t el0 :
  t ∈ classList
        (add_tokens
           (remove_tokens
              (add_tokens (remove_tokens el0 (base c)) (entered (classes c)))
              (base c))
           (entered (classes c)))
  ↔ t ∈ entered (classes c) ∨ (t ∈ classList el0 ∧ t ∉ base c).
Proof.
  repeat (rewrite elem_of_add_tokens || rewrite elem_of_remove_tokens).
  tauto.
Qed.

Lemma wait_then_dispose :
  (waitForTransition env c (initial_world (Some el))).1 = Normal dispose_wait
  ∧ ∃ el',
      d_dispose c dispose_wait
        (waitForTransition env c (initial_world (Some el))).2
      = (Normal tt,
         {| node := Some el'; frames := []; timers := []; listeners := [];
            d_transition := []; d_wait := []; called := done c;
            done_calls := if done c then 1 else 0; uncaught := [] |})
      ∧ ∀ t, t ∈ classList el' ↔
             t ∈ entered (classes c) ∨ (t ∈ classList el ∧ t ∉ base c).
Proof.
  unfold waitForTransition, initial_world. cbn [node].
  destruct (number_strict_ne _ _).
  - destruct (String.eqb _ _); exec; (split; [done|]); simpl rev; exec;
      erewrite finish_valid by (done || reflexivity); exec;
      (eexists; split; [|intros t; apply elem_of_finish_once]);
      by destruct (done c).
  - exec. erewrite finish_valid by (done || reflexivity). exec.
    destruct (done c) eqn:Hdone; cbn [id]; exec; (split; [done|]);
      simpl rev; exec;
      erewrite finish_valid by (done || reflexivity); rewrite Hdone; exec;
      (eexists; split; [|intros t; apply elem_of_finish_twice]); done.
Qed.

End wait_disposer.

(** X11. Disposing of [waitForTransition] ends the transition. For an
    element and classes that pass the check of the class list, with the
    finish callback of [transition] as its callback: when the disposer
    that [waitForTransition] returned is invoked, the timer or the
    listener it had registered is taken back, the finish callback has run
    (the base classes are gone, the [entered] classes are there) and the
    completion callback has run exactly once, whether the total duration
    was zero or not; invoking that disposer again changes nothing. *)
Theorem waitForTransition_disposer_finishes
    (env : Browser) (c : Call) (el : HTMLElement) :
  let r := waitForTransition env c (initial_world (Some el)) in
  let disposed := d_dispose c dispose_wait r.2 in
  validate_tokens (all_classes (classes c)) = None →
  r.1 = Normal dispose_wait
  ∧ disposed.1 = Normal tt
  ∧ timers disposed.2 = [] ∧ listeners disposed.2 = []
  ∧ d_wait disposed.2 = []
  ∧ done_calls disposed.2 = (if done c then 1 else 0)
  ∧ (∃ el', node disposed.2 = Some el'
            ∧ ∀ t, t ∈ classList el' ↔
                   t ∈ entered (classes c) ∨ (t ∈ classList el ∧ t ∉ base c))
  ∧ d_dispose c dispose_wait disposed.2 = (Normal tt, disposed.2).
Proof.
  intros r disposed Hv. subst disposed r.
  destruct (wait_then_dispose env c el Hv) as (Hr & el' & Hd & Hel').
  rewrite Hd. cbn [fst snd]. split_and!; try done. by exists el'.
Qed.

(** Witness for X11: the sample element with the classes of the sample
    enter transition applied. *)
Lemma waitForTransition_disposer_finishes_witness :
  done_calls
    (d_dispose sample_call dispose_wait
       (waitForTransition sample_browser sample_call
          (initial_world (Some sample_element))).2).2 = 1.
Proof.
  destruct (waitForTransition_disposer_finishes sample_browser sample_call
              sample_element eq_refl) as (_&_&_&_&_&H&_).
  exact H.
Defined.

(** ** The Dialog: setup, stack, sub-components *)

Section dialog_family.
Implicit Types (d api : Dialog) (p : Props) (e : DialogEvent)
  (es : list DialogEvent).


Lemma nestedDialogCount_step e d :
  nestedDialogCount (dialog_step e d)
  = (nestedDialogCount d + stack_delta e)%Z.
Proof.
  destruct e; simpl; rewrite ?Z.add_0_r; try done.
  - by destruct (usesOpenClosedState d).
  - unfold onUpdate. destruct message; destruct (String.eqb type "Dialog");
      simpl; lia.
  - unfold setTitleId. by destruct (decide _).
  - unfold on_keydown.
    by repeat (match goal with
               | |- context [if ?b then _ else _] => destruct b
               end).
  - unfold on_click. by destruct (outside_click_fires _ _ _ _).
Qed.

Lemma append_length (s1 s2 : string) :
  String.length (s1 +:+ s2) = String.length s1 + String.length s2.
Proof.
  induction s1 as [|a s1 IH]; [by rewrite append_empty|].
  rewrite append_String. simpl. by rewrite IH.
Qed.

Lemma append_cancel_r (s1 s2 suffix : string) :
  s1 +:+ suffix = s2 +:+ suffix → s1 = s2.
Proof.
  revert s2. induction s1 as [|a s1 IH]; intros [|b s2] H.
  - done.
  - apply (f_equal String.length) in H.
    rewrite append_empty, append_length in H. simpl in H. lia.
  - apply (f_equal String.length) in H.
    rewrite append_empty, append_length in H. simpl in H. lia.
  - rewrite !append_String in H. injection H as -> H. f_equal. by apply IH.
Qed.

End dialog_family.



(** An array prints as its joined elements, a Symbol does not print. *)
Example setup_with_an_array :
  setup {| props_open := VObject 1 (Normal "1,2") |} None false
  = Throw (Error "You provided an `open` prop to the `Dialog`, but the value is not a boolean. Received: 1,2").
Proof. reflexivity. Qed.

Example setup_with_a_symbol :
  setup {| props_open := VSymbol 1 |} None false
  = Throw (TypeError "Cannot convert a Symbol value to a string").
Proof. reflexivity. Qed.

(** X13. The count of nested Dialogs is a running sum. After any sequence
    of events, the count is what it was plus one for every Add message and
    minus one for every Remove message of type ['Dialog'] among them;
    messages of another type and all other events leave it alone. From
    setup on, the Dialog is a parent exactly when that sum exceeds 1. *)
Theorem nested_count_is_adds_minus_removes
    (es : list DialogEvent) (d : Dialog) :
  nestedDialogCount (dialog_run es d)
  = (nestedDialogCount d + stack_total es)%Z
  ∧ ∀ p ambient hasParent,
      setup p ambient hasParent = Normal d →
      nestedDialogCount (dialog_run es d) = stack_total es
      ∧ (position (dialog_run es d) = parent ↔ (1 < stack_total es)%Z).
Proof.
  assert (nestedDialogCount (dialog_run es d)
          = (nestedDialogCount d + stack_total es)%Z) as Hsum.
  { revert d. unfold dialog_run, stack_total.
    induction es as [|e es IH]; intros d; simpl; [lia|].
    rewrite IH, nestedDialogCount_step. lia. }
  split; [done|]. intros p ambient hasParent Hs.
  assert (nestedDialogCount d = 0%Z) as H0.
  { unfold setup in Hs. destruct (negb _); [done|].
    destruct (negb _); [by destruct (not_a_boolean _ _)|]. by injection Hs as <-. }
  rewrite H0, Z.add_0_l in Hsum. split; [done|].
  unfold position, hasNestedDialogs. rewrite Hsum.
  destruct (1 <? stack_total es)%Z eqn:Hc; simpl.
  - apply Z.ltb_lt in Hc. by split.
  - apply Z.ltb_ge in Hc. split; [done|lia].
Qed.

(** Witness for X13: two Dialogs were added, one of them removed, and a
    message of another type ignored. *)
Lemma nested_count_is_adds_minus_removes_witness :
  nestedDialogCount
    (dialog_run [StackUpdate Add "Dialog" 1; StackUpdate Add "Dialog" 2;
                 StackUpdate Add "Popover" 3; StackUpdate Remove "Dialog" 2]
       sample_dialog) = 1%Z.
Proof.
  exact (proj1 (proj2 (nested_count_is_adds_minus_removes
                         [StackUpdate Add "Dialog" 1; StackUpdate Add "Dialog" 2;
                          StackUpdate Add "Popover" 3;
                          StackUpdate Remove "Dialog" 2] sample_dialog)
                  {| props_open := VBoolean true |} None false eq_refl)).
Defined.

(** X14. A Remove message takes back an Add message. After an Add and a
    Remove of type ['Dialog'] for the same element the count is what it
    was and the containers are the former ones without that element; so
    when the element was not among the containers, the Dialog is exactly
    as before. *)
Theorem stack_remove_takes_back_add (element : nat) (d : Dialog) :
  let d' := onUpdate Remove "Dialog" element (onUpdate Add "Dialog" element d) in
  nestedDialogCount d' = nestedDialogCount d
  ∧ containers d' = filter (λ x, x ≠ element) (containers d)
  ∧ (element ∉ containers d → d' = d).
Proof.
  intros d'. subst d'. unfold onUpdate. cbn [String.eqb Ascii.eqb Bool.eqb negb].
  cbn [with_stack nestedDialogCount containers].
  assert (filter (λ x, x ≠ element)
            (if decide (element ∈ containers d) then containers d
             else containers d ++ [element])
          = filter (λ x, x ≠ element) (containers d)) as Hf.
  { destruct (decide _); [done|].
    rewrite filter_app, filter_cons_False, filter_nil, app_nil_r; [done|].
    by intros ?. }
  split_and!; [lia|done|].
  intros Hout. rewrite Hf.
  assert (filter (λ x, x ≠ element) (containers d) = containers d) as ->.
  { clear Hf. induction (containers d) as [|x l IH]; [done|].
    apply not_elem_of_cons in Hout as [Hx Hl].
    rewrite filter_cons_True by done. by rewrite IH. }
  replace (nestedDialogCount d + 1 - 1)%Z with (nestedDialogCount d) by lia.
  by destruct d.
Qed.

(** Witness for X14. *)
Lemma stack_remove_takes_back_add_witness :
  onUpdate Remove "Dialog" 4 (onUpdate Add "Dialog" 4 sample_dialog)
  = sample_dialog.
Proof.
  apply (proj2 (proj2 (stack_remove_takes_back_add 4 sample_dialog))).
  apply not_elem_of_nil.
Defined.

(** X15. A sub-component outside a Dialog. Each of DialogOverlay,
    DialogBackdrop, DialogPanel and DialogTitle throws from its setup when
    there is no Dialog above it, and returns the Dialog's api when there
    is one; the Error's message holds the name of the component between
    [<] and [ />], so two components never share a message. DialogBackdrop
    throws from its mounted hook exactly when the Dialog has no panel. *)
Theorem subcomponent_needs_a_dialog :
  (∀ component,
     useDialogContext None component
     = Throw (Error ("<" +:+ component
                     +:+ " /> is missing a parent <Dialog /> component.")))
  ∧ (∀ component1 component2,
       useDialogContext None component1 = useDialogContext None component2 →
       component1 = component2)
  ∧ (∀ api component, useDialogContext (Some api) component = Normal api)
  ∧ DialogOverlay.setup None
    = Throw (Error "<DialogOverlay /> is missing a parent <Dialog /> component.")
  ∧ DialogBackdrop.setup None
    = Throw (Error "<DialogBackdrop /> is missing a parent <Dialog /> component.")
  ∧ DialogPanel.setup None
    = Throw (Error "<DialogPanel /> is missing a parent <Dialog /> component.")
  ∧ DialogTitle.setup None
    = Throw (Error "<DialogTitle /> is missing a parent <Dialog /> component.")
  ∧ (∀ api,
       is_throw (DialogBackdrop.onMounted api) = true ↔ panelRef api = None).
Proof.
  split_and!; try done.
  - intros component1 component2 [= H]. rewrite !append_empty in H.
    by apply append_cancel_r in H.
  - intros api. unfold DialogBackdrop.onMounted.
    destruct (panelRef api); split; done.
Qed.

(** X16. A click on the overlay. A click whose target is the overlay
    itself is marked (default prevented, propagation stopped) and calls
    [close()], whatever the state of the Dialog: open or not, leaf or
    parent. A click that came up from a child of the overlay is left as it
    is and closes nothing. A click on the panel has its propagation
    stopped and nothing else. *)
Theorem overlay_closes_on_a_direct_click
    (event : MouseEvent.t) (api : Dialog) :
  let r := DialogOverlay.handleClick event api in
  (MouseEvent.target event = MouseEvent.currentTarget event →
   r.2 = close api
   ∧ emitted r.2 = emitted api ++ [("close"%string, VBoolean false)]
   ∧ MouseEvent.defaultPrevented r.1 = true
   ∧ MouseEvent.propagationStopped r.1 = true)
  ∧ (MouseEvent.target event ≠ MouseEvent.currentTarget event →
     r = (event, api))
  ∧ MouseEvent.propagationStopped (DialogPanel.handleClick event) = true
  ∧ MouseEvent.defaultPrevented (DialogPanel.handleClick event)
    = MouseEvent.defaultPrevented event.
Proof.
  intros r. subst r. unfold DialogOverlay.handleClick. split_and!; [| |done|done].
  - intros ->. by rewrite Nat.eqb_refl.
  - intros Hne. apply Nat.eqb_neq in Hne. by rewrite Hne.
Qed.

(** Witness for X16: a direct click on the overlay of a Dialog that is not
    mounted yet. *)
Lemma overlay_closes_on_a_direct_click_witness :
  emitted
    (DialogOverlay.handleClick
       {| MouseEvent.target := 3; MouseEvent.currentTarget := 3;
          MouseEvent.defaultPrevented := false;
          MouseEvent.propagationStopped := false |} sample_dialog).2
  = [("close"%string, VBoolean false)].
Proof.
  exact (proj1 (proj2 (proj1 (overlay_closes_on_a_direct_click
                    {| MouseEvent.target := 3; MouseEvent.currentTarget := 3;
                       MouseEvent.defaultPrevented := false;
                       MouseEvent.propagationStopped := false |}
                    sample_dialog) eq_refl))).
Defined.

(** X17. What the Escape listener reacts to. A keydown closes the Dialog
    exactly when the event has not been default-prevented by an earlier
    listener, its key is Escape, the Dialog is open and has no nested
    Dialog: the listener then prevents the default, stops the propagation
    and calls [close()]. In every other case (another key, an event that
    was already default-prevented, a Dialog that is closed or a parent)
    the event and the Dialog are left as they are. *)
Theorem escape_closes_exactly_when_unhandled
    (event : KeyboardEvent) (d : Dialog) :
  let reacts :=
    defaultPrevented event = false ∧ key event = "Escape"%string
    ∧ dialogState d = DialogStates.Open ∧ hasNestedDialogs d = false in
  (reacts →
   on_keydown event d
   = ({| key := key event; defaultPrevented := true;
         propagationStopped := true |}, close d))
  ∧ (¬ reacts → on_keydown event d = (event, d))
  ∧ (emitted (on_keydown event d).2 ≠ emitted d → reacts).
Proof.
  intros reacts. subst reacts. unfold on_keydown, Keys_Escape.
  destruct (defaultPrevented event) eqn:Hp.
  { split_and!; [by intros [? _]|done|done]. }
  destruct (String.eqb (key event) "Escape") eqn:Hk; cbn [negb].
  2: { apply String.eqb_neq in Hk.
       split_and!; [by intros (_ & ? & _)|done|done]. }
  apply String.eqb_eq in Hk.
  destruct (decide (dialogState d = DialogStates.Open)) as [Ho|Hc].
  2: { rewrite bool_decide_eq_false_2 by done. cbn [negb].
       split_and!; [by intros (_ & _ & ? & _)|done|done]. }
  rewrite bool_decide_eq_true_2 by done. cbn [negb].
  destruct (hasNestedDialogs d) eqn:Hn.
  { split_and!; [by intros (_ & _ & _ & ?)|done|done]. }
  split_and!; [done|intros H; by destruct H|done].
Qed.

(** Witness for X17: Escape on the open sample Dialog, after another
    listener has prevented the default. *)
Lemma escape_closes_exactly_when_unhandled_witness :
  on_keydown
    {| key := "Escape"; defaultPrevented := true; propagationStopped := false |}
    sample_open_dialog
  = ({| key := "Escape"; defaultPrevented := true;
        propagationStopped := false |}, sample_open_dialog).
Proof.
  apply (proj1 (proj2 (escape_closes_exactly_when_unhandled
                         {| key := "Escape"; defaultPrevented := true;
                            propagationStopped := false |}
                         sample_open_dialog))).
  by intros [[=] _].
Defined.

(** ** Inside and outside the Dialog *)

Section allowed_containers.
Implicit Types (t : Tree) (d : Dialog) (target : nat) (p : Page).

Lemma some_contains_existsb t target (l : list (option nat)) :
  None ∉ l →
  some_contains t target l
  = Normal (existsb (λ c, match c with
                          | Some container => contains t container target
                          | None => false
                          end) l).
Proof.
  induction l as [|[c|] l IH]; intros Hl; simpl; [done| |].
  - apply not_elem_of_cons in Hl as [_ Hl].
    destruct (contains t c target); [done|by apply IH].
  - exfalso. apply Hl. rewrite elem_of_cons. by left.
Qed.

Lemma some_contains_roots t target (roots : list nat) :
  (∀ c, c ∈ roots → contains t c target = false) →
  some_contains t target (map Some roots ++ [None])
  = Throw (TypeError "Cannot read properties of null (reading 'contains')").
Proof.
  induction roots as [|c roots IH]; intros Hr; simpl; [done|].
  rewrite (Hr c) by (rewrite elem_of_cons; by left).
  apply IH. intros c' Hc'. apply Hr. rewrite elem_of_cons. by right.
Qed.

Lemma allowed_containers_bound t d :
  own_container d ≠ None → None ∉ resolveAllowedContainers t d.
Proof.
  intros Hown. unfold resolveAllowedContainers. fold (own_container d).
  rewrite elem_of_app, list_elem_of_singleton.
  intros [(c & [=] & _)%list_elem_of_fmap|Hn]; by apply Hown.
Qed.

Lemma some_contains_false t target (l : list (option nat)) :
  some_contains t target l = Normal false →
  existsb (λ c, match c with
                | Some container => contains t container target
                | None => false
                end) l = false.
Proof.
  induction l as [|[c|] l IH]; simpl; [done| |done].
  destruct (contains t c target); [done|apply IH].
Qed.

Lemma on_document_click_outside t d target p :
  own_container d ≠ None → click_listener p = true → outside t d target →
  on_document_click t d target p
  = with_scrollToElement (Some target) (scrolled_into_view p) p.
Proof.
  intros Hown Hc Hout. unfold on_document_click. rewrite Hc.
  rewrite some_contains_existsb by by apply allowed_containers_bound.
  by rewrite (proj2 (allowed_containers_outside t d target) Hout).
Qed.

Lemma on_document_click_spared t d target p :
  ¬ (click_listener p = true ∧ outside t d target) →
  on_document_click t d target p = p.
Proof.
  intros Hn. unfold on_document_click.
  destruct (click_listener p); [|done].
  destruct (some_contains _ _ _) as [[]|] eqn:Hs; try done.
  apply some_contains_false, allowed_containers_outside in Hs. tauto.
Qed.

(** With neither panel nor root element bound, the click listener remembers
    nothing: an earlier container holds the element, or [some] throws. *)
Lemma on_document_click_unbound t d target p :
  own_container d = None → on_document_click t d target p = p.
Proof.
  intros Hown. unfold on_document_click.
  destruct (click_listener p); [|done].
  unfold resolveAllowedContainers. fold (own_container d). rewrite Hown.
  induction (map Some _) as [|[c|] l IH]; simpl; try done.
  by destruct (contains t c target).
Qed.

End allowed_containers.

(** X18. What an outside click is. No allowed container of the Dialog
    holds an element exactly when the element is outside: not in the
    panel (not in the root element, when there is no panel) and in no
    element of [body > *, [data-headlessui-portal]] other than those that
    hold the main tree node or the panel. A click closes the Dialog
    exactly when the Dialog is open, has no nested Dialog, and the target
    is outside; it then emits one [close] and asks for the focus to go to
    the target, and in every other case the click changes nothing. So a
    click inside the panel never closes the Dialog. *)
Theorem click_closes_exactly_when_outside
    (t : Tree) (target : nat) (d : Dialog) :
  (existsb (λ c, match c with
                 | Some container => contains t container target
                 | None => false
                 end) (resolveAllowedContainers t d) = false
   ↔ outside t d target)
  ∧ (dialogState d = DialogStates.Open ∧ hasNestedDialogs d = false
     ∧ outside t d target →
     on_click t target d = nextTick_focus target (close d))
  ∧ (¬ (dialogState d = DialogStates.Open ∧ hasNestedDialogs d = false
        ∧ outside t d target) →
     on_click t target d = d)
  ∧ (∀ panel, panelRef d = Some panel → contains t panel target = true →
              on_click t target d = d)
  ∧ (∀ root, panelRef d = None → internalDialogRef d = Some root →
             contains t root target = true → on_click t target d = d).
Proof.
  assert (¬ (dialogState d = DialogStates.Open ∧ hasNestedDialogs d = false
             ∧ outside t d target) → on_click t target d = d) as Hno.
  { intros Hn. unfold on_click.
    destruct (outside_click_fires _ _ _ _) eqn:Hf; [|done].
    by apply outside_click_fires_outside in Hf. }
  split_and!; [apply allowed_containers_outside| |done| |].
  - intros H. unfold on_click.
    by rewrite (proj2 (outside_click_fires_outside t d target) H).
  - intros panel Hp Hin. apply Hno. intros (_ & _ & Hout).
    by apply (inside_the_panel t d target panel).
  - intros root Hp Hr Hin. apply Hno. intros (_ & _ & Hout).
    by apply (inside_the_root t d target root).
Qed.

(** Witness for X18: a click in the main application, outside the panel of
    the open sample Dialog. *)
Lemma click_closes_exactly_when_outside_witness :
  on_click sample_tree 15 sample_open_dialog
  = nextTick_focus 15 (close sample_open_dialog).
Proof.
  apply (proj1 (proj2 (click_closes_exactly_when_outside sample_tree 15
                         sample_open_dialog))).
  split_and!; [reflexivity|reflexivity|].
  by apply allowed_containers_outside.
Defined.

(** X19. The two document listeners of the scroll lock spare the Dialog.
    For a Dialog that has a panel or a root element, while the listeners
    are registered: the touchmove listener cancels a touch exactly when
    its target is outside, in the sense of the outside click, and the
    click listener remembers the element an anchor's hash selects exactly
    when that element is outside. A touch inside the panel is never
    cancelled, and an element inside the panel is never remembered. For a
    Dialog with neither panel nor root element the last allowed container
    is [null], and the touchmove listener throws a TypeError on a touch
    that no other container holds. *)
Theorem scroll_guards_spare_the_dialog
    (t : Tree) (d : Dialog) (target : nat) (p : Page) :
  (touchmove_listener p = false → on_touchmove t d target p = Normal false)
  ∧ (own_container d ≠ None →
     (touchmove_listener p = true → outside t d target →
      on_touchmove t d target p = Normal true)
     ∧ (¬ outside t d target → on_touchmove t d target p = Normal false)
     ∧ (click_listener p = true → outside t d target →
        on_document_click t d target p
        = with_scrollToElement (Some target) (scrolled_into_view p) p)
     ∧ (¬ (click_listener p = true ∧ outside t d target) →
        on_document_click t d target p = p))
  ∧ (∀ panel, panelRef d = Some panel → contains t panel target = true →
              on_touchmove t d target p = Normal false
              ∧ on_document_click t d target p = p)
  ∧ (own_container d = None → touchmove_listener p = true →
     outside t d target →
     on_touchmove t d target p
     = Throw (TypeError "Cannot read properties of null (reading 'contains')")).
Proof.
  pose proof (on_document_click_spared t d target p) as Hno.
  assert (own_container d ≠ None →
          on_touchmove t d target p
          = Normal (touchmove_listener p
                    && negb (existsb (λ c, match c with
                                           | Some container =>
                                               contains t container target
                                           | None => false
                                           end)
                               (resolveAllowedContainers t d)))) as Htouch.
  { intros Hown. unfold on_touchmove.
    destruct (touchmove_listener p); [|done].
    by rewrite some_contains_existsb by by apply allowed_containers_bound. }
  split_and!.
  - intros Hl. unfold on_touchmove. by rewrite Hl.
  - intros Hown. rewrite (Htouch Hown). split_and!.
    + intros -> Hout.
      by rewrite (proj2 (allowed_containers_outside t d target) Hout).
    + intros Hin. destruct (existsb _ _) eqn:He.
      * by rewrite andb_false_r.
      * by apply allowed_containers_outside in He.
    + by apply on_document_click_outside.
    + done.
  - intros panel Hp Hin.
    pose proof (inside_the_panel t d target panel Hp Hin) as Hinside. split.
    + rewrite Htouch by (unfold own_container; by rewrite Hp).
      destruct (existsb _ _) eqn:He; [by rewrite andb_false_r|].
      by apply allowed_containers_outside in He.
    + apply Hno. tauto.
  - intros Hown Hl [_ Hroots]. unfold on_touchmove. rewrite Hl.
    unfold resolveAllowedContainers. fold (own_container d). rewrite Hown.
    rewrite some_contains_roots; [done|].
    intros c Hc. apply list_elem_of_In, filter_In in Hc as [Hc Hkeep].
    apply list_elem_of_In in Hc.
    destruct (contains t c target) eqn:Hin; [|done].
    destruct (Hroots c Hc Hin) as [Hmain|Hpanel].
    + by rewrite Hmain in Hkeep.
    + destruct (contains_ref t c (mainTreeNode d)); [done|].
      unfold contains_ref in Hpanel.
      destruct (panelRef d); [by rewrite Hpanel in Hkeep|done].
Qed.

(** Witness for X19: while the listeners are registered, a touch in the
    main application is cancelled. *)
Lemma scroll_guards_spare_the_dialog_witness :
  on_touchmove sample_tree sample_open_dialog 15
    (with_document_listeners true true sample_page) = Normal true.
Proof.
  destruct (scroll_guards_spare_the_dialog sample_tree sample_open_dialog
              15 (with_document_listeners true true sample_page))
    as (_ & H & _).
  apply H; [done|reflexivity|]. by apply allowed_containers_outside.
Defined.

(** ** What the Dialog emits *)

Section emitted_events.
Implicit Types (d : Dialog) (e : DialogEvent).

Lemma emitted_close d : emitted (close d) = emitted d ++ [close_event].
Proof. done. Qed.

Lemma emitted_intersection_callback entries d :
  emitted (intersection_callback entries d)
  = emitted d
    ++ replicate (length (List.filter is_collapsed entries)) close_event.
Proof.
  revert d. unfold intersection_callback.
  induction entries as [|rect entries IH]; intros d; simpl.
  - by rewrite app_nil_r.
  - rewrite IH. destruct (is_collapsed rect); [|done].
    rewrite emitted_close, <- app_assoc. done.
Qed.


Lemma emitted_dialog_step e d :
  ∃ n, emitted (dialog_step e d) = emitted d ++ replicate n close_event.
Proof.
  destruct e; simpl; try (by exists 0; rewrite app_nil_r).
  - destruct (usesOpenClosedState d); by exists 0; rewrite app_nil_r.
  - unfold onUpdate. destruct (negb _); [by exists 0; rewrite app_nil_r|].
    destruct message; by exists 0; rewrite app_nil_r.
  - unfold setTitleId. destruct (decide _); by exists 0; rewrite app_nil_r.
  - unfold on_keydown.
    repeat (match goal with
            | |- context [if ?b then _ else _] => destruct b
            end); try (by exists 0; rewrite app_nil_r).
    by exists 1.
  - unfold on_click. destruct (outside_click_fires _ _ _ _);
      [by exists 1|by exists 0; rewrite app_nil_r].
  - by exists 1.
Qed.

Lemma emitted_family_step (e : FamilyEvent) d :
  ∃ n, emitted (family_step e d) = emitted d ++ replicate n close_event.
Proof.
  destruct e as [e|event|id| |entries]; simpl.
  - apply emitted_dialog_step.
  - unfold DialogOverlay.handleClick.
    destruct (negb _); [by exists 0; rewrite app_nil_r|by exists 1].
  - unfold DialogTitle.onMounted, setTitleId.
    destruct (decide _); by exists 0; rewrite app_nil_r.
  - unfold DialogTitle.onUnmounted, setTitleId.
    destruct (decide _); by exists 0; rewrite app_nil_r.
  - unfold on_intersection. destruct (observing d).
    + eexists. apply emitted_intersection_callback.
    + by exists 0; rewrite app_nil_r.
Qed.

End emitted_events.



(** X21. The Dialog emits nothing but [close] with the payload [false].
    Whatever happens to a Dialog and its sub-components (mounting, new
    props, a new ambient state, refs, stack messages, titles, keys,
    clicks inside or outside, clicks on the overlay, deliveries of the
    intersection observer, calls of [close()]), what it has emitted
    afterwards is what it had emitted before, followed by some number of
    [close] events with the payload [false]. *)
Theorem dialog_emits_only_close_false
    (es : list FamilyEvent) (d : Dialog) :
  ∃ n,
    emitted (family_run es d)
    = emitted d ++ replicate n ("close"%string, VBoolean false).
Proof.
  revert d. unfold family_run.
  induction es as [|e es IH]; intros d; simpl.
  - exists 0. by rewrite app_nil_r.
  - destruct (IH (family_step e d)) as [n Hn].
    destruct (emitted_family_step e d) as [k Hk].
    exists (k + n). rewrite Hn, Hk, <- app_assoc. f_equal.
    by rewrite replicate_add.
Qed.

(** ** The title and the rendered props *)

Section title.
Implicit Types (d : Dialog) (es : list FamilyEvent).

Lemma titleId_setTitleId id d : titleId (setTitleId id d) = id.
Proof. unfold setTitleId. by destruct (decide _). Qed.

Lemma titleId_family_step (e : FamilyEvent) d :
  about_title e = false → titleId (family_step e d) = titleId d.
Proof.
  destruct e as [e|event|id| |entries]; simpl; try done.
  - destruct e; simpl; try done.
    + by destruct (usesOpenClosedState d).
    + intros _. unfold onUpdate. destruct (negb _); [done|]. by destruct message.
    + intros _. unfold on_keydown.
      by repeat (match goal with
                 | |- context [if ?b then _ else _] => destruct b
                 end).
    + intros _. unfold on_click. by destruct (outside_click_fires _ _ _ _).
  - intros _. unfold DialogOverlay.handleClick. by destruct (negb _).
  - intros _. unfold on_intersection. destruct (observing d); [|done].
    unfold intersection_callback. revert d.
    induction entries as [|rect entries IH]; intros d; simpl; [done|].
    rewrite IH. by destruct (is_collapsed rect).
Qed.

Lemma titleId_family_run es d :
  forallb (λ e, negb (about_title e)) es = true →
  titleId (family_run es d) = titleId d.
Proof.
  revert d. unfold family_run.
  induction es as [|e es IH]; intros d; simpl; [done|].
  intros [He Hes]%andb_true_iff. apply negb_true_iff in He.
  by rewrite IH, titleId_family_step.
Qed.

Lemma family_run_app es1 es2 d :
  family_run (es1 ++ es2) d = family_run es2 (family_run es1 d).
Proof. apply foldl_app. Qed.

End title.

(** X22. The title's id. When a DialogTitle has mounted, its id is the
    [titleId] of the Dialog, and so the [aria-labelledby] the Dialog
    renders, for as long as no title mounts or unmounts, whatever else
    happens; when it unmounts, [titleId] is [null]. The last title event
    decides: when a second title mounts its id replaces the first, and
    when either of the two unmounts [titleId] is [null] although the other
    is still mounted. *)
Theorem title_id_follows_the_last_title_event
    (F : FocusTrapFeatures) (d : Dialog) (id : string)
    (es : list FamilyEvent) :
  forallb (λ e, negb (about_title e)) es = true →
  titleId (family_run (TitleMount id :: es) d) = Some id
  ∧ aria_labelledby (render_dialog F (family_run (TitleMount id :: es) d))
    = Some id
  ∧ titleId (family_run (TitleMount id :: es ++ [TitleUnmount]) d) = None
  ∧ ∀ id2,
      titleId (family_run (TitleMount id :: es ++ [TitleMount id2]) d)
      = Some id2
      ∧ titleId
          (family_run (TitleMount id :: es ++ [TitleMount id2; TitleUnmount])
             d) = None.
Proof.
  intros Hes.
  assert (titleId (family_run (TitleMount id :: es) d) = Some id) as Hid.
  { change (titleId (family_run es (DialogTitle.onMounted id d)) = Some id).
    rewrite titleId_family_run by done. apply titleId_setTitleId. }
  split_and!; [done|done| |].
  - rewrite app_comm_cons, family_run_app. apply titleId_setTitleId.
  - intros id2. split.
    + rewrite app_comm_cons, family_run_app. apply titleId_setTitleId.
    + rewrite app_comm_cons, family_run_app.
      change (titleId (DialogTitle.onUnmounted
                         (DialogTitle.onMounted id2
                            (family_run (TitleMount id :: es) d))) = None).
      apply titleId_setTitleId.
Qed.

(** Witness for X22: a title mounts, the Dialog is mounted and a key is
    pressed. *)
Lemma title_id_follows_the_last_title_event_witness :
  titleId
    (family_run
       [TitleMount "headlessui-dialog-title-1"; OfDialog Mounted;
        OfDialog (Keydown {| key := "Escape"; defaultPrevented := false;
                             propagationStopped := false |})]
       sample_dialog)
  = Some "headlessui-dialog-title-1"%string.
Proof.
  exact (proj1 (title_id_follows_the_last_title_event
                  {| features_None := 1; features_RestoreFocus := 16;
                     features_FocusLock := 8; features_All := 30 |}
                  sample_dialog "headlessui-dialog-title-1"
                  [OfDialog Mounted;
                   OfDialog (Keydown {| key := "Escape";
                                        defaultPrevented := false;
                                        propagationStopped := false |})]
                  eq_refl)).
Defined.

Section bits.
Implicit Types (a b z : Z).





End bits.



(** ** The scroll lock, field by field *)

Section lock_fields.
Implicit Types (v : Viewport) (d : Dialog) (p : Page) (c : LockCleanup)
  (cs : list LockCleanup).

Lemma scroll_lock_runs v d p :
  lock_runs v d = true → scroll_lock v d p = page_locked v p.
Proof.
  unfold lock_runs, scroll_lock.
  destruct (bool_decide _); [|done].
  destruct (hasParentDialog d); [done|].
  destruct (has_document v); [|done]. intros _.
  destruct p as [root bd y cl tm ste siv lk].
  unfold page_locked, lock_registered, root_locked, root_restores,
    scrollbar_before, body_locked.
  cbn [documentElement body lock pageYOffset negb click_listener
       touchmove_listener scrollToElement scrolled_into_view].
  destruct (0 <? innerWidth v - clientWidth v root)%Z; destruct (isIOS v);
    unfold style;
    cbn [lock with_lock with_document_listeners scrollTo assign_style
         with_scrollToElement with_styled styled documentElement body
         pageYOffset click_listener touchmove_listener scrollToElement
         scrolled_into_view];
    rewrite <- ?app_assoc; reflexivity.
Qed.

Lemma fields_run_lock_cleanup v c p :
  pageYOffset (run_lock_cleanup v c p) = scroll_after c (pageYOffset p)
  ∧ click_listener (run_lock_cleanup v c p) = click_after c (click_listener p)
  ∧ touchmove_listener (run_lock_cleanup v c p)
    = touchmove_after c (touchmove_listener p)
  ∧ body (run_lock_cleanup v c p) = body_after c (body p)
  ∧ lock (run_lock_cleanup v c p) = lock p.
Proof.
  destruct c as [[] property previous| | |y]; simpl; try done.
  destruct (scrollToElement p) as [el|]; [|done].
  by destruct (isConnected v el).
Qed.

Lemma fields_cleanups v cs p :
  let q := foldl (λ p c, run_lock_cleanup v c p) p cs in
  pageYOffset q = foldl (λ y c, scroll_after c y) (pageYOffset p) cs
  ∧ click_listener q = foldl (λ b c, click_after c b) (click_listener p) cs
  ∧ touchmove_listener q
    = foldl (λ b c, touchmove_after c b) (touchmove_listener p) cs
  ∧ body q = foldl (λ el c, body_after c el) (body p) cs
  ∧ lock q = lock p.
Proof.
  revert p. induction cs as [|c cs IH]; intros p; simpl; [done|].
  destruct (fields_run_lock_cleanup v c p) as (Hy & Hc & Ht & Hb & Hl).
  destruct (IH (run_lock_cleanup v c p)) as (Hy' & Hc' & Ht' & Hb' & Hl').
  simpl in *. by rewrite Hy', Hc', Ht', Hb', Hl', Hy, Hc, Ht, Hb, Hl.
Qed.

Lemma lock_unlock v p : lock (unlock v p) = [].
Proof.
  unfold unlock. by destruct (fields_cleanups v (rev (lock p)) (with_lock [] p))
    as (_&_&_&_&->).
Qed.

Lemma unlock_unlocked v p : lock p = [] → unlock v p = p.
Proof. intros Hl. unfold unlock. rewrite Hl. by destruct p; simpl in *; subst. Qed.

End lock_fields.

Section lock_release.
Implicit Types (v : Viewport) (d : Dialog) (p q : Page) (c : LockCleanup)
  (cs : list LockCleanup).

Lemma foldl_unchanged {A : Type} (f : LockCleanup → A → A) cs (x : A) :
  (∀ c, c ∈ cs → f c = id) → foldl (λ x c, f c x) x cs = x.
Proof.
  induction cs as [|c cs IH]; intros Hcs; simpl; [done|].
  rewrite (Hcs c) by (rewrite elem_of_cons; by left).
  apply IH. intros c' Hc'. apply Hcs. rewrite elem_of_cons. by right.
Qed.

Lemma root_restores_root_only v root c :
  c ∈ rev (root_restores v root) →
  scroll_after c = id ∧ click_after c = id ∧ touchmove_after c = id
  ∧ body_after c = id ∧ restores_scroll c = false.
Proof.
  intros Hc. apply list_elem_of_In, in_rev, list_elem_of_In in Hc.
  unfold root_restores in Hc.
  destruct (0 <? scrollbar_before v root)%Z;
    repeat (apply elem_of_cons in Hc as [->|Hc]; [done|]);
    by apply elem_of_nil in Hc.
Qed.

(** The fields of a page the lock was taken on and is released from. *)
Lemma unlock_after_lock v p q :
  lock q = lock_registered v p →
  pageYOffset (unlock v q)
  = (if isIOS v then pageYOffset q + pageYOffset p else pageYOffset q)%Z
  ∧ click_listener (unlock v q)
    = (if isIOS v then false else click_listener q)
  ∧ touchmove_listener (unlock v q)
    = (if isIOS v then false else touchmove_listener q)
  ∧ body (unlock v q)
    = (if isIOS v then
         set_style (body q)
           (style_assign (inline_style (body q)) "marginTop"
              (getPropertyValue (inline_style (body p)) "marginTop"))
       else body q).
Proof.
  intros Hl. unfold unlock.
  destruct (fields_cleanups v (rev (lock q)) (with_lock [] q))
    as (Hy & Hc & Ht & Hb & _).
  simpl in Hy, Hc, Ht, Hb. rewrite Hy, Hc, Ht, Hb, Hl. clear Hy Hc Ht Hb.
  unfold lock_registered. rewrite rev_app_distr, !foldl_app.
  pose proof (root_restores_root_only v (documentElement p)) as Hroot.
  rewrite (foldl_unchanged scroll_after (rev (root_restores _ _)))
    by (intros c Hc; by apply Hroot).
  rewrite (foldl_unchanged click_after (rev (root_restores _ _)))
    by (intros c Hc; by apply Hroot).
  rewrite (foldl_unchanged touchmove_after (rev (root_restores _ _)))
    by (intros c Hc; by apply Hroot).
  rewrite (foldl_unchanged body_after (rev (root_restores _ _)))
    by (intros c Hc; by apply Hroot).
  by destruct (isIOS v).
Qed.

Lemma released_after_lock v d overflow q :
  released overflow q → released overflow (unlock v (scroll_lock v d q)).
Proof.
  intros [(Hl & Hc & Ht) Ho].
  destruct (lock_runs v d) eqn:Hr.
  - split; [split_and!|].
    + apply lock_unlock.
    + destruct (unlock_after_lock v q (scroll_lock v d q)) as (_ & -> & _).
      { rewrite scroll_lock_runs by done. simpl. by rewrite Hl. }
      rewrite scroll_lock_runs by done. simpl. by destruct (isIOS v).
    + destruct (unlock_after_lock v q (scroll_lock v d q)) as (_ & _ & -> & _).
      { rewrite scroll_lock_runs by done. simpl. by rewrite Hl. }
      rewrite scroll_lock_runs by done. simpl. by destruct (isIOS v).
    + by rewrite unlock_restores_overflow.
  - rewrite scroll_lock_skipped, unlock_unlocked by done. by split.
Qed.

Lemma released_unlock_same v overflow p p' :
  documentElement p' = documentElement p →
  click_listener p' = click_listener p →
  touchmove_listener p' = touchmove_listener p →
  lock p' = lock p →
  released overflow (unlock v p) → released overflow (unlock v p').
Proof.
  intros Hd Hc Ht Hl [(Hl' & Hc' & Ht') Ho].
  unfold released, unlocked. rewrite !lock_unlock.
  rewrite documentElement_unlock in *. rewrite Hd, Hl.
  unfold unlock in *.
  destruct (fields_cleanups v (rev (lock p)) (with_lock [] p))
    as (_ & Hcp & Htp & _).
  destruct (fields_cleanups v (rev (lock p')) (with_lock [] p'))
    as (_ & Hcp' & Htp' & _).
  simpl in *. rewrite Hcp', Htp', Hc, Ht, Hl, <- Hcp, <- Htp. tauto.
Qed.

Lemma released_step v overflow (e : AppEvent) (a : App) :
  released overflow (unlock v (page a)) →
  released overflow (unlock v (page (app_step v e a))).
Proof.
  intros Ha. destruct e as [ev|t el|]; simpl.
  - destruct (decide _); [done|]. simpl. by apply released_after_lock.
  - unfold on_document_click. destruct (click_listener (page a)); [|done].
    destruct (some_contains _ _ _) as [[]|]; [done| |done].
    by apply (released_unlock_same v overflow (page a)).
  - by rewrite (unlock_unlocked v (unlock v (page a))) by apply lock_unlock.
Qed.

Lemma released_run v overflow (es : list AppEvent) (a : App) :
  released overflow (unlock v (page a)) →
  released overflow (unlock v (page (app_run v es a))).
Proof.
  revert a. unfold app_run.
  induction es as [|e es IH]; intros a Ha; simpl; [done|].
  by apply IH, released_step.
Qed.

Lemma app_run_app v (es1 es2 : list AppEvent) (a : App) :
  app_run v (es1 ++ es2) a = app_run v es2 (app_run v es1 a).
Proof. apply foldl_app. Qed.

Lemma hasParentDialog_step (e : DialogEvent) d :
  hasParentDialog (dialog_step e d) = hasParentDialog d.
Proof.
  destruct e; simpl; try done.
  - by destruct (usesOpenClosedState d).
  - unfold onUpdate. destruct (negb _); [done|]. by destruct message.
  - unfold setTitleId. by destruct (decide _).
  - unfold on_keydown.
    by repeat (match goal with
               | |- context [if ?b then _ else _] => destruct b
               end).
  - unfold on_click. by destruct (outside_click_fires _ _ _ _).
Qed.

Lemma lock_never_runs v d :
  hasParentDialog d = true ∨ has_document v = false → lock_runs v d = false.
Proof.
  unfold lock_runs. intros [->| ->]; [by rewrite andb_false_r|].
  by rewrite andb_false_r.
Qed.

Lemma page_kept_step v (e : AppEvent) (a : App) :
  hasParentDialog (dialog a) = true ∨ has_document v = false →
  unlocked (page a) →
  page (app_step v e a) = page a
  ∧ hasParentDialog (dialog (app_step v e a)) = hasParentDialog (dialog a).
Proof.
  intros Hn (Hl & Hc & Ht). destruct e as [ev|t el|]; simpl.
  - destruct (decide _); simpl; (split; [|apply hasParentDialog_step]); [done|].
    rewrite unlock_unlocked by done. apply scroll_lock_skipped.
    apply lock_never_runs. by rewrite hasParentDialog_step.
  - split; [|done]. unfold on_document_click. by rewrite Hc.
  - split; [|done]. by apply unlock_unlocked.
Qed.

End lock_release.



(** X25. On iOS the release of the lock removes the inline [margin-top] of
    the body. The lock reads the former value with
    [getPropertyValue('marginTop')], which names no CSS property and so
    gives the empty string; the release assigns that, which removes the
    declaration, whatever the body declared before the lock. *)
Theorem ios_release_removes_margin_top
    (v : Viewport) (d : Dialog) (p : Page) :
  isIOS v = true → lock_runs v d = true → lock p = [] →
  inline_style (body p) !! "margintop" = None →
  inline_style (body (unlock v (scroll_lock v d p))) !! "margin-top" = None.
Proof.
  intros Hios Hr Hl Hk. rewrite scroll_lock_runs by done.
  destruct (unlock_after_lock v p (page_locked v p)) as (_ & _ & _ & ->).
  { simpl. by rewrite Hl. }
  rewrite Hios. cbn [inline_style set_style].
  assert (getPropertyValue (inline_style (body p)) "marginTop" = EmptyString)
    as ->.
  { unfold getPropertyValue.
    change (ascii_lowercase "marginTop") with "margintop"%string.
    by rewrite Hk. }
  unfold style_assign at 1. simpl string_truthy. cbv iota.
  change (idl_attribute_to_css_property "marginTop") with "margin-top"%string.
  apply lookup_delete_eq.
Qed.

(** Witness for X25: the body of the sample iOS page declares
    [margin-top: 8px]. *)
Lemma ios_release_removes_margin_top_witness :
  inline_style (body sample_ios_page) !! "margin-top" = Some "8px"%string
  ∧ inline_style
      (body (unlock sample_ios_viewport
               (scroll_lock sample_ios_viewport sample_open_dialog
                  sample_ios_page))) !! "margin-top" = None.
Proof.
  split; [reflexivity|].
  apply ios_release_removes_margin_top; reflexivity.
Defined.

(** X26. A nested Dialog never locks the page. For a Dialog that found a
    Dialog above it at setup, and for any Dialog that has no owner
    document: whatever happens (mounting, opening, closing, stack
    messages, keys, clicks, document clicks, unmounting), a page the lock
    held nothing of stays exactly as it is: no style of the root or the
    body is patched, the page is not scrolled, no listener is
    registered. *)
Theorem nested_dialog_never_locks
    (v : Viewport) (a : App) (es : list AppEvent) :
  hasParentDialog (dialog a) = true ∨ has_document v = false →
  unlocked (page a) →
  page (app_run v es a) = page a.
Proof.
  revert a. unfold app_run.
  induction es as [|e es IH]; intros a Hn Hu; simpl; [done|].
  destruct (page_kept_step v e a Hn Hu) as [Hp Hd].
  rewrite IH.
  - done.
  - destruct Hn as [Hn|Hn]; [left; by rewrite Hd|by right].
  - by rewrite Hp.
Qed.

(** Witness for X26: the sample Dialog as a nested Dialog, mounted open and
    unmounted. *)
Lemma nested_dialog_never_locks_witness :
  page
    (app_run sample_viewport [Component Mounted; Unmounted]
       {| dialog :=
            {| props := {| props_open := VBoolean true |};
               usesOpenClosedState := None; hasParentDialog := true;
               ready := false; nestedDialogCount := 0; containers := [];
               internalDialogRef := None; mainTreeNode := None;
               titleId := None; panelRef := None; emitted := [];
               focus_on_nextTick := [] |};
          page := sample_page |})
  = sample_page.
Proof.
  apply (nested_dialog_never_locks sample_viewport
           {| dialog :=
                {| props := {| props_open := VBoolean true |};
                   usesOpenClosedState := None; hasParentDialog := true;
                   ready := false; nestedDialogCount := 0; containers := [];
                   internalDialogRef := None; mainTreeNode := None;
                   titleId := None; panelRef := None; emitted := [];
                   focus_on_nextTick := [] |};
              page := sample_page |}
           [Component Mounted; Unmounted]); [by left|done].
Defined.

(** X27. Unmounting releases the lock, however often it was taken. For a
    Dialog on a page the lock holds nothing of, after any sequence of
    events (the Dialog may open and close many times, on iOS or not) that
    ends with its unmounting: the registry of the lock is empty, the click
    and touchmove listeners are not registered, and
    [getPropertyValue('overflow')] of the root is what it was at the
    start. *)
Theorem unmount_releases_the_lock
    (v : Viewport) (a : App) (es : list AppEvent) :
  let a' := app_run v (es ++ [Unmounted]) a in
  unlocked (page a) →
  unlocked (page a')
  ∧ getPropertyValue (inline_style (documentElement (page a'))) "overflow"
    = getPropertyValue (inline_style (documentElement (page a))) "overflow".
Proof.
  intros a' Hu. subst a'. rewrite app_run_app.
  change (app_run v [Unmounted] (app_run v es a))
    with (app_step v Unmounted (app_run v es a)).
  cbn [app_step page].
  apply (released_run v _ es a).
  rewrite unlock_unlocked by apply Hu. by split.
Qed.

(** Witness for X27: the sample Dialog opens, is closed by its host, opens
    again and is unmounted while open. *)
Lemma unmount_releases_the_lock_witness :
  unlocked
    (page
       (app_run sample_viewport
          ([Component Mounted;
            Component (PropsChanged {| props_open := VBoolean false |});
            Component (PropsChanged {| props_open := VBoolean true |})]
           ++ [Unmounted]) sample_app)).
Proof.
  apply (unmount_releases_the_lock sample_viewport sample_app
           [Component Mounted;
            Component (PropsChanged {| props_open := VBoolean false |});
            Component (PropsChanged {| props_open := VBoolean true |})]).
  done.
Defined.

Section remembered.
Implicit Types (v : Viewport) (d : Dialog) (p q : Page) (c : LockCleanup)
  (cs : list LockCleanup).

Lemma view_cleanups v cs p :
  (∀ c, c ∈ cs → restores_scroll c = false) →
  scrolled_into_view (foldl (λ p c, run_lock_cleanup v c p) p cs)
  = scrolled_into_view p.
Proof.
  revert p. induction cs as [|c cs IH]; intros p Hcs; simpl; [done|].
  rewrite IH by (intros c' Hc'; apply Hcs; rewrite elem_of_cons; by right).
  assert (restores_scroll c = false) as Hc
    by (apply Hcs; rewrite elem_of_cons; by left).
  by destruct c as [[] property previous| | |y].
Qed.

(** What the release of the lock scrolls into view on iOS. *)
Lemma view_unlock v p q :
  isIOS v = true → lock q = lock_registered v p →
  scrolled_into_view (unlock v q)
  = scrolled_into_view q
    ++ match scrollToElement q with
       | Some el => if isConnected v el then [el] else []
       | None => []
       end.
Proof.
  intros Hios Hl. unfold unlock. rewrite Hl. unfold lock_registered.
  rewrite Hios, rev_app_distr. cbn [rev app foldl].
  rewrite view_cleanups
    by (intros c Hc; by apply (root_restores_root_only v (documentElement p))).
  cbn [run_lock_cleanup scrollTo scrollToElement with_lock
       scrolled_into_view pageYOffset].
  destruct (scrollToElement q) as [el|]; [|by rewrite app_nil_r].
  destruct (isConnected v el); [done|by rewrite app_nil_r].
Qed.

End remembered.

(** X28. The element an anchor pointed to is scrolled into view when the
    lock is released. On iOS, while the lock is held on a page it held
    nothing of: when a click on an anchor selects an element outside the
    Dialog, the release of the lock calls [scrollIntoView] on that element
    if it is still connected, and on nothing if it is not; when the
    element is inside the Dialog, or when no anchor was clicked, nothing
    is scrolled into view; when two such clicks were made, only the
    element of the later one is scrolled into view. The Dialog is taken
    to have a panel or a root element. *)
Theorem remembered_element_is_scrolled_into_view
    (v : Viewport) (d : Dialog) (t : Tree) (el : nat) (p : Page) :
  let locked := scroll_lock v d p in
  isIOS v = true → lock_runs v d = true → lock p = [] →
  scrollToElement p = None → own_container d ≠ None →
  scrolled_into_view (unlock v locked) = scrolled_into_view p
  ∧ (outside t d el →
     scrolled_into_view (unlock v (on_document_click t d el locked))
     = scrolled_into_view p ++ (if isConnected v el then [el] else []))
  ∧ (¬ outside t d el →
     scrolled_into_view (unlock v (on_document_click t d el locked))
     = scrolled_into_view p)
  ∧ (∀ el2, outside t d el2 →
       scrolled_into_view
         (unlock v
            (on_document_click t d el2 (on_document_click t d el locked)))
       = scrolled_into_view p ++ (if isConnected v el2 then [el2] else [])).
Proof.
  intros locked Hios Hr Hl Hnone Hown. subst locked.
  rewrite scroll_lock_runs by done.
  assert (lock (page_locked v p) = lock_registered v p) as Hlock
    by (simpl; by rewrite Hl).
  assert (click_listener (page_locked v p) = true) as Hclick
    by (simpl; by rewrite Hios).
  assert (scrolled_into_view (unlock v (page_locked v p))
          = scrolled_into_view p) as Hquiet.
  { rewrite (view_unlock v p) by done. cbn [scrollToElement page_locked].
    rewrite Hios. by rewrite app_nil_r. }
  assert (∀ q x, lock q = lock_registered v p → click_listener q = true →
            scrolled_into_view q = scrolled_into_view p → outside t d x →
            scrolled_into_view (unlock v (on_document_click t d x q))
            = scrolled_into_view p ++ (if isConnected v x then [x] else []))
    as Houtside.
  { intros q x Hq Hc Hs Hout.
    rewrite on_document_click_outside by done.
    rewrite (view_unlock v p) by done. simpl. by rewrite Hs. }
  split_and!; [done| | |].
  - intros Hout. by apply Houtside.
  - intros Hin.
    rewrite on_document_click_spared; [done|tauto].
  - intros el2 Hout2.
    apply Houtside; [..|done]; unfold on_document_click; rewrite Hclick;
      by destruct (some_contains _ _ _) as [[]|].
Qed.

(** Witness for X28: while the sample Dialog is open on the sample iOS
    page, an anchor to the element 15 of the main application is
    clicked. *)
Lemma remembered_element_is_scrolled_into_view_witness :
  scrolled_into_view
    (unlock sample_ios_viewport
       (on_document_click sample_tree sample_open_dialog 15
          (scroll_lock sample_ios_viewport sample_open_dialog
             sample_ios_page))) = [15].
Proof.
  destruct (remembered_element_is_scrolled_into_view sample_ios_viewport
              sample_open_dialog sample_tree 15 sample_ios_page
              eq_refl eq_refl eq_refl eq_refl) as (_ & H & _); [done|].
  apply H. by apply allowed_containers_outside.
Defined.
